(** * avr-calculator: the structured field, the expression compiler,
      the RPN evaluator and the mode controller of [main.c]

    The development embeds the C code of [main.c] shallowly.

    - A byte ([uint8_t]) is a [Z] in [0..255]; a character buffer is the
      memory around its first byte, a total function from offsets to bytes
      ([mem]).  Offsets outside [0..max-1] are the bytes the linker placed
      next to the array: the code reads [buf[-1]] when a function name
      starts the buffer, so that byte is part of the state.
    - 16-bit and 8-bit counters are [Z]; where the code can wrap an 8-bit
      counter the wrap-around is written out.
    - Loops whose exit depends on memory contents carry the number of
      iterations after which the C index would overflow; such a loop
      returns [None] when it does not exit before that.
    - The Field operations, the mode functions and the event handlers are
      embedded as their effect on the globals; their calls of
      [field_update], which changes no global, are left out of them, and
      [field_update] is embedded on its own.
    - The C [float] type, libm and [atof] are the fields of the class
      [Platform]; the code is generic in it.
    - [calc_prepare] receives the string in the term buffer as the list of
      its bytes before the NUL; it returns [None] when the scan pointer is
      moved past that NUL, which the code does only for a function name
      that is cut short.

    The definitions come first: the embedding of the code, the invariants
    and views the properties are stated with, and an ideal platform to run
    examples on.  The properties follow. *)

From Stdlib Require Import String.
From Stdlib Require Import ZArith List Bool Lia.
From Stdlib Require Import Reals Lra.
Import ListNotations.
Open Scope Z_scope.

Set Implicit Arguments.

(** ** Option plumbing for loops that may fail to exit *)

Definition obind {A B : Type} (o : option A) (k : A -> option B) : option B :=
  match o with
  | Some a => k a
  | None => None
  end.

Notation "'do' x <- o ; k" := (obind o (fun x => k))
  (at level 10, x name, o at level 100, k at level 200).

(** ** Characters ([enum CHAR]) and the ctype predicates *)

Definition CHAR_X : Z := 120.
Definition CHAR_DP : Z := 46.
Definition CHAR_LP : Z := 40.
Definition CHAR_RP : Z := 41.
Definition CHAR_PI : Z := 247.
Definition CHAR_ADD : Z := 43.
Definition CHAR_SUB : Z := 45.
Definition CHAR_MUL : Z := 42.
Definition CHAR_DIV : Z := 253.
Definition CHAR_POW : Z := 94.

(** [islower] and [isdigit] of <ctype.h> in the C locale. *)
Definition islower (c : Z) : bool := (97 <=? c) && (c <=? 122).
Definition isdigit (c : Z) : bool := (48 <=? c) && (c <=? 57).

(** The flash strings inserted by the function keys. *)
Definition _str_sin : list Z := [115; 105; 110].
Definition _str_cos : list Z := [99; 111; 115].
Definition _str_tan : list Z := [116; 97; 110].
Definition _str_asin : list Z := [97; 115; 105; 110].
Definition _str_acos : list Z := [97; 99; 111; 115].
Definition _str_atan : list Z := [97; 116; 97; 110].
Definition _str_log : list Z := [108; 111; 103].

(** ** Sizes *)

Definition FIELD_START_WIDTH : Z := 16.
Definition FIELD_STEP_WIDTH : Z := 16.
Definition NUMBER_STACK_SIZE : Z := 32.
Definition OPERATOR_STACK_SIZE : Z := 32.
Definition TOKEN_LIST_SIZE : Z := 32.
Definition MODE_TABLE_STEP_BIG : Z := 10.
Definition TERM_MAX_LEN : Z := 256.
Definition MSG_START_LEN : Z := 6.
Definition MSG_STEP_LEN : Z := 5.
Definition MSG_ERROR_LEN : Z := 5.

(** First value an [int16_t] index cannot hold. *)
Definition INT16_LIMIT : Z := 32768.

(** ** Memory *)

Definition mem := Z -> Z.

Definition upd (m : mem) (i v : Z) : mem :=
  fun j => if j =? i then v else m j.

(** ** The Field ([struct FIELD]) *)

Record Field := mkField {
  row : Z; col : Z; width : Z;
  buf : mem;
  pos : Z; len : Z; max : Z
}.

Definition set_buf (f : Field) (b : mem) : Field :=
  mkField (row f) (col f) (width f) b (pos f) (len f) (max f).
Definition set_pos (f : Field) (p : Z) : Field :=
  mkField (row f) (col f) (width f) (buf f) p (len f) (max f).
Definition set_len (f : Field) (l : Z) : Field :=
  mkField (row f) (col f) (width f) (buf f) (pos f) l (max f).

(** [field_update] only reads the Field and writes to the display; the
    Field operations below are the effect of the C functions on the Field
    and leave that call out.  [Some] says that the loops of the operation
    itself exit; whether the redraw that follows returns is a statement
    about [field_update] on the resulting Field. *)

(** The copy loop of [field_grow]: [k] iterations, [i] counting down. *)
Fixpoint grow_loop (k : nat) (b : mem) (i n : Z) : mem :=
  match k with
  | O => b
  | S k' => grow_loop k' (upd b (i + n) (b i)) (i - 1) n
  end.

Definition field_grow (f : Field) (n : Z) : Field :=
  let b :=
    if buf f (pos f) =? 0 then buf f
    else grow_loop (Z.to_nat (len f - pos f)) (buf f) (len f - 1) n in
  let l := len f + n in
  set_len (set_buf f (upd b l 0)) l.

(** The copy loop of [field_shrink]: runs until a NUL byte is read. *)
Fixpoint shrink_loop (fuel : nat) (b : mem) (i n : Z) : option mem :=
  match fuel with
  | O => None
  | S k =>
      if b i =? 0 then Some b
      else shrink_loop k (upd b (i - n) (b i)) (i + 1) n
  end.

Definition field_shrink (f : Field) (n : Z) : option Field :=
  if buf f (pos f) =? 0 then Some f
  else
    do b <- shrink_loop (Z.to_nat (INT16_LIMIT - pos f)) (buf f) (pos f) n;
    Some (set_buf f b).

Definition field_ins_chr (f : Field) (c : Z) : Field :=
  if len f + 1 <? max f then
    let f1 := field_grow f 1 in
    set_pos (set_buf f1 (upd (buf f1) (pos f1) c)) (pos f1 + 1)
  else f.

(** [while(n--) f->buf[f->pos++] = pgm_read_byte(s++);] *)
Fixpoint ins_loop (n : nat) (f : Field) (s : list Z) : Field :=
  match n with
  | O => f
  | S n' =>
      ins_loop n'
        (set_pos (set_buf f (upd (buf f) (pos f) (hd 0 s))) (pos f + 1))
        (tl s)
  end.

Definition field_ins_str_P (f : Field) (s : list Z) (n : Z) : Field :=
  if len f + n + 1 <? max f then
    let f1 := ins_loop (Z.to_nat n) (field_grow f (n + 1)) s in
    set_pos (set_buf f1 (upd (buf f1) (pos f1) CHAR_LP)) (pos f1 + 1)
  else f.

Definition field_clear (f : Field) : Field :=
  set_buf (set_pos (set_len f 0) 0) (upd (buf f) 0 0).

Definition field_delete (f : Field) : option Field :=
  if 0 <? pos f then
    do f1 <- field_shrink f 1;
    let f2 := set_len (set_pos f1 (pos f1 - 1)) (len f1 - 1) in
    Some (set_buf f2 (upd (buf f2) (len f2) 0))
  else Some f.

Definition field_mv_left (f : Field) : Field :=
  if 0 <? pos f then set_pos f (pos f - 1) else set_pos f (len f).

Definition field_mv_right (f : Field) : Field :=
  if pos f <? len f then set_pos f (pos f + 1) else set_pos f 0.

(** *** Term field *)

(** [for(++n; islower(f->buf[f->pos - n]); ++n) ;] with [uint8_t n]: the
    counter wraps at 256, so after 256 iterations it repeats and the C loop
    never exits ([None]). *)
Fixpoint del_scan (fuel : nat) (b : mem) (p n : Z) : option Z :=
  match fuel with
  | O => None
  | S k =>
      if islower (b (p - n)) then del_scan k b p ((n + 1) mod 256)
      else Some n
  end.

(** The field and the global [x_cnt] (a [uint8_t]) it decrements. *)
Definition field_term_delete (f : Field) (x_cnt : Z) : option (Field * Z) :=
  if 0 <? pos f then
    let a := buf f (pos f - 1) in
    do nx <-
      (if a =? CHAR_X then Some (1, (x_cnt - 1) mod 256)
       else if a =? CHAR_LP then
         do n <- del_scan 256 (buf f) (pos f) 2;
         Some ((n - 1) mod 256, x_cnt)
       else Some (1, x_cnt));
    let n := fst nx in
    do f1 <- field_shrink f n;
    let f2 := set_len (set_pos f1 (pos f1 - n)) (len f1 - n) in
    Some (set_buf f2 (upd (buf f2) (len f2) 0), snd nx)
  else Some (f, x_cnt).

(** [for(; islower(f->buf[f->pos]); --(f->pos)) ;] *)
Fixpoint scan_down (fuel : nat) (b : mem) (p : Z) : option Z :=
  match fuel with
  | O => None
  | S k => if islower (b p) then scan_down k b (p - 1) else Some p
  end.

Definition field_term_mv_left (f : Field) : option Field :=
  if 0 <? pos f then
    let p := pos f - 1 in
    if buf f p =? CHAR_LP then
      do q <- scan_down (Z.to_nat (p - 1 + INT16_LIMIT + 1)) (buf f) (p - 1);
      Some (set_pos f (q + 1))
    else Some (set_pos f p)
  else Some (set_pos f (len f)).

(** [while(islower(f->buf[f->pos])) ++(f->pos);] *)
Fixpoint scan_up (fuel : nat) (b : mem) (p : Z) : option Z :=
  match fuel with
  | O => None
  | S k => if islower (b p) then scan_up k b (p + 1) else Some p
  end.

Definition field_term_mv_right (f : Field) : option Field :=
  if pos f <? len f then
    do p <-
      (if negb (buf f (pos f) =? CHAR_X)
       then scan_up (Z.to_nat (INT16_LIMIT - pos f)) (buf f) (pos f)
       else Some (pos f));
    Some (set_pos f (p + 1))
  else Some (set_pos f 0).

(** ** The platform: C [float], libm, [atof] and the display width *)

Class Platform := {
  F : Type;
  (** An integer, or a decimal constant with an integral value, as a float. *)
  of_Z : Z -> F;
  fadd : F -> F -> F;
  fsub : F -> F -> F;
  fmul : F -> F -> F;
  fdiv : F -> F -> F;
  fneg : F -> F;
  (** [a == b] and [a <= b] *)
  feqb : F -> F -> bool;
  fleb : F -> F -> bool;
  M_PI : F;
  flog : F -> F;
  fsin : F -> F;
  fcos : F -> F;
  ftan : F -> F;
  fasin : F -> F;
  facos : F -> F;
  fatan : F -> F;
  fpow : F -> F -> F;
  (** [atof] applied to a NUL-terminated string, given without its NUL. *)
  atof : list Z -> F;
  (** [LCD_WIDTH] of lcd.c, which is not part of the sources. *)
  LCD_WIDTH : Z
}.

(** ** Tokens ([enum TOKEN_TYPE]) and error codes ([enum PGM_STRING]) *)

Inductive TOKEN_TYPE :=
  | TT_NULL | TT_NUMBER | TT_X | TT_LP | TT_RP
  | TT_UNARY_MINUS | TT_LOG | TT_SIN | TT_COS | TT_TAN
  | TT_ASIN | TT_ACOS | TT_ATAN
  | TT_ADD | TT_SUB | TT_MUL | TT_DIV | TT_POW.

Definition tt_code (t : TOKEN_TYPE) : Z :=
  match t with
  | TT_NULL => 0 | TT_NUMBER => 1 | TT_X => 2 | TT_LP => 3 | TT_RP => 4
  | TT_UNARY_MINUS => 5 | TT_LOG => 6 | TT_SIN => 7 | TT_COS => 8
  | TT_TAN => 9 | TT_ASIN => 10 | TT_ACOS => 11 | TT_ATAN => 12
  | TT_ADD => 13 | TT_SUB => 14 | TT_MUL => 15 | TT_DIV => 16
  | TT_POW => 17
  end.

Definition tt_eqb (a b : TOKEN_TYPE) : bool := tt_code a =? tt_code b.

Definition ERROR_SYNTAX : Z := 1.
Definition ERROR_MATH : Z := 2.
Definition ERROR_NOMEM : Z := 3.
Definition ERROR_RANGE : Z := 4.

Definition get_precedence (tt : TOKEN_TYPE) : Z :=
  match tt with
  | TT_ADD | TT_SUB => 3
  | TT_MUL | TT_DIV => 2
  | TT_POW => 1
  | _ => 0
  end.

(** ** Key scanning (the TIMER2 compare-match interrupt)

    The interrupt routine keeps four static locals and writes the low bits
    of the two port B registers; the pin registers [PINC] and [PINB] are
    read from the hardware, so their values are the inputs of a run of the
    routine.  The counters [t] and [lt] stay below 4, which keeps every
    shift in range. *)

Module KeyScan.

Definition KEY_NULL : Z := -1.
Definition PIN_SHIFT : Z := 4.

Record State := mkState {
  last_key : Z;
  t : Z;
  lt : Z;
  key_states : Z;
  DDRB : Z;
  PORTB : Z
}.

(** The static initialisers, with the registers as [main] leaves them. *)
Definition init (ddrb portb : Z) : State := mkState KEY_NULL 0 3 0 ddrb portb.

(** [for(t = 0; t < 16; ++t)] with its [break]: [n] iterations are left
    and the counter is [i]; the result is [key]. *)
Fixpoint find_key (n : nat) (states pinb i : Z) : Z :=
  match n with
  | O => KEY_NULL
  | S n' =>
      if negb (Z.land (Z.shiftr states i) 1 =? 0) then
        if Z.land (Z.shiftr pinb PIN_SHIFT) 1 =? 0 then i + 16 else i
      else find_key n' states pinb (i + 1)
  end.

(** One run of the routine: the new state and the argument of the call
    [_event((uint8_t)key)], if it is made. *)
Definition TIMER2_COMPA_vect (pinc pinb : Z) (s : State)
  : State * option Z :=
  let states :=
    Z.lor (key_states s) (Z.shiftl (Z.land pinc 15) (4 * lt s)) mod 65536 in
  let ddrb := Z.land (DDRB s) (Z.lnot (Z.shiftl 1 (lt s))) mod 256 in
  let portb := Z.land (PORTB s) (Z.lnot (Z.shiftl 1 (lt s))) mod 256 in
  let lt' := if (lt s + 1) mod 256 =? 4 then 0 else (lt s + 1) mod 256 in
  let ddrb := Z.lor ddrb (Z.shiftl 1 (t s)) mod 256 in
  let portb := Z.lor portb (Z.shiftl 1 (t s)) mod 256 in
  let t' := (t s + 1) mod 256 in
  if t' =? 4 then
    let key := find_key 16 states pinb 0 in
    (mkState key 0 lt' 0 ddrb portb,
     if negb (key =? last_key s) && (last_key s =? KEY_NULL)
     then Some (key mod 256) else None)
  else (mkState (last_key s) t' lt' states ddrb portb, None).

(** The calls of [_event] a sequence of pin readings (PINC, PINB) leads
    to, oldest first, and the state it leaves. *)
Fixpoint scan (pins : list (Z * Z)) (s : State) : list Z * State :=
  match pins with
  | [] => ([], s)
  | (pinc, pinb) :: pins' =>
      let '(s1, ev) := TIMER2_COMPA_vect pinc pinb s in
      let '(evs, s2) := scan pins' s1 in
      (match ev with Some k => k :: evs | None => evs end, s2)
  end.

(** The four readings of one pass over the key matrix, as the sixteen key
    bits the routine assembles from them.  The first reading of a pass is
    the fourth column, driven at the end of the pass before. *)
Definition matrix (c3 c0 c1 c2 : Z) : Z :=
  Z.lor (Z.lor (Z.lor (Z.shiftl (Z.land c3 15) 12) (Z.land c0 15))
           (Z.shiftl (Z.land c1 15) 4))
    (Z.shiftl (Z.land c2 15) 8).

(** A pass: the readings (PINC, PINB) of its four interrupts. *)
Definition Pass : Type := (Z * Z) * (Z * Z) * (Z * Z) * (Z * Z).

Definition readings (p : Pass) : list (Z * Z) :=
  let '(r3, r0, r1, r2) := p in [r3; r0; r1; r2].

Definition keys_down (p : Pass) : Z :=
  let '(r3, r0, r1, r2) := p in matrix (fst r3) (fst r0) (fst r1) (fst r2).

(** The state between two passes. *)
Definition at_rest (s : State) : Prop :=
  t s = 0 /\ lt s = 3 /\ key_states s = 0.

(** What a pass finds: the lowest of the sixteen key bits that is set,
    with 16 added when the shift pin reads low. *)
Definition found (p : Pass) (key : Z) : Prop :=
  (key = KEY_NULL /\
   forall j, 0 <= j < 16 -> Z.testbit (keys_down p) j = false) \/
  (exists k,
     0 <= k < 16 /\ Z.testbit (keys_down p) k = true /\
     (forall j, 0 <= j < k -> Z.testbit (keys_down p) j = false) /\
     key = if Z.testbit (snd (snd p)) PIN_SHIFT then k else k + 16).

End KeyScan.

Section Calculator.

Context {P : Platform}.

(** ** The compiled expression

    [tok_type_list] holds the entries below [tok_cnt], the only ones the
    code reads, in the order they were written; [tok_num_list] is the whole
    array, since the evaluator indexes it with a counter of its own. *)

Record Tokens := mkTokens {
  tok_type_list : list TOKEN_TYPE;
  tok_num_list : Z -> F
}.

Definition tok_cnt (t : Tokens) : Z := Z.of_nat (length (tok_type_list t)).

(** The locals of [calc_prepare].  [op_stack] holds the entries below
    [top_stack], top first. *)
Record Prep := mkPrep {
  cur_type : TOKEN_TYPE;
  op_stack : list TOKEN_TYPE;
  top_num : Z;
  toks : Tokens
}.

Definition top_stack (s : Prep) : Z := Z.of_nat (length (op_stack s)).

(** A step either returns from [calc_prepare] with an error code, leaving
    the globals as they are, or goes on. *)
Inductive Step (A : Type) :=
  | Return (err : Z) (t : Tokens)
  | Go (a : A).
Arguments Return {A} err t.
Arguments Go {A} a.

Definition sbind {A B : Type} (s : Step A) (k : A -> Step B) : Step B :=
  match s with
  | Return e t => Return e t
  | Go a => k a
  end.

(** [if(tok_cnt >= TOKEN_LIST_SIZE - 1) return ERROR_NOMEM;
     tok_type_list[tok_cnt++] = t;] *)
Definition emit (t : TOKEN_TYPE) (s : Prep) : Step Prep :=
  if tok_cnt (toks s) >=? TOKEN_LIST_SIZE - 1 then Return ERROR_NOMEM (toks s)
  else
    Go (mkPrep (cur_type s) (op_stack s) (top_num s)
          (mkTokens (tok_type_list (toks s) ++ [t]) (tok_num_list (toks s)))).

Definition set_cur (s : Prep) (t : TOKEN_TYPE) : Prep :=
  mkPrep t (op_stack s) (top_num s) (toks s).
Definition set_stack (s : Prep) (st : list TOKEN_TYPE) : Prep :=
  mkPrep (cur_type s) st (top_num s) (toks s).

(** [tok_num_list[top_num++] = v;] *)
Definition put_num (s : Prep) (v : F) : Prep :=
  mkPrep (cur_type s) (op_stack s) (top_num s + 1)
    (mkTokens (tok_type_list (toks s))
       (fun j => if j =? top_num s then v else tok_num_list (toks s) j)).

(** [if(top_stack >= OPERATOR_STACK_SIZE - 1) return ERROR_NOMEM;
     op_stack[top_stack++] = t;] *)
Definition push_op (t : TOKEN_TYPE) (s : Prep) : Step Prep :=
  if top_stack s >=? OPERATOR_STACK_SIZE - 1 then Return ERROR_NOMEM (toks s)
  else Go (set_stack s (t :: op_stack s)).

(** *** Number literals *)

(** The scan for the end of the literal: the characters of the literal and
    what follows it, or [None] at a second decimal point. *)
Fixpoint scan_float (term : list Z) (dps : Z) : option (list Z * list Z) :=
  match term with
  | [] => Some ([], [])
  | c :: term' =>
      if c =? CHAR_DP then
        if 1 <? dps + 1 then None
        else
          do r <- scan_float term' (dps + 1);
          Some (c :: fst r, snd r)
      else if negb (isdigit c) then Some ([], term)
      else
        do r <- scan_float term' dps;
        Some (c :: fst r, snd r)
  end.

(** [n = n * 10.0 + c - '0'] *)
Definition add_digit (n : F) (c : Z) : F :=
  fsub (fadd (fmul n (of_Z 10)) (of_Z c)) (of_Z 48).

(** Digits before the decimal point; returns what follows the point. *)
Fixpoint int_part (l : list Z) (n : F) : F * list Z :=
  match l with
  | [] => (n, [])
  | c :: l' => if c =? CHAR_DP then (n, l') else int_part l' (add_digit n c)
  end.

(** Digits after the decimal point. *)
Fixpoint frac_part (l : list Z) (n power : F) : F * F :=
  match l with
  | [] => (n, power)
  | c :: l' => frac_part l' (add_digit n c) (fmul power (of_Z 10))
  end.

Definition parse_float (l : list Z) : F :=
  let '(n, rest) := int_part l (of_Z 0) in
  let '(n', power) := frac_part rest n (of_Z 1) in
  fdiv n' power.

(** *** The operator stack loops *)

(** The [while(i)] loop of the closing parenthesis. *)
Fixpoint pop_to_lp (stack : list TOKEN_TYPE) (s : Prep) : Step Prep :=
  match stack with
  | [] => Return ERROR_SYNTAX (toks s)
  | t :: stack' =>
      if tt_eqb t TT_LP then Go (set_stack s stack')
      else sbind (emit t s) (pop_to_lp stack')
  end.

(** The [while(top_stack > 0)] loop run for an operator. *)
Fixpoint pop_ops (precedence : Z) (stack : list TOKEN_TYPE) (s : Prep)
  : Step Prep :=
  match stack with
  | [] => Go (set_stack s [])
  | tmp :: stack' =>
      if (get_precedence tmp >? precedence) || tt_eqb tmp TT_LP
      then Go (set_stack s stack)
      else sbind (emit tmp s) (pop_ops precedence stack')
  end.

Definition shunt (s : Prep) : Step Prep :=
  sbind (pop_ops (get_precedence (cur_type s)) (op_stack s) s)
        (push_op (cur_type s)).

(** The final [while(top_stack > 0)] loop. *)
Fixpoint pop_all (stack : list TOKEN_TYPE) (s : Prep) : Step Prep :=
  match stack with
  | [] => Go (set_stack s [])
  | t :: stack' => sbind (emit t s) (pop_all stack')
  end.

(** *** The tokenizer *)

(** [term += n]: [None] when the pointer passes the terminating NUL. *)
Definition advance (n : nat) (term : list Z) : option (list Z) :=
  if (n <=? length term)%nat then Some (skipn n term) else None.

(** [case CHAR_SUB] *)
Definition minus_type (cur : TOKEN_TYPE) : TOKEN_TYPE :=
  match cur with
  | TT_NULL | TT_ADD | TT_SUB | TT_MUL | TT_DIV | TT_POW | TT_LP =>
      TT_UNARY_MINUS
  | TT_NUMBER | TT_X | TT_RP => TT_SUB
  | _ => cur
  end.

(** The inner switch of [case 'a'], on the character after the [a]. *)
Definition arc_type (c : Z) (cur : TOKEN_TYPE) : TOKEN_TYPE :=
  if c =? 115 then TT_ASIN
  else if c =? 99 then TT_ACOS
  else if c =? 116 then TT_ATAN
  else cur.

(** One iteration of the [while((c = *term))] loop on the character [c] and
    what follows it: the remaining input and the new locals.  The outer
    [option] is [None] when the scan pointer passes the terminating NUL. *)
Definition calc_step (c : Z) (rest : list Z) (s : Prep)
  : option (Step (list Z * Prep)) :=
  let op (t : TOKEN_TYPE) (term' : list Z) :=
    Some (sbind (shunt (set_cur s t)) (fun s' => Go (term', s'))) in
  if isdigit c then
    match scan_float (c :: rest) 0 with
    | None => Some (Return ERROR_SYNTAX (toks s))
    | Some (lit, term') =>
        Some (sbind (emit TT_NUMBER (set_cur s TT_NUMBER)) (fun s' =>
              Go (term', put_num s' (parse_float lit))))
    end
  else if c =? CHAR_SUB then op (minus_type (cur_type s)) rest
  else if c =? CHAR_PI then
    Some (sbind (emit TT_NUMBER (set_cur s TT_NUMBER)) (fun s' =>
          Go (rest, put_num s' M_PI)))
  else if c =? CHAR_X then
    Some (sbind (emit TT_X (set_cur s TT_X)) (fun s' => Go (rest, s')))
  else if c =? CHAR_LP then
    Some (sbind (push_op TT_LP (set_cur s TT_LP)) (fun s' => Go (rest, s')))
  else if c =? CHAR_RP then
    Some (sbind (pop_to_lp (op_stack s) (set_cur s TT_RP)) (fun s' =>
          Go (rest, s')))
  else if c =? CHAR_ADD then op TT_ADD rest
  else if c =? CHAR_MUL then op TT_MUL rest
  else if c =? CHAR_DIV then op TT_DIV rest
  else if c =? CHAR_POW then op TT_POW rest
  else if c =? 108 then do term' <- advance 2 rest; op TT_LOG term'
  else if c =? 97 then
    do term' <- advance 3 rest;
    op (arc_type (hd 0 rest) (cur_type s)) term'
  else if c =? 115 then do term' <- advance 2 rest; op TT_SIN term'
  else if c =? 99 then do term' <- advance 2 rest; op TT_COS term'
  else if c =? 116 then do term' <- advance 2 rest; op TT_TAN term'
  else op (cur_type s) rest.

Fixpoint calc_loop (fuel : nat) (term : list Z) (s : Prep)
  : option (Step Prep) :=
  match term with
  | [] => Some (Go s)
  | c :: rest =>
      match fuel with
      | O => None
      | S fuel' =>
          do r <- calc_step c rest s;
          match r with
          | Return e t => Some (Return e t)
          | Go (term', s') => calc_loop fuel' term' s'
          end
      end
  end.

(** The [while] loop of [calc_prepare] from its start; [old] is the
    previous content of the globals. *)
Definition calc_scan (term : list Z) (old : Tokens) : option (Step Prep) :=
  calc_loop (length term) term
    (mkPrep TT_NULL [] 0 (mkTokens [] (tok_num_list old))).

(** [calc_prepare]: the error code (0 on success) and the globals it
    leaves. *)
Definition calc_prepare (term : list Z) (old : Tokens)
  : option (Z * Tokens) :=
  do r <- calc_scan term old;
  match sbind r (fun s => pop_all (op_stack s) s) with
  | Return e t => Some (e, t)
  | Go s => Some (0, toks s)
  end.

(** ** The evaluator *)

Definition DEG_TO_RAD (deg : F) : F := fdiv (fmul deg M_PI) (of_Z 180).
Definition RAD_TO_DEG (rad : F) : F := fmul rad (fdiv (of_Z 180) M_PI).
Definition SIND (x : F) : F := fsin (DEG_TO_RAD x).
Definition COSD (x : F) : F := fcos (DEG_TO_RAD x).
Definition TAND (x : F) : F := ftan (DEG_TO_RAD x).
Definition ASIND (x : F) : F := RAD_TO_DEG (fasin x).
Definition ACOSD (x : F) : F := RAD_TO_DEG (facos x).
Definition ATAND (x : F) : F := RAD_TO_DEG (fatan x).

(** [n >= -1 && n <= 1] *)
Definition asin_acos_range (n : F) : bool :=
  fleb (of_Z (-1)) n && fleb n (of_Z 1).

(** The inner switch of [calc_solve]. *)
Inductive OpResult :=
  | Value (v : F)
  | Failure (err : Z)
  | Continue.

Definition apply_op (t : TOKEN_TYPE) (op_left op_right : F) : OpResult :=
  match t with
  | TT_UNARY_MINUS => Value (fneg op_left)
  | TT_ADD => Value (fadd op_left op_right)
  | TT_SUB => Value (fsub op_left op_right)
  | TT_MUL => Value (fmul op_left op_right)
  | TT_DIV =>
      if feqb op_right (of_Z 0) then Failure ERROR_MATH
      else Value (fdiv op_left op_right)
  | TT_LOG => Value (flog op_left)
  | TT_SIN => Value (SIND op_left)
  | TT_COS => Value (COSD op_left)
  | TT_TAN => Value (TAND op_left)
  | TT_ASIN =>
      if negb (asin_acos_range op_left) then Failure ERROR_MATH
      else Value (ASIND op_left)
  | TT_ACOS =>
      if negb (asin_acos_range op_left) then Failure ERROR_MATH
      else Value (ACOSD op_left)
  | TT_ATAN => Value (ATAND op_left)
  | TT_POW => Value (fpow op_left op_right)
  | _ => Continue
  end.

(** The locals of [calc_solve]; [num_stack] holds the entries below
    [top_num], top first. *)
Record Solve := mkSolve {
  tok_num_i : Z;
  num_stack : list F
}.

(** [if(top_num >= NUMBER_STACK_SIZE - 1) return ERROR_NOMEM;
     num_stack[top_num++] = v;] *)
Definition push_num (v : F) (i : Z) (stack : list F) : Z + Solve :=
  if Z.of_nat (length stack) >=? NUMBER_STACK_SIZE - 1 then inl ERROR_NOMEM
  else inr (mkSolve i (v :: stack)).

(** The body of the [for] loop on one token: an error code to return, or
    the locals for the next token. *)
Definition solve_token (nums : Z -> F) (x : F) (t : TOKEN_TYPE) (s : Solve)
  : Z + Solve :=
  match t with
  | TT_NUMBER =>
      push_num (nums (tok_num_i s)) (tok_num_i s + 1) (num_stack s)
  | TT_X => push_num x (tok_num_i s) (num_stack s)
  | _ =>
      let popped :=
        if tt_code t <? tt_code TT_ADD then
          match num_stack s with
          | [] => None
          | op_left :: st => Some (op_left, of_Z 0, st)
          end
        else
          match num_stack s with
          | op_right :: op_left :: st => Some (op_left, op_right, st)
          | _ => None
          end in
      match popped with
      | None => inl ERROR_SYNTAX
      | Some (op_left, op_right, st) =>
          match apply_op t op_left op_right with
          | Value v => push_num v (tok_num_i s) st
          | Failure e => inl e
          | Continue => inr (mkSolve (tok_num_i s) st)
          end
      end
  end.

Fixpoint solve_loop (nums : Z -> F) (x : F) (l : list TOKEN_TYPE) (s : Solve)
  : Z + Solve :=
  match l with
  | [] => inr s
  | t :: l' =>
      match solve_token nums x t s with
      | inl e => inl e
      | inr s' => solve_loop nums x l' s'
      end
  end.

(** [calc_solve(x, &y)]: the error code and the content of [*y], which is
    [y0] before the call. *)
Definition calc_solve (t : Tokens) (x y0 : F) : Z * F :=
  match solve_loop (tok_num_list t) x (tok_type_list t) (mkSolve 0 []) with
  | inl e => (e, y0)
  | inr s =>
      match num_stack s with
      | [y] => (0, y)
      | _ => (ERROR_SYNTAX, y0)
      end
  end.

(** ** Keys ([enum KEY], in the order of their codes 0..31) *)

Inductive KEY :=
  | KEY_3_3 | KEY_2_3 | KEY_1_3 | KEY_0_3
  | KEY_3_2 | KEY_2_2 | KEY_1_2 | KEY_0_2
  | KEY_3_1 | KEY_2_1 | KEY_1_1 | KEY_0_1
  | KEY_3_0 | KEY_2_0 | KEY_1_0 | KEY_0_0
  | KEY_SHIFT_3_3 | KEY_SHIFT_2_3 | KEY_SHIFT_1_3 | KEY_SHIFT_0_3
  | KEY_SHIFT_3_2 | KEY_SHIFT_2_2 | KEY_SHIFT_1_2 | KEY_SHIFT_0_2
  | KEY_SHIFT_3_1 | KEY_SHIFT_2_1 | KEY_SHIFT_1_1 | KEY_SHIFT_0_1
  | KEY_SHIFT_3_0 | KEY_SHIFT_2_0 | KEY_SHIFT_1_0 | KEY_SHIFT_0_0.

Definition key_code (k : KEY) : Z :=
  match k with
  | KEY_3_3 => 0 | KEY_2_3 => 1 | KEY_1_3 => 2 | KEY_0_3 => 3
  | KEY_3_2 => 4 | KEY_2_2 => 5 | KEY_1_2 => 6 | KEY_0_2 => 7
  | KEY_3_1 => 8 | KEY_2_1 => 9 | KEY_1_1 => 10 | KEY_0_1 => 11
  | KEY_3_0 => 12 | KEY_2_0 => 13 | KEY_1_0 => 14 | KEY_0_0 => 15
  | KEY_SHIFT_3_3 => 16 | KEY_SHIFT_2_3 => 17 | KEY_SHIFT_1_3 => 18
  | KEY_SHIFT_0_3 => 19 | KEY_SHIFT_3_2 => 20 | KEY_SHIFT_2_2 => 21
  | KEY_SHIFT_1_2 => 22 | KEY_SHIFT_0_2 => 23 | KEY_SHIFT_3_1 => 24
  | KEY_SHIFT_2_1 => 25 | KEY_SHIFT_1_1 => 26 | KEY_SHIFT_0_1 => 27
  | KEY_SHIFT_3_0 => 28 | KEY_SHIFT_2_0 => 29 | KEY_SHIFT_1_0 => 30
  | KEY_SHIFT_0_0 => 31
  end.

(** [key & ~(1 << 4)] *)
Definition UNSHIFT (key : KEY) : Z :=
  Z.land (key_code key) (Z.lnot (Z.shiftl 1 4)).

(** ** The display

    The log records the calls the mode functions make to lcd.c, oldest
    first; their calls of [field_update], like those inside the Field
    operations, are left out.  [lcd_command] keeps the one bit of its
    argument that varies, the cursor switch; [lcd_number v n] stands for
    [lcd_string(FORMAT_NUMBER(v, _buf_conv, n))]. *)

Inductive LcdOp :=
  | lcd_clear
  | lcd_command (cursor_on : bool)
  | lcd_cursor (x y : Z)
  | lcd_data (c : Z)
  | lcd_string (s : list Z)
  | lcd_string_P (s : String.string)
  | lcd_number (v : F) (n : Z).

Definition _str_start : String.string := "START="%string.
Definition _str_step : String.string := "STEP="%string.
Definition _str_error : String.string := "ERROR"%string.
Definition _str_press_any_key : String.string := "Press any key"%string.
Definition _str_syntax_error : String.string := "Syntax Error"%string.
Definition _str_math_error : String.string := "Math. Error"%string.
Definition _str_not_enough_mem : String.string := "Not enough mem."%string.
Definition _str_range_error : String.string := "Range Error"%string.

Definition _err_msg : list String.string :=
  [_str_syntax_error; _str_math_error; _str_not_enough_mem;
   _str_range_error].

(** ** Drawing a Field ([field_update])

    The loop counter is an [int8_t]: avr-gcc reduces a value that does not
    fit modulo 256, so the counter wraps from 127 to -128 and the loops
    then read the bytes below the buffer.  The routine writes no memory
    and a counter takes 256 values: a loop that has not exited after 256
    iterations never does ([None]).  The arguments of [lcd_cursor] are
    recorded as the [int] values the code computes. *)

Definition int8 (z : Z) : Z := (z + 128) mod 256 - 128.

(** [for(i = 0; f->buf[i]; ++i) lcd_data(f->buf[i]);], from [i] on: the
    calls and the final value of [i]. *)
Fixpoint update_text (fuel : nat) (b : mem) (i : Z)
  : option (list LcdOp * Z) :=
  match fuel with
  | O => None
  | S k =>
      if b i =? 0 then Some ([], i)
      else
        do r <- update_text k b (int8 (i + 1));
        Some (lcd_data (b i) :: fst r, snd r)
  end.

(** [for(; i < f->width; ++i) lcd_data(' ');] *)
Fixpoint update_pad (fuel : nat) (w i : Z) : option (list LcdOp) :=
  match fuel with
  | O => None
  | S k =>
      if i <? w then
        do r <- update_pad k w (int8 (i + 1)); Some (lcd_data 32 :: r)
      else Some []
  end.

(** [for(...; i < f->pos + 1 && f->buf[i]; ++i) lcd_data(f->buf[i]);] *)
Fixpoint update_window (fuel : nat) (b : mem) (p i : Z)
  : option (list LcdOp) :=
  match fuel with
  | O => None
  | S k =>
      if (i <? p + 1) && negb (b i =? 0) then
        do r <- update_window k b p (int8 (i + 1)); Some (lcd_data (b i) :: r)
      else Some []
  end.

Definition field_update (f : Field) : option (list LcdOp) :=
  if pos f <? width f - 1 then
    do r <- update_text 256 (buf f) 0;
    do pad <- update_pad 256 (width f) (snd r);
    Some (lcd_cursor (col f) (row f)
          :: fst r ++ pad ++ [lcd_cursor (col f + pos f) (row f)])
  else
    do w <-
      update_window 256 (buf f) (pos f) (int8 (pos f - (width f - 1)));
    Some ([lcd_cursor (col f + width f - 1) (row f); lcd_data 32;
           lcd_cursor (col f) (row f)]
          ++ w ++ [lcd_cursor (col f + width f - 1) (row f)]).

(** The string a [char *] argument points to: the bytes before the first
    NUL, [None] if there is none among the first [n] bytes. *)
Fixpoint cstring (n : nat) (b : mem) (i : Z) : option (list Z) :=
  match n with
  | O => None
  | S k =>
      if b i =? 0 then Some []
      else do l <- cstring k b (i + 1); Some (b i :: l)
  end.

(** ** The application state (the globals of main.c) *)

Inductive EventHandler :=
  | on_mode_input_event
  | on_mode_result_event
  | on_mode_table_event
  | on_mode_settings_event
  | on_mode_error_event.

Inductive ModeFunction :=
  | on_mode_input
  | on_mode_settings.

(** The two values [tbl_cur_fld] takes. *)
Inductive FieldPtr :=
  | ptr_fld_start
  | ptr_fld_step.

Record App := mkApp {
  fld_term : Field;
  x_cnt : Z;
  fld_start : Field;
  fld_step : Field;
  tbl_cur_fld : FieldPtr;
  tbl_pos : F;
  tbl_start : F;
  tbl_step : F;
  compiled : Tokens;
  _event : EventHandler;
  _mode : ModeFunction;
  lcd : list LcdOp
}.

Definition set_fld_term (a : App) (f : Field) : App :=
  mkApp f (x_cnt a) (fld_start a) (fld_step a) (tbl_cur_fld a) (tbl_pos a)
    (tbl_start a) (tbl_step a) (compiled a) (_event a) (_mode a) (lcd a).
Definition set_x_cnt (a : App) (n : Z) : App :=
  mkApp (fld_term a) n (fld_start a) (fld_step a) (tbl_cur_fld a) (tbl_pos a)
    (tbl_start a) (tbl_step a) (compiled a) (_event a) (_mode a) (lcd a).
Definition set_fld_start (a : App) (f : Field) : App :=
  mkApp (fld_term a) (x_cnt a) f (fld_step a) (tbl_cur_fld a) (tbl_pos a)
    (tbl_start a) (tbl_step a) (compiled a) (_event a) (_mode a) (lcd a).
Definition set_fld_step (a : App) (f : Field) : App :=
  mkApp (fld_term a) (x_cnt a) (fld_start a) f (tbl_cur_fld a) (tbl_pos a)
    (tbl_start a) (tbl_step a) (compiled a) (_event a) (_mode a) (lcd a).
Definition set_tbl_cur_fld (a : App) (p : FieldPtr) : App :=
  mkApp (fld_term a) (x_cnt a) (fld_start a) (fld_step a) p (tbl_pos a)
    (tbl_start a) (tbl_step a) (compiled a) (_event a) (_mode a) (lcd a).
Definition set_tbl_pos (a : App) (v : F) : App :=
  mkApp (fld_term a) (x_cnt a) (fld_start a) (fld_step a) (tbl_cur_fld a) v
    (tbl_start a) (tbl_step a) (compiled a) (_event a) (_mode a) (lcd a).
Definition set_tbl_start (a : App) (v : F) : App :=
  mkApp (fld_term a) (x_cnt a) (fld_start a) (fld_step a) (tbl_cur_fld a)
    (tbl_pos a) v (tbl_step a) (compiled a) (_event a) (_mode a) (lcd a).
Definition set_tbl_step (a : App) (v : F) : App :=
  mkApp (fld_term a) (x_cnt a) (fld_start a) (fld_step a) (tbl_cur_fld a)
    (tbl_pos a) (tbl_start a) v (compiled a) (_event a) (_mode a) (lcd a).
Definition set_compiled (a : App) (t : Tokens) : App :=
  mkApp (fld_term a) (x_cnt a) (fld_start a) (fld_step a) (tbl_cur_fld a)
    (tbl_pos a) (tbl_start a) (tbl_step a) t (_event a) (_mode a) (lcd a).
Definition set_event (a : App) (e : EventHandler) : App :=
  mkApp (fld_term a) (x_cnt a) (fld_start a) (fld_step a) (tbl_cur_fld a)
    (tbl_pos a) (tbl_start a) (tbl_step a) (compiled a) e (_mode a) (lcd a).
Definition set_mode (a : App) (m : ModeFunction) : App :=
  mkApp (fld_term a) (x_cnt a) (fld_start a) (fld_step a) (tbl_cur_fld a)
    (tbl_pos a) (tbl_start a) (tbl_step a) (compiled a) (_event a) m (lcd a).
(** Appends display calls to the log. *)
Definition show (a : App) (ops : list LcdOp) : App :=
  mkApp (fld_term a) (x_cnt a) (fld_start a) (fld_step a) (tbl_cur_fld a)
    (tbl_pos a) (tbl_start a) (tbl_step a) (compiled a) (_event a) (_mode a)
    (lcd a ++ ops).

(** The Field [tbl_cur_fld] points to. *)
Definition cur_fld (a : App) : Field :=
  match tbl_cur_fld a with
  | ptr_fld_start => fld_start a
  | ptr_fld_step => fld_step a
  end.
Definition set_cur_fld (a : App) (f : Field) : App :=
  match tbl_cur_fld a with
  | ptr_fld_start => set_fld_start a f
  | ptr_fld_step => set_fld_step a f
  end.

(** ** Number field *)

Definition field_number_event (f : Field) (key : KEY) : option Field :=
  match key with
  | KEY_0_0 => Some (field_ins_chr f 49)
  | KEY_0_1 => Some (field_ins_chr f 52)
  | KEY_0_2 => Some (field_ins_chr f 55)
  | KEY_1_0 => Some (field_ins_chr f 50)
  | KEY_1_1 => Some (field_ins_chr f 53)
  | KEY_1_2 => Some (field_ins_chr f 56)
  | KEY_1_3 => Some (field_ins_chr f 48)
  | KEY_2_0 => Some (field_ins_chr f 51)
  | KEY_2_1 => Some (field_ins_chr f 54)
  | KEY_2_2 => Some (field_ins_chr f 57)
  | KEY_3_0 => Some (field_clear f)
  | KEY_3_1 => field_delete f
  | KEY_3_2 => Some (field_ins_chr f CHAR_DP)
  | KEY_SHIFT_0_1 => Some (field_mv_left f)
  | KEY_SHIFT_2_1 => Some (field_mv_right f)
  | _ => Some f
  end.

(** ** The modes

    The mode functions and the event handlers as their effect on the
    globals and their own calls to lcd.c; the redraws by [field_update]
    ([mode_input] ends with one of the term field) are left out, as in the
    Field operations. *)

Definition mode_input (a : App) : App :=
  show (set_event (set_mode a on_mode_input) on_mode_input_event)
    [lcd_clear; lcd_command true].

Definition mode_result (y : F) (a : App) : App :=
  show (set_event a on_mode_result_event)
    [lcd_cursor 0 1; lcd_number y LCD_WIDTH;
     lcd_cursor (if pos (fld_term a) <? LCD_WIDTH - 1
                 then pos (fld_term a) else LCD_WIDTH - 1) 0].

(** The blanks before the ERROR marker are counted by a [uint8_t] from 2
    up to [LCD_WIDTH - MSG_ERROR_LEN], a display width well below 256. *)
Definition mode_table_update (a : App) : App :=
  let x := fadd (tbl_start a) (fmul (tbl_pos a) (tbl_step a)) in
  let a1 := show a [lcd_cursor 2 0; lcd_number x 14] in
  let '(err, y) := calc_solve (compiled a) x (of_Z 0) in
  if negb (err =? 0) then
    show a1
      (lcd_cursor 2 1
       :: repeat (lcd_data 32) (Z.to_nat (LCD_WIDTH - MSG_ERROR_LEN - 2))
       ++ [lcd_string_P _str_error])
  else show a1 [lcd_cursor 2 1; lcd_number y 14].

Definition mode_table (a : App) : App :=
  mode_table_update
    (show (set_event (set_tbl_pos a (of_Z 0)) on_mode_table_event)
       [lcd_command false; lcd_cursor 0 0; lcd_data 88; lcd_data 61;
        lcd_cursor 0 1; lcd_data 89; lcd_data 61]).

Definition mode_settings (a : App) : option App :=
  let a1 :=
    set_tbl_cur_fld
      (set_event (set_mode a on_mode_settings) on_mode_settings_event)
      ptr_fld_start in
  do s1 <- cstring (Z.to_nat FIELD_START_WIDTH) (buf (fld_start a)) 0;
  do s2 <- cstring (Z.to_nat FIELD_STEP_WIDTH) (buf (fld_step a)) 0;
  Some (show a1
          [lcd_clear; lcd_command true; lcd_string_P _str_start;
           lcd_string s1; lcd_cursor 0 1; lcd_string_P _str_step;
           lcd_string s2]).

Definition mode_error (err : Z) (a : App) : App :=
  set_event
    (show a
       [lcd_clear; lcd_command false;
        lcd_string_P (nth (Z.to_nat (err - 1)) _err_msg String.EmptyString);
        lcd_cursor 0 1; lcd_string_P _str_press_any_key])
    on_mode_error_event.

(** [case KEY_3_3] of [mode_input_event]: enter. *)
Definition mode_input_enter (a : App) : option App :=
  do term <- cstring (Z.to_nat TERM_MAX_LEN) (buf (fld_term a)) 0;
  do r <- calc_prepare term (compiled a);
  let '(err, t) := r in
  let a1 := set_compiled a t in
  if negb (err =? 0) then Some (mode_error err a1)
  else
    let '(err, y) := calc_solve t (of_Z 0) (of_Z 0) in
    if negb (x_cnt a1 =? 0) then
      if negb (err =? 0) && negb (err =? ERROR_MATH)
      then Some (mode_error err a1)
      else mode_settings a1
    else
      if negb (err =? 0) then Some (mode_error err a1)
      else Some (mode_result y a1).

(** All 32 keys have a case; the [default] of the C switch is dead. *)
Definition mode_input_event (key : KEY) (a : App) : option App :=
  let ins_chr c := Some (set_fld_term a (field_ins_chr (fld_term a) c)) in
  let ins_str s n :=
    Some (set_fld_term a (field_ins_str_P (fld_term a) s n)) in
  match key with
  | KEY_0_0 => ins_chr 49
  | KEY_0_1 => ins_chr 52
  | KEY_0_2 => ins_chr 55
  | KEY_0_3 => ins_chr CHAR_LP
  | KEY_1_0 => ins_chr 50
  | KEY_1_1 => ins_chr 53
  | KEY_1_2 => ins_chr 56
  | KEY_1_3 => ins_chr 48
  | KEY_2_0 => ins_chr 51
  | KEY_2_1 => ins_chr 54
  | KEY_2_2 => ins_chr 57
  | KEY_2_3 => ins_chr CHAR_RP
  | KEY_3_0 => Some (set_x_cnt (set_fld_term a (field_clear (fld_term a))) 0)
  | KEY_3_1 =>
      do r <- field_term_delete (fld_term a) (x_cnt a);
      Some (set_x_cnt (set_fld_term a (fst r)) (snd r))
  | KEY_3_2 => ins_chr CHAR_DP
  | KEY_3_3 => mode_input_enter a
  | KEY_SHIFT_0_0 => ins_str _str_sin 3
  | KEY_SHIFT_0_1 =>
      do f <- field_term_mv_left (fld_term a); Some (set_fld_term a f)
  | KEY_SHIFT_0_2 =>
      Some (set_x_cnt (set_fld_term a (field_ins_chr (fld_term a) CHAR_X))
              ((x_cnt a + 1) mod 256))
  | KEY_SHIFT_0_3 => ins_str _str_asin 4
  | KEY_SHIFT_1_0 => ins_str _str_cos 3
  | KEY_SHIFT_1_1 => ins_chr CHAR_PI
  | KEY_SHIFT_1_2 => ins_chr CHAR_POW
  | KEY_SHIFT_1_3 => ins_str _str_acos 4
  | KEY_SHIFT_2_0 => ins_str _str_tan 3
  | KEY_SHIFT_2_1 =>
      do f <- field_term_mv_right (fld_term a); Some (set_fld_term a f)
  | KEY_SHIFT_2_2 => ins_str _str_log 3
  | KEY_SHIFT_2_3 => ins_str _str_atan 4
  | KEY_SHIFT_3_0 => ins_chr CHAR_ADD
  | KEY_SHIFT_3_1 => ins_chr CHAR_SUB
  | KEY_SHIFT_3_2 => ins_chr CHAR_MUL
  | KEY_SHIFT_3_3 => ins_chr CHAR_DIV
  end.

Definition mode_result_event (key : KEY) (a : App) : option App :=
  mode_input_event key (mode_input a).

Definition mode_table_event (key : KEY) (a : App) : App :=
  let k := UNSHIFT key in
  if k =? key_code KEY_0_0 then mode_input a
  else if k =? key_code KEY_0_1 then
    mode_table_update
      (set_tbl_pos a (fsub (tbl_pos a) (of_Z MODE_TABLE_STEP_BIG)))
  else if k =? key_code KEY_1_0 then
    mode_table_update (set_tbl_pos a (fsub (tbl_pos a) (of_Z 1)))
  else if k =? key_code KEY_1_1 then
    mode_table_update (set_tbl_pos a (of_Z 0))
  else if k =? key_code KEY_1_2 then
    mode_table_update (set_tbl_pos a (fadd (tbl_pos a) (of_Z 1)))
  else if k =? key_code KEY_2_1 then
    mode_table_update
      (set_tbl_pos a (fadd (tbl_pos a) (of_Z MODE_TABLE_STEP_BIG)))
  else a.

(** [case KEY_3_3] of [mode_settings_event]: enter. *)
Definition mode_settings_enter (a : App) : option App :=
  do s1 <- cstring (Z.to_nat FIELD_START_WIDTH) (buf (fld_start a)) 0;
  let a1 := set_tbl_start a (atof s1) in
  do s2 <- cstring (Z.to_nat FIELD_STEP_WIDTH) (buf (fld_step a)) 0;
  let a2 := set_tbl_step a1 (atof s2) in
  if feqb (tbl_step a2) (of_Z 0) then Some (mode_error ERROR_RANGE a2)
  else Some (mode_table a2).

Definition mode_settings_event (key : KEY) (a : App) : option App :=
  do f <- field_number_event (cur_fld a) key;
  let a := set_cur_fld a f in
  match key with
  | KEY_3_3 => mode_settings_enter a
  | KEY_SHIFT_0_0 => Some (mode_input a)
  | KEY_SHIFT_3_1 =>
      match tbl_cur_fld a with
      | ptr_fld_start => Some (set_cur_fld a (field_ins_chr (cur_fld a) 45))
      | ptr_fld_step => Some a
      end
  | KEY_SHIFT_1_0 => Some (set_tbl_cur_fld a ptr_fld_start)
  | KEY_SHIFT_1_2 => Some (set_tbl_cur_fld a ptr_fld_step)
  | _ => Some a
  end.

Definition mode_error_event (key : KEY) (a : App) : option App :=
  match _mode a with
  | on_mode_input => Some (mode_input a)
  | on_mode_settings => mode_settings a
  end.

(** The call [_event((uint8_t)key)] of the key scanning interrupt, as its
    effect on the state. *)
Definition dispatch (key : KEY) (a : App) : option App :=
  match _event a with
  | on_mode_input_event => mode_input_event key a
  | on_mode_result_event => mode_result_event key a
  | on_mode_table_event => Some (mode_table_event key a)
  | on_mode_settings_event => mode_settings_event key a
  | on_mode_error_event => mode_error_event key a
  end.

Fixpoint run (keys : list KEY) (a : App) : option App :=
  match keys with
  | [] => Some a
  | k :: keys' => do a' <- dispatch k a; run keys' a'
  end.

(** The key with a given code. *)
Definition keys_by_code : list KEY :=
  [KEY_3_3; KEY_2_3; KEY_1_3; KEY_0_3; KEY_3_2; KEY_2_2; KEY_1_2; KEY_0_2;
   KEY_3_1; KEY_2_1; KEY_1_1; KEY_0_1; KEY_3_0; KEY_2_0; KEY_1_0; KEY_0_0;
   KEY_SHIFT_3_3; KEY_SHIFT_2_3; KEY_SHIFT_1_3; KEY_SHIFT_0_3;
   KEY_SHIFT_3_2; KEY_SHIFT_2_2; KEY_SHIFT_1_2; KEY_SHIFT_0_2;
   KEY_SHIFT_3_1; KEY_SHIFT_2_1; KEY_SHIFT_1_1; KEY_SHIFT_0_1;
   KEY_SHIFT_3_0; KEY_SHIFT_2_0; KEY_SHIFT_1_0; KEY_SHIFT_0_0].

Definition KEY_of_code (c : Z) : option KEY :=
  if c <? 0 then None else nth_error keys_by_code (Z.to_nat c).

(** The interrupts of a sequence of pin readings, each with the call of
    the installed handler it makes.  A code above 31, which the routine
    never passes, has no key ([None]). *)
Fixpoint interrupts (pins : list (Z * Z)) (s : KeyScan.State) (a : App)
  : option (KeyScan.State * App) :=
  match pins with
  | [] => Some (s, a)
  | (pinc, pinb) :: pins' =>
      let '(s1, ev) := KeyScan.TIMER2_COMPA_vect pinc pinb s in
      match ev with
      | None => interrupts pins' s1 a
      | Some c =>
          do k <- KEY_of_code c;
          do a1 <- dispatch k a;
          interrupts pins' s1 a1
      end
  end.

(** ** Start-up ([main])

    A static array is zero at start-up; [around] gives the bytes next to
    it.  In the program these are bytes of neighbouring objects, placed by
    the linker; the model holds them fixed unless a Field operation
    itself writes them, and a property that depends on them says so. *)
Definition static_array (n : Z) (around : mem) : mem :=
  fun i => if (0 <=? i) && (i <? n) then 0 else around i.

Definition _fld_term_P (around : mem) : Field :=
  mkField 0 0 LCD_WIDTH (static_array TERM_MAX_LEN around) 0 0 TERM_MAX_LEN.
Definition _fld_start_P (around : mem) : Field :=
  mkField 0 MSG_START_LEN (LCD_WIDTH - MSG_START_LEN)
    (static_array FIELD_START_WIDTH around) 0 0 FIELD_START_WIDTH.
Definition _fld_step_P (around : mem) : Field :=
  mkField 1 MSG_STEP_LEN (LCD_WIDTH - MSG_STEP_LEN)
    (static_array FIELD_STEP_WIDTH around) 0 0 FIELD_STEP_WIDTH.

(** The state when [main] enables interrupts; [m_term], [m_start] and
    [m_step] are the bytes around the three buffers. *)
Definition main (m_term m_start m_step : mem) : App :=
  mode_input
    (mkApp (_fld_term_P m_term) 0 (_fld_start_P m_start) (_fld_step_P m_step)
       ptr_fld_start (of_Z 0) (of_Z 0) (of_Z 0)
       (mkTokens [] (fun _ => of_Z 0))
       on_mode_input_event on_mode_input []).

(** ** Invariants, views and inputs the properties are stated with *)

Definition field_inv (f : Field) : Prop :=
  0 <= pos f <= len f /\ len f < max f.

(** Memory with the letter a in the byte in front of a buffer and NUL
    everywhere else. *)
Definition letter_below : mem := fun i => if i =? -1 then 97 else 0.

(** A number field additionally keeps its content NUL-terminated. *)
Definition num_wf (f : Field) : Prop :=
  field_inv f /\ max f <= 16 /\ buf f (len f) = 0.

Definition namech (c : Z) : bool := islower c && negb (c =? CHAR_X).

(** The [n] bytes stored from offset [i] on. *)
Fixpoint bytes_at (n : nat) (b : mem) (i : Z) : list Z :=
  match n with
  | O => []
  | S k => b i :: bytes_at k b (i + 1)
  end.

(** The text of a Field: the bytes before its NUL. *)
Definition content (f : Field) : list Z :=
  bytes_at (Z.to_nat (len f)) (buf f) 0.

(** The data-model invariant, with the capacity an [int16_t] and the text
    ending at the NUL stored at [len]. *)
Definition text_wf (f : Field) : Prop :=
  field_inv f /\ max f < INT16_LIMIT /\ buf f (len f) = 0 /\
  forall i, 0 <= i < len f -> buf f i <> 0.

(** The function names the keys insert. *)
Definition fn_names : list (list Z) :=
  [_str_sin; _str_cos; _str_tan; _str_asin; _str_acos; _str_atan; _str_log].

(** A sequence of atomic units: single characters that are not name
    characters, and function names followed by their parenthesis. *)
Inductive units : list Z -> Prop :=
  | units_nil : units []
  | units_chr (c : Z) (l : list Z) :
      c <> 0 -> namech c = false -> units l -> units (c :: l)
  | units_name (name l : list Z) :
      In name fn_names -> units l -> units (name ++ CHAR_LP :: l).

(** No name character ends [l]. *)
Definition ends_ok (l : list Z) : Prop :=
  forall l' c, l = l' ++ [c] -> namech c = false.

Definition name_closed (b : mem) (l : Z) : Prop :=
  forall i, 0 <= i < l -> namech (b i) = true ->
    i + 1 < l /\ (namech (b (i + 1)) = true \/ b (i + 1) = CHAR_LP).

Record raw_wf (b : mem) (p l : Z) : Prop := mk_raw_wf {
  wf_pos : 0 <= p <= l;
  wf_nul : b l = 0;
  wf_nonzero : forall i, 0 <= i < l -> b i <> 0;
  wf_name : name_closed b l;
  wf_cursor : 0 < p -> namech (b (p - 1)) = false;
  wf_guard : islower (b (-1)) = false;
  wf_units : units (bytes_at (Z.to_nat l) b 0)
}.

Definition term_wf (f : Field) : Prop :=
  raw_wf (buf f) (pos f) (len f) /\ len f < max f /\ max f <= 256.

(** The number of free-variable characters in the content of a field. *)
Definition count_x (f : Field) : Z :=
  Z.of_nat
    (length (filter (fun i => buf f (Z.of_nat i) =? CHAR_X)
               (seq 0 (Z.to_nat (len f))))).

Definition app_wf (a : App) : Prop :=
  term_wf (fld_term a) /\ num_wf (fld_start a) /\ num_wf (fld_step a).

(** The input a step goes on with is again a sequence of units, and
    shorter. *)
Definition step_units (n : nat) (r : Step (list Z * Prep)) : Prop :=
  match r with
  | Return _ _ => True
  | Go (term', _) => units term' /\ (length term' <= n)%nat
  end.

(** [a'] has the fields of [a]. *)
Definition same_fields (a a' : App) : Prop :=
  fld_term a' = fld_term a /\ fld_start a' = fld_start a /\
  fld_step a' = fld_step a.

Definition within (t : Tokens) : Prop := tok_cnt t <= TOKEN_LIST_SIZE - 1.

(** What a step leaves in [tok_type_list] fits the capacity check. *)
Definition step_within {A : Type} (proj : A -> Prep) (r : Step A) : Prop :=
  match r with
  | Return _ t => within t
  | Go a => within (toks (proj a))
  end.

Definition prep_of (p : list Z * Prep) : Prep := snd p.

(** A step returns with Syntax or NoMemory only. *)
Definition step_codes {A : Type} (r : Step A) : Prop :=
  match r with
  | Return e _ => e = ERROR_SYNTAX \/ e = ERROR_NOMEM
  | Go _ => True
  end.

(** The characters of an expression written as a string. *)
Definition term_of_string (s : string) : list Z :=
  map (fun c => Z.of_nat (Ascii.nat_of_ascii c)) (list_ascii_of_string s).

(** Where the pop loop of an operator of rank [prec] stops. *)
Definition stops_at (prec : Z) (stack : list TOKEN_TYPE) : Prop :=
  match stack with
  | [] => True
  | t :: _ => get_precedence t > prec \/ t = TT_LP
  end.

Definition is_unary (t : TOKEN_TYPE) : bool :=
  match t with
  | TT_UNARY_MINUS | TT_LOG | TT_SIN | TT_COS | TT_TAN
  | TT_ASIN | TT_ACOS | TT_ATAN => true
  | _ => false
  end.

Definition is_binary (t : TOKEN_TYPE) : bool :=
  match t with
  | TT_ADD | TT_SUB | TT_MUL | TT_DIV | TT_POW => true
  | _ => false
  end.

(** 16 literals and 15 additions: 31 tokens. *)
Definition sum_of_16 : list Z :=
  term_of_string "1+1+1+1+1+1+1+1+1+1+1+1+1+1+1+1".

(** The same with a leading unary minus: 32 tokens. *)
Definition minus_sum_of_16 : list Z :=
  term_of_string "-1+1+1+1+1+1+1+1+1+1+1+1+1+1+1+1".

(** A literal inside 31 pairs of parentheses, and inside 32. *)
Definition nested_31 : list Z :=
  repeat CHAR_LP 31 ++ [49] ++ repeat CHAR_RP 31.
Definition nested_32 : list Z :=
  repeat CHAR_LP 32 ++ [49] ++ repeat CHAR_RP 32.

(** The five modes of the data model, read off the installed handler. *)
Inductive Mode := Entry | Result | Settings | Table | Error.

Definition mode_of (a : App) : Mode :=
  match _event a with
  | on_mode_input_event => Entry
  | on_mode_result_event => Result
  | on_mode_settings_event => Settings
  | on_mode_table_event => Table
  | on_mode_error_event => Error
  end.

(** The position a navigation key moves to. *)
Definition nav_position (key : KEY) (p : F) : option F :=
  match key with
  | KEY_0_1 | KEY_SHIFT_0_1 => Some (fsub p (of_Z 10))
  | KEY_1_0 | KEY_SHIFT_1_0 => Some (fsub p (of_Z 1))
  | KEY_1_1 | KEY_SHIFT_1_1 => Some (of_Z 0)
  | KEY_1_2 | KEY_SHIFT_1_2 => Some (fadd p (of_Z 1))
  | KEY_2_1 | KEY_SHIFT_2_1 => Some (fadd p (of_Z 10))
  | _ => None
  end.

(** The keys of the [KEY_0_0] case of [mode_table_event]. *)
Definition mode_table_leaves (key : KEY) : bool :=
  match key with
  | KEY_0_0 | KEY_SHIFT_0_0 => true
  | _ => false
  end.

(** What a table update draws for the abscissa [x]. *)
Definition table_rows (t : Tokens) (x : F) : list LcdOp :=
  [lcd_cursor 2 0; lcd_number x 14; lcd_cursor 2 1] ++
  (if fst (calc_solve t x (of_Z 0)) =? 0
   then [lcd_number (snd (calc_solve t x (of_Z 0))) 14]
   else repeat (lcd_data 32) (Z.to_nat (LCD_WIDTH - MSG_ERROR_LEN - 2))
        ++ [lcd_string_P _str_error]).

(** *** Expressions

    The expressions the properties of the compiler are stated with: what
    the term field can hold, as a tree.  [Par] is a pair of parentheses the
    user typed, [Fn] a function name with the parenthesis its key inserts.
    The tree is not part of the code. *)

Inductive expr :=
  | Lit (digits : list Z)
  | Pi
  | Var
  | Par (e : expr)
  | Fn (f : TOKEN_TYPE) (e : expr)
  | Neg (e : expr)
  | Bin (op : TOKEN_TYPE) (l r : expr).

Definition op_char (op : TOKEN_TYPE) : Z :=
  match op with
  | TT_ADD => CHAR_ADD
  | TT_SUB => CHAR_SUB
  | TT_MUL => CHAR_MUL
  | TT_DIV => CHAR_DIV
  | _ => CHAR_POW
  end.

Definition fn_name (f : TOKEN_TYPE) : list Z :=
  match f with
  | TT_SIN => _str_sin
  | TT_COS => _str_cos
  | TT_TAN => _str_tan
  | TT_ASIN => _str_asin
  | TT_ACOS => _str_acos
  | TT_ATAN => _str_atan
  | _ => _str_log
  end.

(** The characters of an expression, as the keys put them in the term
    buffer. *)
Fixpoint show_expr (e : expr) : list Z :=
  match e with
  | Lit d => d
  | Pi => [CHAR_PI]
  | Var => [CHAR_X]
  | Par e => CHAR_LP :: show_expr e ++ [CHAR_RP]
  | Fn f e => fn_name f ++ CHAR_LP :: show_expr e ++ [CHAR_RP]
  | Neg e => CHAR_SUB :: show_expr e
  | Bin op l r => show_expr l ++ op_char op :: show_expr r
  end.

(** The expression in reverse Polish notation, and its number tokens. *)
Fixpoint rpn (e : expr) : list TOKEN_TYPE :=
  match e with
  | Lit _ | Pi => [TT_NUMBER]
  | Var => [TT_X]
  | Par e => rpn e
  | Fn f e => rpn e ++ [f]
  | Neg e => rpn e ++ [TT_UNARY_MINUS]
  | Bin op l r => rpn l ++ rpn r ++ [op]
  end.

Fixpoint numbers (e : expr) : list F :=
  match e with
  | Lit d => [parse_float d]
  | Pi => [M_PI]
  | Var => []
  | Par e | Fn _ e | Neg e => numbers e
  | Bin _ l r => numbers l ++ numbers r
  end.

(** The value of an expression at [x], or the error code of the first
    operation that fails, operands first and the left one before the
    right one. *)
Definition unary_value (f : TOKEN_TYPE) (v : F) : Z + F :=
  match f with
  | TT_LOG => inr (flog v)
  | TT_SIN => inr (fsin (fdiv (fmul v M_PI) (of_Z 180)))
  | TT_COS => inr (fcos (fdiv (fmul v M_PI) (of_Z 180)))
  | TT_TAN => inr (ftan (fdiv (fmul v M_PI) (of_Z 180)))
  | TT_ASIN =>
      if fleb (of_Z (-1)) v && fleb v (of_Z 1)
      then inr (fmul (fasin v) (fdiv (of_Z 180) M_PI))
      else inl ERROR_MATH
  | TT_ACOS =>
      if fleb (of_Z (-1)) v && fleb v (of_Z 1)
      then inr (fmul (facos v) (fdiv (of_Z 180) M_PI))
      else inl ERROR_MATH
  | TT_ATAN => inr (fmul (fatan v) (fdiv (of_Z 180) M_PI))
  | _ => inr (fneg v)
  end.

Definition binary_value (op : TOKEN_TYPE) (a b : F) : Z + F :=
  match op with
  | TT_ADD => inr (fadd a b)
  | TT_SUB => inr (fsub a b)
  | TT_MUL => inr (fmul a b)
  | TT_DIV => if feqb b (of_Z 0) then inl ERROR_MATH else inr (fdiv a b)
  | _ => inr (fpow a b)
  end.

Fixpoint value (x : F) (e : expr) : Z + F :=
  match e with
  | Lit d => inr (parse_float d)
  | Pi => inr M_PI
  | Var => inr x
  | Par e => value x e
  | Fn f e =>
      match value x e with
      | inl err => inl err
      | inr v => unary_value f v
      end
  | Neg e =>
      match value x e with
      | inl err => inl err
      | inr v => unary_value TT_UNARY_MINUS v
      end
  | Bin op l r =>
      match value x l with
      | inl err => inl err
      | inr a =>
          match value x r with
          | inl err => inl err
          | inr b => binary_value op a b
          end
      end
  end.

(** A numeric literal: a digit, then digits with at most one decimal
    point among them. *)
Fixpoint literal_tail (l : list Z) (points : bool) : bool :=
  match l with
  | [] => true
  | c :: l' =>
      if c =? CHAR_DP then negb points && literal_tail l' true
      else isdigit c && literal_tail l' points
  end.

Definition literal (l : list Z) : bool :=
  match l with
  | c :: l' => isdigit c && literal_tail l' false
  | [] => false
  end.

Definition is_function (t : TOKEN_TYPE) : bool :=
  match t with
  | TT_LOG | TT_SIN | TT_COS | TT_TAN | TT_ASIN | TT_ACOS | TT_ATAN => true
  | _ => false
  end.

(** What a minus sign may stand in front of. *)
Definition negatable (e : expr) : bool :=
  match e with
  | Lit _ | Pi | Var | Par _ => true
  | _ => false
  end.

(** The expressions the compiler reads as their tree: an operator of
    rank [p] (3 for + and -, 2 for * and /, 1 for ^) has on its left an
    operand whose operators outside parentheses have rank at most [p] and
    on its right one whose have rank below [p], so every binary operator
    groups to the left; a minus sign stands in front of a literal, pi,
    the free variable or a parenthesis and negates that operand alone, so
    that -2^2 is the tree of (-2)^2.  [L] is the highest rank admitted
    outside parentheses. *)
Fixpoint grammar (L : Z) (e : expr) : bool :=
  match e with
  | Lit d => literal d
  | Pi | Var => true
  | Par e => grammar 3 e
  | Fn f e => is_function f && grammar 3 e
  | Neg a => negatable a && grammar 0 a
  | Bin op l r =>
      is_binary op && (get_precedence op <=? L) &&
      grammar (get_precedence op) l && grammar (get_precedence op - 1) r
  end.

(** The largest number of operator stack entries an expression needs. *)
Fixpoint depth (e : expr) : Z :=
  match e with
  | Lit _ | Pi | Var => 0
  | Par e => 1 + depth e
  | Fn _ e => 2 + depth e
  | Neg a => 1 + depth a
  | Bin _ l r => Z.max (depth l) (1 + depth r)
  end.

(** *** What the compiler has done after an expression *)

(** What may follow an operand: the end of the term, a closing
    parenthesis or a binary operator. *)
Definition delimited (rest : list Z) : Prop :=
  match rest with
  | [] => True
  | c :: _ =>
      c = CHAR_RP \/ c = CHAR_ADD \/ c = CHAR_SUB \/ c = CHAR_MUL \/
      c = CHAR_DIV \/ c = CHAR_POW
  end.

(** The compiler is ready for an expression of rank at most [L]: nothing
    on the operator stack would be popped by its operators, and a minus
    sign would be read as unary. *)
Definition ready (L : Z) (s : Prep) (e : expr) : Prop :=
  negatable e = true \/
  (stops_at L (op_stack s) /\ minus_type (cur_type s) = TT_UNARY_MINUS).

Definition operand_type (t : TOKEN_TYPE) : Prop :=
  t = TT_NUMBER \/ t = TT_X \/ t = TT_RP.

(** The locals after the characters of [e] have been read from [s]: the
    tokens of [e] are emitted or pending on the operator stack, in the
    order of its reverse Polish form. *)
Definition after_expr (L : Z) (e : expr) (s s' : Prep) : Prop :=
  exists part pend,
    tok_type_list (toks s') = tok_type_list (toks s) ++ part /\
    op_stack s' = pend ++ op_stack s /\
    part ++ pend = rpn e /\
    Forall (fun t => get_precedence t <= L /\ t <> TT_LP) pend /\
    operand_type (cur_type s') /\
    top_num s' = top_num s + Z.of_nat (length (numbers e)) /\
    forall j,
      tok_num_list (toks s') j =
        if (top_num s <=? j) &&
           (j <? top_num s + Z.of_nat (length (numbers e)))
        then nth (Z.to_nat (j - top_num s)) (numbers e) (of_Z 0)
        else tok_num_list (toks s) j.

(** *** The modes and the compiled term *)

(** The mode function recorded in [_mode] is the one of the screen shown,
    or of the screen an error was raised from. *)
Definition mode_consistent (a : App) : Prop :=
  match _event a with
  | on_mode_input_event | on_mode_result_event => _mode a = on_mode_input
  | on_mode_settings_event | on_mode_table_event => _mode a = on_mode_settings
  | on_mode_error_event => True
  end.

(** The screens behind a committed expression with the free variable:
    Settings, Table, and the error screen raised from Settings. *)
Definition plotting (a : App) : Prop :=
  match _event a with
  | on_mode_settings_event | on_mode_table_event => True
  | on_mode_error_event => _mode a = on_mode_settings
  | _ => False
  end.

(** The tokens are a successful compilation of the string in the term
    buffer, and the usage counter is not zero. *)
Definition compiled_term (a : App) : Prop :=
  x_cnt a <> 0 /\
  exists term old,
    cstring (Z.to_nat TERM_MAX_LEN) (buf (fld_term a)) 0 = Some term /\
    calc_prepare term old = Some (0, compiled a).

(** [a'] has the term field, the usage counter, the tokens and the
    recorded mode function of [a]. *)
Definition same_term (a a' : App) : Prop :=
  fld_term a' = fld_term a /\ x_cnt a' = x_cnt a /\
  compiled a' = compiled a /\ _mode a' = _mode a.

(** The screen [mode_error] draws for a message. *)
Definition error_screen (msg : String.string) : list LcdOp :=
  [lcd_clear; lcd_command false; lcd_string_P msg; lcd_cursor 0 1;
   lcd_string_P _str_press_any_key].

(** *** The number fields *)

(** The characters the keys of Settings mode insert: digits and the
    decimal point, and the minus sign where [minus] is set. *)
Definition number_char (minus : bool) (c : Z) : bool :=
  isdigit c || (c =? CHAR_DP) || (minus && (c =? 45)).

(** A number field of width [w]: a NUL-terminated text of number
    characters in a buffer of at most 16 bytes. *)
Definition number_field (minus : bool) (w : Z) (f : Field) : Prop :=
  text_wf f /\ max f <= 16 /\ width f = w /\
  forallb (number_char minus) (content f) = true.

(** The Fields have the widths [main] gave them, and only the start field
    may hold a minus sign. *)
Definition drawn (a : App) : Prop :=
  number_field true (LCD_WIDTH - MSG_START_LEN) (fld_start a) /\
  number_field false (LCD_WIDTH - MSG_STEP_LEN) (fld_step a) /\
  width (fld_term a) = LCD_WIDTH.

End Calculator.

Arguments Return {P A} err t.
Arguments Go {P A} a.

(** * An ideal platform: exact real arithmetic

    The real numbers of the Standard Library in place of the C floats, with
    their logarithm, trigonometric functions and power, and a 16-column
    display.  It serves to run the theorems on concrete inputs. *)

Module Ideal.

Definition Req_bool (a b : R) : bool :=
  if Req_dec_T a b then true else false.

Definition Rle_bool (a b : R) : bool :=
  if Rle_dec a b then true else false.

(** Decimal digits with at most one point: the digits read as an integer
    and the power of ten to divide it by. *)
Fixpoint atof_digits (l : list Z) (mant scale : Z) (point : bool) : Z * Z :=
  match l with
  | [] => (mant, scale)
  | c :: l' =>
      if isdigit c then
        atof_digits l' (mant * 10 + (c - 48))
          (if point then scale * 10 else scale) point
      else if (c =? CHAR_DP) && negb point then atof_digits l' mant scale true
      else (mant, scale)
  end.

(** [atof] on an optional minus sign and decimal digits; 0 when there is
    nothing to convert. *)
Definition atof_real (l : list Z) : R :=
  match l with
  | 45 :: l' =>
      let '(m, s) := atof_digits l' 0 1 false in Ropp (Rdiv (IZR m) (IZR s))
  | _ =>
      let '(m, s) := atof_digits l 0 1 false in Rdiv (IZR m) (IZR s)
  end.

Definition platform : Platform := {|
  F := R;
  of_Z := IZR;
  fadd := Rplus;
  fsub := Rminus;
  fmul := Rmult;
  fdiv := Rdiv;
  fneg := Ropp;
  feqb := Req_bool;
  fleb := Rle_bool;
  M_PI := PI;
  flog := ln;
  fsin := sin;
  fcos := cos;
  ftan := tan;
  fasin := asin;
  facos := acos;
  fatan := atan;
  fpow := Rpower;
  atof := atof_real;
  LCD_WIDTH := 16
|}.

(** All bytes around the buffers zero. *)
Definition zero_mem : mem := fun _ => 0.

Definition start : App (P := platform) := main zero_mem zero_mem zero_mem.

(** The state after a sequence of key presses. *)
Definition after (keys : list KEY) : App (P := platform) :=
  match run keys start with
  | Some a => a
  | None => start
  end.

Definition no_tokens : Tokens (P := platform) :=
  @mkTokens platform [] (fun _ => 0%R).

#[local] Existing Instance platform.

(** The operator stack and the token list a scan has reached. *)
Definition scan_view (r : option (Step (P := platform) Prep))
  : option (list TOKEN_TYPE * list TOKEN_TYPE) :=
  match r with
  | Some (Go s) => Some (op_stack s, tok_type_list (toks s))
  | _ => None
  end.

(** The error code and the token list of a compilation. *)
Definition prepare_view (r : option (Z * Tokens (P := platform)))
  : option (Z * list TOKEN_TYPE) :=
  option_map (fun p => (fst p, tok_type_list (snd p))) r.

(** The keys 2, x, (, sin, ), left. *)
Definition some_keys : list KEY :=
  [KEY_1_0; KEY_SHIFT_0_2; KEY_0_3; KEY_SHIFT_0_0; KEY_2_3; KEY_SHIFT_0_1].

(** The state after typing 2+3. *)
Definition typed_sum : App := after [KEY_1_0; KEY_SHIFT_3_0; KEY_2_0].

(** 1/x compiled, start 0, step 1, position 0, in Table mode. *)
Definition table_of_inverse : App :=
  let a := after [KEY_0_0; KEY_SHIFT_3_3; KEY_SHIFT_0_2] in
  let t :=
    match calc_prepare [49; CHAR_DIV; CHAR_X] (compiled a) with
    | Some (_, t) => t
    | None => compiled a
    end in
  set_event (set_tbl_step (set_compiled a t) 1%R) on_mode_table_event.

(** Settings reached with the expression x; start field -5, step field 1. *)
Definition typed_settings : App :=
  after [KEY_SHIFT_0_2; KEY_3_3; KEY_SHIFT_3_1; KEY_1_1; KEY_SHIFT_1_2;
         KEY_0_0].

(** The term field after typing 2+3: the cursor is behind the 3. *)
Definition sum_field : Field := fld_term typed_sum.

(** A term of 128 digits with the cursor at its start, in memory that
    holds no NUL below the buffer. *)
Definition long_field : Field :=
  mkField 0 0 16 (fun i => if i <? 128 then 49 else 0) 0 128 256.

(** A pass that finds the key 2 (code 14) down, without shift. *)
Definition key_2_pass : KeyScan.Pass := ((4, 16), (0, 16), (0, 16), (0, 16)).

(** The expression -2^2, as the compiler reads it: (-2)^2. *)
Definition neg_power : expr := Bin TT_POW (Neg (Lit [50])) (Lit [50]).

(** The expression 2+3*x. *)
Definition sum_expr : expr := Bin TT_ADD (Lit [50]) (Bin TT_MUL (Lit [51]) Var).

End Ideal.

(** * Properties *)

(** ** Memory and the copy loops *)

Ltac zbool :=
  repeat match goal with
  | H : context [?a <? ?b] |- _ => destruct (Z.ltb_spec a b)
  | H : context [?a <=? ?b] |- _ => destruct (Z.leb_spec a b)
  | H : context [?a =? ?b] |- _ => destruct (Z.eqb_spec a b)
  | |- context [?a <? ?b] => destruct (Z.ltb_spec a b)
  | |- context [?a <=? ?b] => destruct (Z.leb_spec a b)
  | |- context [?a =? ?b] => destruct (Z.eqb_spec a b)
  end.

Lemma upd_same (m : mem) (i v : Z) : upd m i v i = v.
Proof. unfold upd. now rewrite Z.eqb_refl. Qed.

Lemma upd_other (m : mem) (i v j : Z) : j <> i -> upd m i v j = m j.
Proof. unfold upd. intros H. destruct (Z.eqb_spec j i); congruence. Qed.

(** [grow_loop] moves the [k] bytes ending at [i] up by [n]. *)
Lemma grow_loop_spec (k : nat) :
  forall (b : mem) (i n j : Z),
    0 < n ->
    grow_loop k b i n j =
      if (i - Z.of_nat k + n <? j) && (j <=? i + n) then b (j - n) else b j.
Proof.
  induction k as [|k IH]; intros b i n j Hn.
  - simpl grow_loop. zbool; simpl; trivial; lia.
  - cbn [grow_loop]. rewrite IH by exact Hn. unfold upd.
    rewrite Nat2Z.inj_succ. zbool; simpl; trivial; try lia; f_equal; lia.
Qed.

(** [shrink_loop] moves the bytes from [i] up to the first NUL, at [e], down
    by [n]. *)
Lemma shrink_loop_spec (fuel : nat) :
  forall (b : mem) (i n e : Z),
    0 < n -> i <= e ->
    (forall k, i <= k < e -> b k <> 0) ->
    b e = 0 ->
    e - i < Z.of_nat fuel ->
    exists b',
      shrink_loop fuel b i n = Some b' /\
      forall j,
        b' j = if (i - n <=? j) && (j <? e - n) then b (j + n) else b j.
Proof.
  induction fuel as [|fuel IH]; intros b i n e Hn Hie Hnz He Hfuel.
  - simpl in Hfuel. lia.
  - cbn [shrink_loop]. destruct (Z.eqb_spec (b i) 0) as [Hz|Hz].
    + assert (e = i) as ->.
      { destruct (Z.eq_dec e i); trivial. exfalso. apply (Hnz i); [lia|exact Hz]. }
      exists b. split; trivial. intros j. zbool; simpl; trivial; lia.
    + assert (i < e) by (destruct (Z.eq_dec e i); [congruence|lia]).
      destruct (IH (upd b (i - n) (b i)) (i + 1) n e) as (b' & Hb' & Hj);
        try lia.
      * intros k Hk. rewrite upd_other by lia. apply Hnz. lia.
      * rewrite upd_other by lia. exact He.
      * exists b'. split; trivial. intros j. rewrite Hj. unfold upd.
        zbool; simpl; trivial; try lia.
        replace (j + n) with i by lia. trivial.
Qed.

(** ** The Field invariant of the data model *)

Lemma field_grow_pos_len (f : Field) (n : Z) :
  pos (field_grow f n) = pos f /\ len (field_grow f n) = len f + n /\
  max (field_grow f n) = max f /\ buf (field_grow f n) (len f + n) = 0.
Proof. unfold field_grow. cbn. rewrite upd_same. auto. Qed.

Lemma field_ins_chr_inv (f : Field) (c : Z) :
  field_inv f -> field_inv (field_ins_chr f c).
Proof.
  unfold field_inv, field_ins_chr. intros H.
  destruct (Z.ltb_spec (len f + 1) (max f)); cbn; lia.
Qed.

Lemma ins_loop_fields (n : nat) :
  forall f s,
    pos (ins_loop n f s) = pos f + Z.of_nat n /\
    len (ins_loop n f s) = len f /\ max (ins_loop n f s) = max f.
Proof.
  induction n as [|n IH]; intros f s.
  - cbn. lia.
  - cbn [ins_loop]. destruct (IH (set_pos (set_buf f (upd (buf f) (pos f) (hd 0 s)))
                                    (pos f + 1)) (tl s)) as (Hp & Hl & Hm).
    rewrite Hp, Hl, Hm. cbn. lia.
Qed.

Lemma field_ins_str_P_inv (f : Field) (s : list Z) (n : Z) :
  0 <= n -> field_inv f -> field_inv (field_ins_str_P f s n).
Proof.
  unfold field_inv, field_ins_str_P. intros Hn H.
  destruct (Z.ltb_spec (len f + n + 1) (max f)); [|exact H].
  cbn. destruct (ins_loop_fields (Z.to_nat n) (field_grow f (n + 1)) s)
    as (Hp & Hl & Hm).
  rewrite Hp, Hl, Hm. cbn. lia.
Qed.

Lemma field_clear_inv (f : Field) : field_inv f -> field_inv (field_clear f).
Proof. unfold field_inv, field_clear. cbn. lia. Qed.

Lemma field_mv_left_inv (f : Field) :
  field_inv f -> field_inv (field_mv_left f).
Proof.
  unfold field_inv, field_mv_left. intros H.
  destruct (Z.ltb_spec 0 (pos f)); cbn; lia.
Qed.

Lemma field_mv_right_inv (f : Field) :
  field_inv f -> field_inv (field_mv_right f).
Proof.
  unfold field_inv, field_mv_right. intros H.
  destruct (Z.ltb_spec (pos f) (len f)); cbn; lia.
Qed.

(** ** Well-formed term fields

    A name character is a lower-case letter other than the free variable.
    In the term field every name character is followed by another one or
    by an opening parenthesis, and the cursor never stands right after
    one. *)

Lemma term_wf_inv (f : Field) : term_wf f -> field_inv f.
Proof. intros ([] & ? & ?). unfold field_inv. lia. Qed.

Lemma namech_lower (c : Z) : namech c = true -> islower c = true.
Proof. unfold namech. intros H. now apply andb_true_iff in H. Qed.

Lemma not_lower_not_name (c : Z) : islower c = false -> namech c = false.
Proof. unfold namech. now intros ->. Qed.

(** *** Contents as lists of units *)

Lemma bytes_at_app (n m : nat) :
  forall (b : mem) (i : Z),
    bytes_at (n + m) b i = bytes_at n b i ++ bytes_at m b (i + Z.of_nat n).
Proof.
  induction n as [|n IH]; intros b i.
  - cbn. now rewrite Z.add_0_r.
  - cbn [bytes_at Nat.add app]. rewrite IH. do 3 f_equal. lia.
Qed.

Lemma bytes_at_ext (n : nat) :
  forall (b b' : mem) (i i' : Z),
    (forall k, 0 <= k < Z.of_nat n -> b (i + k) = b' (i' + k)) ->
    bytes_at n b i = bytes_at n b' i'.
Proof.
  induction n as [|n IH]; intros b b' i i' H; trivial.
  cbn [bytes_at]. f_equal.
  - specialize (H 0). rewrite !Z.add_0_r in H. apply H. lia.
  - apply IH. intros k Hk. specialize (H (k + 1)).
    replace (i + 1 + k) with (i + (k + 1)) by lia.
    replace (i' + 1 + k) with (i' + (k + 1)) by lia. apply H. lia.
Qed.

Lemma bytes_at_snoc (n : nat) (b : mem) (i : Z) :
  bytes_at (S n) b i = bytes_at n b i ++ [b (i + Z.of_nat n)].
Proof. replace (S n) with (n + 1)%nat by lia. apply bytes_at_app. Qed.

Lemma units_app (l1 l2 : list Z) : units l1 -> units l2 -> units (l1 ++ l2).
Proof.
  intros H1 H2. induction H1 as [|c l Hc Hn H IH|name l Hin H IH]; trivial.
  - cbn. now constructor.
  - rewrite <- app_assoc. cbn. now constructor.
Qed.

Lemma ends_ok_tail (c : Z) (l : list Z) : ends_ok (c :: l) -> ends_ok l.
Proof. intros H l' d ->. apply (H (c :: l') d). reflexivity. Qed.

Lemma ends_ok_app (l1 l2 : list Z) : ends_ok (l1 ++ l2) -> ends_ok l2.
Proof. intros H l' d ->. apply (H (l1 ++ l') d). now rewrite app_assoc. Qed.

(** A prefix of a function name and its parenthesis that does not end in
    a name character is empty or the whole. *)
Lemma name_prefix (name l1 l' : list Z) :
  In name fn_names -> name ++ [CHAR_LP] = l1 ++ l' -> ends_ok l1 ->
  l1 = [] \/ l' = [].
Proof.
  intros Hin Heq Hends.
  assert (forall a, ends_ok [a] -> namech a = false) as E1
      by (intros a H; apply (H [] a); reflexivity).
  assert (forall a b, ends_ok [a; b] -> namech b = false) as E2
      by (intros a b H; apply (H [a] b); reflexivity).
  assert (forall a b c, ends_ok [a; b; c] -> namech c = false) as E3
      by (intros a b c H; apply (H [a; b] c); reflexivity).
  assert (forall a b c d, ends_ok [a; b; c; d] -> namech d = false) as E4
      by (intros a b c d H; apply (H [a; b; c] d); reflexivity).
  unfold fn_names in Hin. cbn [In] in Hin.
  repeat (destruct Hin as [<-|Hin]); try contradiction;
    (destruct l1 as [|a [|b [|c [|d [|e l1]]]]]; [now left|..];
     cbn in Heq; injection Heq; intros; subst;
     first [ now right
           | apply E1 in Hends; discriminate
           | apply E2 in Hends; discriminate
           | apply E3 in Hends; discriminate
           | apply E4 in Hends; discriminate
           | match goal with H : [] = _ :: _ |- _ => discriminate H end
           | match goal with H : [] = _ ++ _ |- _ =>
               symmetry in H; apply app_eq_nil in H as (_ & ->); now right
             end ]).
Qed.

(** A sequence of units splits after any character that is not a name
    character. *)
Lemma units_split (l : list Z) :
  units l ->
  forall l1 l2, l = l1 ++ l2 -> ends_ok l1 -> units l1 /\ units l2.
Proof.
  induction 1 as [|c l Hc Hn H IH|name l Hin H IH]; intros l1 l2 Heq Hends.
  - symmetry in Heq. apply app_eq_nil in Heq as (-> & ->).
    split; constructor.
  - destruct l1 as [|c' l1].
    + cbn in Heq. subst l2. split; constructor; trivial.
    + cbn in Heq. injection Heq as <- ->.
      destruct (IH l1 l2 eq_refl (@ends_ok_tail c l1 Hends)) as (H1 & H2).
      split; trivial. now constructor.
  - change (name ++ CHAR_LP :: l) with (name ++ [CHAR_LP] ++ l) in Heq.
    rewrite app_assoc in Heq. symmetry in Heq.
    apply app_eq_app in Heq as (l' & [(-> & ->)|(Hn & ->)]).
    + destruct (IH l' l2 eq_refl (@ends_ok_app _ l' Hends)) as (H1 & H2).
      split; trivial. rewrite <- app_assoc. cbn. now constructor.
    + destruct (@name_prefix name l1 l' Hin Hn Hends) as [->| ->].
      * cbn in Hn. subst l'. split; [constructor|].
        rewrite <- app_assoc. cbn. now constructor.
      * rewrite app_nil_r in Hn. subst l1. cbn. split; trivial.
        constructor; trivial. constructor.
Qed.

Lemma bytes_at_ends (n : nat) (b : mem) (i : Z) :
  (0 < Z.of_nat n -> namech (b (i + Z.of_nat n - 1)) = false) ->
  ends_ok (bytes_at n b i).
Proof.
  intros H l' c Heq. destruct n as [|n]; [now destruct l'|].
  rewrite bytes_at_snoc in Heq. apply app_inj_tail in Heq as (_ & <-).
  replace (i + Z.of_nat n) with (i + Z.of_nat (S n) - 1) by lia.
  apply H. lia.
Qed.

(** The content splits at any position that does not follow a name
    character. *)
Lemma content_split (b : mem) (p l : Z) :
  0 <= p <= l ->
  units (bytes_at (Z.to_nat l) b 0) ->
  (0 < p -> namech (b (p - 1)) = false) ->
  units (bytes_at (Z.to_nat p) b 0) /\
  units (bytes_at (Z.to_nat (l - p)) b p).
Proof.
  intros Hp Hu Hc.
  replace (Z.to_nat l) with (Z.to_nat p + Z.to_nat (l - p))%nat in Hu by lia.
  rewrite bytes_at_app, Z2Nat.id in Hu by lia.
  apply (@units_split _ Hu _ _ eq_refl). apply bytes_at_ends.
  rewrite Z2Nat.id by lia. intros H. replace (0 + p - 1) with (p - 1) by lia.
  now apply Hc.
Qed.

(** The character two places before the cursor is not a name character
    unless an opening parenthesis follows it. *)
Lemma before_cursor (b : mem) (p l : Z) :
  raw_wf b p l -> 1 < p -> b (p - 1) <> CHAR_LP ->
  namech (b (p - 2)) = false.
Proof.
  intros W Hp Hlp. destruct (namech (b (p - 2))) eqn:E; trivial.
  destruct (wf_name W (i := p - 2)) as (_ & H); [destruct W; lia|exact E|].
  replace (p - 2 + 1) with (p - 1) in H by lia.
  destruct H as [H|H]; [|contradiction].
  rewrite (wf_cursor W) in H by lia. discriminate.
Qed.

Lemma raw_wf_move (b : mem) (p l p' : Z) :
  raw_wf b p l -> 0 <= p' <= l ->
  (0 < p' -> namech (b (p' - 1)) = false) ->
  raw_wf b p' l.
Proof. intros [] ? ?. constructor; auto. Qed.

(** Inserting a block of [k] characters at the cursor.  [blk] is closed
    when each of its name characters is followed, inside it, by another
    one or by an opening parenthesis. *)
Lemma raw_wf_insert (b b' : mem) (p l k : Z) (blk : Z -> Z) :
  raw_wf b p l -> 0 < k ->
  (forall t, 0 <= t < k -> blk t <> 0) ->
  (forall t, 0 <= t < k -> namech (blk t) = true ->
     t + 1 < k /\ (namech (blk (t + 1)) = true \/ blk (t + 1) = CHAR_LP)) ->
  units (bytes_at (Z.to_nat k) blk 0) ->
  (forall j, j < p -> b' j = b j) ->
  (forall j, p <= j < p + k -> b' j = blk (j - p)) ->
  (forall j, p + k <= j <= l + k -> b' j = b (j - k)) ->
  raw_wf b' (p + k) (l + k).
Proof.
  intros W Hk Hnz Hcl Hblk Hlo Hmid Hhi.
  pose proof (wf_pos W) as Hpl.
  constructor.
  - lia.
  - rewrite Hhi by lia. replace (l + k - k) with l by lia. apply (wf_nul W).
  - intros i Hi. destruct (Z_lt_dec i p); [|destruct (Z_lt_dec i (p + k))].
    + rewrite Hlo by lia. apply (wf_nonzero W). lia.
    + rewrite Hmid by lia. apply Hnz. lia.
    + rewrite Hhi by lia. apply (wf_nonzero W). lia.
  - intros i Hi Hn.
    destruct (Z_lt_dec i (p - 1)); [|destruct (Z.eq_dec i (p - 1));
      [|destruct (Z_lt_dec i (p + k))]].
    + rewrite Hlo in Hn by lia. rewrite Hlo by lia.
      destruct (wf_name W (i := i)); [lia|exact Hn|]. split; [lia|trivial].
    + subst i. rewrite Hlo in Hn by lia.
      rewrite (wf_cursor W) in Hn by lia. discriminate.
    + rewrite Hmid in Hn by lia.
      destruct (Hcl (i - p)) as (Ht & Hnext); [lia|exact Hn|].
      split; [lia|]. rewrite Hmid by lia.
      replace (i + 1 - p) with (i - p + 1) by lia. exact Hnext.
    + rewrite Hhi in Hn by lia.
      destruct (wf_name W (i := i - k)) as (Ht & Hnext); [lia|exact Hn|].
      split; [lia|]. rewrite Hhi by lia.
      replace (i + 1 - k) with (i - k + 1) by lia. exact Hnext.
  - intros _. rewrite Hmid by lia.
    destruct (namech (blk (p + k - 1 - p))) eqn:E; trivial.
    destruct (Hcl (p + k - 1 - p)); [lia|exact E|lia].
  - rewrite Hlo by lia. apply (wf_guard W).
  - destruct (@content_split b p l Hpl (wf_units W) (wf_cursor W))
      as (Hpre & Hsuf).
    replace (Z.to_nat (l + k))
      with (Z.to_nat p + (Z.to_nat k + Z.to_nat (l - p)))%nat by lia.
    rewrite !bytes_at_app, !Z2Nat.id by lia.
    rewrite (@bytes_at_ext _ b' b 0 0), (@bytes_at_ext _ b' blk (0 + p) 0),
      (@bytes_at_ext _ b' b (0 + p + k) p).
    + now repeat apply units_app.
    + intros t Ht. rewrite Hhi by lia. f_equal. lia.
    + intros t Ht. rewrite Hmid by lia. f_equal. lia.
    + intros t Ht. apply Hlo. lia.
Qed.

(** Deleting the [n] characters before the cursor, when the character
    before them is not a name character. *)
Lemma raw_wf_delete (b b' : mem) (p l n : Z) :
  raw_wf b p l -> 0 < n <= p ->
  (0 < p - n -> namech (b (p - n - 1)) = false) ->
  (forall j, j < p - n -> b' j = b j) ->
  (forall j, p - n <= j <= l - n -> b' j = b (j + n)) ->
  raw_wf b' (p - n) (l - n).
Proof.
  intros W Hn Hbefore Hlo Hhi.
  pose proof (wf_pos W) as Hpl.
  constructor.
  - lia.
  - rewrite Hhi by lia. replace (l - n + n) with l by lia. apply (wf_nul W).
  - intros i Hi. destruct (Z_lt_dec i (p - n)).
    + rewrite Hlo by lia. apply (wf_nonzero W). lia.
    + rewrite Hhi by lia. apply (wf_nonzero W). lia.
  - intros i Hi Hnm.
    destruct (Z_lt_dec i (p - n - 1)); [|destruct (Z.eq_dec i (p - n - 1))].
    + rewrite Hlo in Hnm by lia. rewrite Hlo by lia.
      destruct (wf_name W (i := i)); [lia|exact Hnm|]. split; [lia|trivial].
    + subst i. rewrite Hlo in Hnm by lia.
      rewrite Hbefore in Hnm by lia. discriminate.
    + rewrite Hhi in Hnm by lia.
      destruct (wf_name W (i := i + n)) as (Ht & Hnext); [lia|exact Hnm|].
      split; [lia|]. rewrite Hhi by lia.
      replace (i + 1 + n) with (i + n + 1) by lia. exact Hnext.
  - intros Hp. rewrite Hlo by lia. apply Hbefore. lia.
  - rewrite Hlo by lia. apply (wf_guard W).
  - assert (0 <= p - n <= l) as Hpn by lia.
    assert (0 < p - n -> namech (b (p - n - 1)) = false) as Hb by auto.
    destruct (@content_split b (p - n) l Hpn (wf_units W) Hb) as (Hpre & _).
    destruct (@content_split b p l Hpl (wf_units W) (wf_cursor W))
      as (_ & Hsuf).
    replace (Z.to_nat (l - n))
      with (Z.to_nat (p - n) + Z.to_nat (l - p))%nat by lia.
    rewrite bytes_at_app, Z2Nat.id by lia.
    rewrite (@bytes_at_ext _ b' b 0 0), (@bytes_at_ext _ b' b (0 + (p - n)) p).
    + now apply units_app.
    + intros t Ht. rewrite Hhi by lia. f_equal. lia.
    + intros t Ht. apply Hlo. lia.
Qed.

(** ** The scanning loops *)

Lemma scan_down_spec (fuel : nat) :
  forall (b : mem) (p q : Z),
    q <= p ->
    (forall i, q < i <= p -> islower (b i) = true) ->
    islower (b q) = false ->
    p - q < Z.of_nat fuel ->
    scan_down fuel b p = Some q.
Proof.
  induction fuel as [|fuel IH]; intros b p q Hqp Hrun Hq Hfuel.
  - simpl in Hfuel. lia.
  - cbn [scan_down]. destruct (Z.eq_dec p q) as [->|Hne].
    + now rewrite Hq.
    + rewrite Hrun by lia. apply IH; trivial; try lia.
      intros i Hi. apply Hrun. lia.
Qed.

Lemma scan_up_spec (fuel : nat) :
  forall (b : mem) (p q : Z),
    p <= q ->
    (forall i, p <= i < q -> islower (b i) = true) ->
    islower (b q) = false ->
    q - p < Z.of_nat fuel ->
    scan_up fuel b p = Some q.
Proof.
  induction fuel as [|fuel IH]; intros b p q Hpq Hrun Hq Hfuel.
  - simpl in Hfuel. lia.
  - cbn [scan_up]. destruct (Z.eq_dec p q) as [->|Hne].
    + now rewrite Hq.
    + rewrite Hrun by lia. apply IH; trivial; try lia.
      intros i Hi. apply Hrun. lia.
Qed.

(** The 8-bit counter of [field_term_delete]: from [n] it reaches the end
    [p - q] of the lower-case run, wrapping to 0 when that is 256. *)
Lemma del_scan_spec (fuel : nat) :
  forall (b : mem) (p q n : Z),
    2 <= n <= p - q -> p - q <= 256 ->
    (forall i, q < i <= p - n -> islower (b i) = true) ->
    islower (b q) = false ->
    (p - q = 256 -> islower (b p) = false) ->
    p - q - n + 1 < Z.of_nat fuel ->
    exists m, del_scan fuel b p n = Some m /\ (m - 1) mod 256 = p - q - 1.
Proof.
  induction fuel as [|fuel IH]; intros b p q n Hn Hmax Hrun Hq Hwrap Hfuel.
  - simpl in Hfuel. lia.
  - cbn [del_scan]. destruct (Z.eq_dec n (p - q)) as [->|Hne].
    + replace (p - (p - q)) with q by lia. rewrite Hq.
      exists (p - q). split; trivial. apply Z.mod_small. lia.
    + rewrite Hrun by lia.
      destruct (Z.eq_dec n 255) as [->|Hn255].
      * assert (p - q = 256) as H256 by lia.
        change ((255 + 1) mod 256) with 0.
        destruct fuel as [|fuel]; [simpl in Hfuel; lia|].
        cbn [del_scan]. rewrite Z.sub_0_r, (Hwrap H256).
        exists 0. split; trivial. rewrite H256. reflexivity.
      * rewrite Z.mod_small by lia. apply IH; trivial; try lia.
        intros i Hi. apply Hrun. lia.
Qed.

(** Below any position there is a first byte that is not a lower-case
    letter, at the latest the one before the buffer. *)
Lemma lower_run_down (b : mem) :
  islower (b (-1)) = false ->
  forall (k : nat) (p : Z), p = Z.of_nat k - 1 ->
    exists q, -1 <= q <= p /\ islower (b q) = false /\
              forall i, q < i <= p -> islower (b i) = true.
Proof.
  intros Hg. induction k as [|k IH]; intros p Hp.
  - exists (-1). subst p. repeat split; trivial; intros; lia.
  - destruct (islower (b p)) eqn:E.
    + destruct (IH (p - 1)) as (q & Hq & Hnl & Hrun); [lia|].
      exists q. repeat split; trivial; try lia.
      intros i Hi. destruct (Z.eq_dec i p) as [->|]; trivial. apply Hrun. lia.
    + exists p. repeat split; trivial; intros; lia.
Qed.

(** From a name character the letters run up to an opening parenthesis
    inside the content. *)
Lemma name_run_up (b : mem) (l : Z) :
  name_closed b l ->
  forall (k : nat) (i : Z), l - i = Z.of_nat k -> 0 <= i < l ->
    namech (b i) = true ->
    exists j, i < j < l /\ b j = CHAR_LP /\
              forall t, i <= t < j -> islower (b t) = true.
Proof.
  intros Hc. induction k as [|k IH]; intros i Hk Hi Hn.
  - lia.
  - destruct (Hc i) as (Hlt & [Hnext|Hnext]); [lia|exact Hn| |].
    + destruct (IH (i + 1)) as (j & Hj & Hlp & Hrun); [lia|lia|exact Hnext|].
      exists j. repeat split; trivial; try lia.
      intros t Ht. destruct (Z.eq_dec t i) as [->|].
      * now apply namech_lower.
      * apply Hrun. lia.
    + exists (i + 1). repeat split; trivial; try lia.
      intros t Ht. replace t with i by lia. now apply namech_lower.
Qed.

(** ** The buffers the operations leave *)

Lemma field_grow_buf (f : Field) (n : Z) :
  0 < n -> 0 <= pos f <= len f -> buf f (len f) = 0 ->
  (forall i, 0 <= i < len f -> buf f i <> 0) ->
  forall j,
    buf (field_grow f n) j =
      if (pos f + n <=? j) && (j <=? len f + n) then buf f (j - n)
      else buf f j.
Proof.
  intros Hn Hp Hnul Hnz j. unfold field_grow. cbn. unfold upd at 1.
  destruct (Z.eqb_spec j (len f + n)) as [->|Hj].
  - replace (len f + n - n) with (len f) by lia. rewrite Hnul.
    zbool; simpl; trivial; lia.
  - destruct (Z.eqb_spec (buf f (pos f)) 0) as [Hz|Hz].
    + assert (pos f = len f) as Hpl.
      { destruct (Z.eq_dec (pos f) (len f)); trivial.
        exfalso. apply (Hnz (pos f)); [lia|exact Hz]. }
      zbool; simpl; trivial; lia.
    + rewrite grow_loop_spec by exact Hn. rewrite Z2Nat.id by lia.
      zbool; simpl; trivial; lia.
Qed.

Lemma ins_loop_buf (n : nat) :
  forall (f : Field) (s : list Z) (j : Z),
    buf (ins_loop n f s) j =
      if (pos f <=? j) && (j <? pos f + Z.of_nat n)
      then nth (Z.to_nat (j - pos f)) s 0
      else buf f j.
Proof.
  induction n as [|n IH]; intros f s j.
  - cbn. zbool; simpl; trivial; lia.
  - cbn [ins_loop]. rewrite IH. cbn [pos buf set_pos set_buf].
    rewrite Nat2Z.inj_succ. unfold upd.
    zbool; simpl; trivial; try lia.
    + replace (Z.to_nat (j - pos f)) with (S (Z.to_nat (j - (pos f + 1))))
        by lia.
      destruct s; trivial. simpl. now destruct (Z.to_nat (j - (pos f + 1))).
    + subst j. rewrite Z.sub_diag. now destruct s.
Qed.

(** [shrink_loop] exits as soon as a NUL lies ahead. *)
Lemma shrink_loop_some (fuel : nat) :
  forall (b : mem) (i n e : Z),
    0 < n -> i <= e -> b e = 0 -> e - i < Z.of_nat fuel ->
    exists b', shrink_loop fuel b i n = Some b'.
Proof.
  induction fuel as [|fuel IH]; intros b i n e Hn Hie He Hfuel.
  - simpl in Hfuel. lia.
  - cbn [shrink_loop]. destruct (Z.eqb_spec (b i) 0) as [Hz|Hz].
    + now exists b.
    + assert (i <> e) by congruence.
      apply (IH _ _ _ e); trivial; try lia.
      rewrite upd_other by lia. exact He.
Qed.

Lemma field_shrink_spec (f : Field) (n : Z) :
  raw_wf (buf f) (pos f) (len f) -> len f < INT16_LIMIT -> 0 < n ->
  exists f1,
    field_shrink f n = Some f1 /\
    pos f1 = pos f /\ len f1 = len f /\ max f1 = max f /\
    forall j,
      buf f1 j =
        if (pos f - n <=? j) && (j <? len f - n) then buf f (j + n)
        else buf f j.
Proof.
  intros W Hl Hn. pose proof (wf_pos W) as Hp. unfold field_shrink.
  destruct (Z.eqb_spec (buf f (pos f)) 0) as [Hz|Hz].
  - assert (pos f = len f) as Hpl.
    { destruct (Z.eq_dec (pos f) (len f)); trivial.
      exfalso. apply (wf_nonzero W (i := pos f)); [lia|exact Hz]. }
    exists f. repeat split; trivial. intros j. zbool; simpl; trivial; lia.
  - destruct (shrink_loop_spec (Z.to_nat (INT16_LIMIT - pos f)) (buf f)
                (i := pos f) (n := n) (e := len f)) as (b' & Hb' & Hj);
      trivial; try lia.
    + intros k Hk. apply (wf_nonzero W). lia.
    + apply (wf_nul W).
    + rewrite Hb'. cbn. eexists. split; [reflexivity|]. cbn. auto.
Qed.

(** ** The term field operations keep the field well-formed *)

Lemma term_wf_intro (f : Field) :
  raw_wf (buf f) (pos f) (len f) -> len f < max f -> max f <= 256 ->
  term_wf f.
Proof. unfold term_wf. auto. Qed.

Lemma term_wf_ins_chr (f : Field) (c : Z) :
  term_wf f -> c <> 0 -> namech c = false -> term_wf (field_ins_chr f c).
Proof.
  intros (W & Hlen & Hmax) Hc Hn. unfold field_ins_chr.
  destruct (Z.ltb_spec (len f + 1) (max f)); [|unfold term_wf; auto].
  pose proof (wf_pos W) as Hp.
  pose proof (field_grow_buf f (n := 1) ltac:(lia) Hp (wf_nul W)
                (fun i H => wf_nonzero W H)) as Hg.
  destruct (field_grow_pos_len f 1) as (Hgp & Hgl & Hgm & _).
  apply term_wf_intro; cbn [pos len max buf set_pos set_buf];
    rewrite ?Hgp, ?Hgl, ?Hgm; try lia.
  apply (raw_wf_insert _ (fun _ => c) W).
  - lia.
  - intros; trivial.
  - intros t _ Ht. congruence.
  - cbn. constructor; trivial. constructor.
  - intros j Hj. rewrite upd_other by lia. rewrite Hg.
    zbool; simpl; trivial; lia.
  - intros j Hj. replace j with (pos f) by lia. apply upd_same.
  - intros j Hj. rewrite upd_other by lia. rewrite Hg.
    zbool; simpl; trivial; lia.
Qed.

Lemma namech_nonzero (c : Z) : namech c = true -> c <> 0.
Proof. intros H ->. discriminate. Qed.

Lemma fn_names_namech (s : list Z) :
  In s fn_names -> s <> [] /\ Forall (fun c => namech c = true) s.
Proof.
  unfold fn_names. cbn [In]. intros H.
  repeat (destruct H as [<-|H]); try contradiction;
    (split; [discriminate|repeat constructor]).
Qed.

Lemma fn_names_block (s : list Z) :
  In s fn_names ->
  bytes_at (Z.to_nat (Z.of_nat (length s) + 1))
    (fun t => if t <? Z.of_nat (length s) then nth (Z.to_nat t) s 0
              else CHAR_LP) 0
  = s ++ [CHAR_LP].
Proof.
  unfold fn_names. cbn [In]. intros H.
  repeat (destruct H as [<-|H]); try contradiction; reflexivity.
Qed.

Lemma term_wf_ins_str_P (f : Field) (s : list Z) :
  term_wf f -> In s fn_names ->
  term_wf (field_ins_str_P f s (Z.of_nat (length s))).
Proof.
  intros (W & Hlen & Hmax) Hin.
  destruct (@fn_names_namech s Hin) as (Hs & Hall).
  pose proof (@fn_names_block s Hin) as Hblk.
  unfold field_ins_str_P.
  set (n := Z.of_nat (length s)) in *.
  assert (0 < n) as Hn by (destruct s; [congruence|subst n; simpl; lia]).
  destruct (Z.ltb_spec (len f + n + 1) (max f)); [|unfold term_wf; auto].
  pose proof (wf_pos W) as Hp.
  pose proof (field_grow_buf f (n := n + 1) ltac:(lia) Hp (wf_nul W)
                (fun i H => wf_nonzero W H)) as Hg.
  destruct (field_grow_pos_len f (n + 1)) as (Hgp & Hgl & Hgm & _).
  destruct (ins_loop_fields (Z.to_nat n) (field_grow f (n + 1)) s)
    as (Hip & Hil & Him).
  rewrite Z2Nat.id in Hip by lia.
  assert (forall t, 0 <= t < n -> namech (nth (Z.to_nat t) s 0) = true)
    as Hnth.
  { intros t Ht. rewrite Forall_forall in Hall. apply Hall, nth_In.
    subst n. lia. }
  apply term_wf_intro; cbn [pos len max buf set_pos set_buf];
    rewrite ?Hip, ?Hil, ?Him, ?Hgp, ?Hgl, ?Hgm; try lia.
  replace (pos f + n + 1) with (pos f + (n + 1)) by lia.
  apply (raw_wf_insert _
           (fun t => if t <? n then nth (Z.to_nat t) s 0 else CHAR_LP)
           W).
  - lia.
  - intros t Ht. destruct (Z.ltb_spec t n).
    + apply namech_nonzero, Hnth. lia.
    + discriminate.
  - intros t Ht Hnm. destruct (Z.ltb_spec t n); [|discriminate].
    split; [lia|]. destruct (Z.ltb_spec (t + 1) n); [|now right].
    left. apply Hnth. lia.
  - rewrite Hblk. apply units_name; [exact Hin|constructor].
  - intros j Hj. rewrite upd_other by lia. rewrite ins_loop_buf, Hgp, Hg.
    rewrite Z2Nat.id by lia. zbool; simpl; trivial; lia.
  - intros j Hj. unfold upd. rewrite ins_loop_buf, Hgp.
    rewrite Z2Nat.id by lia. zbool; simpl; trivial; lia.
  - intros j Hj. rewrite upd_other by lia. rewrite ins_loop_buf, Hgp, Hg.
    rewrite Z2Nat.id by lia. zbool; simpl; trivial; lia.
Qed.

Lemma term_wf_clear (f : Field) : term_wf f -> term_wf (field_clear f).
Proof.
  intros (W & Hlen & Hmax). pose proof (wf_pos W).
  apply term_wf_intro; cbn; try lia.
  constructor; try lia.
  - apply upd_same.
  - unfold name_closed. intros; lia.
  - rewrite upd_other by lia. apply (wf_guard W).
  - constructor.
Qed.

(** The last character of the content is not a name character. *)
Lemma last_not_name (b : mem) (p l : Z) :
  raw_wf b p l -> 0 < l -> namech (b (l - 1)) = false.
Proof.
  intros W Hl. destruct (namech (b (l - 1))) eqn:E; trivial.
  destruct (wf_name W (i := l - 1)); [lia|exact E|lia].
Qed.

Lemma term_wf_mv_left (f : Field) :
  term_wf f ->
  exists f', field_term_mv_left f = Some f' /\ term_wf f'.
Proof.
  intros (W & Hlen & Hmax). pose proof (wf_pos W) as Hp.
  unfold field_term_mv_left.
  destruct (Z.ltb_spec 0 (pos f)).
  - cbv zeta. destruct (Z.eqb_spec (buf f (pos f - 1)) CHAR_LP) as [Hlp|Hlp].
    + destruct (lower_run_down (buf f) (wf_guard W) (Z.to_nat (pos f - 1))
                  (p := pos f - 1 - 1)) as (q & Hq & Hnl & Hrun); [lia|].
      assert (scan_down (Z.to_nat (pos f - 1 - 1 + INT16_LIMIT + 1)) (buf f)
                (pos f - 1 - 1) = Some q) as Hs.
      { apply scan_down_spec; trivial; try (unfold INT16_LIMIT; lia). }
      rewrite Hs. cbn. eexists. split; [reflexivity|]. apply term_wf_intro; cbn; trivial.
      apply (raw_wf_move W); [lia|]. intros _.
      replace (q + 1 - 1) with q by lia. now apply not_lower_not_name.
    + eexists. split; [reflexivity|]. apply term_wf_intro; cbn; trivial.
      apply (raw_wf_move W); [lia|]. intros Hp1.
      replace (pos f - 1 - 1) with (pos f - 2) by lia.
      apply (before_cursor W); [lia|exact Hlp].
  - eexists. split; [reflexivity|]. apply term_wf_intro; cbn; trivial.
    apply (raw_wf_move W); [lia|]. apply (last_not_name W).
Qed.

Lemma term_wf_mv_right (f : Field) :
  term_wf f ->
  exists f', field_term_mv_right f = Some f' /\ term_wf f'.
Proof.
  intros (W & Hlen & Hmax). pose proof (wf_pos W) as Hp.
  unfold field_term_mv_right.
  destruct (Z.ltb_spec (pos f) (len f)).
  - destruct (Z.eqb_spec (buf f (pos f)) CHAR_X) as [Hx|Hx]; cbn [negb].
    + cbn. eexists. split; [reflexivity|]. apply term_wf_intro; cbn; trivial.
      apply (raw_wf_move W); [lia|]. intros _.
      replace (pos f + 1 - 1) with (pos f) by lia. now rewrite Hx.
    + destruct (islower (buf f (pos f))) eqn:El.
      * assert (namech (buf f (pos f)) = true) as Hnm.
        { unfold namech. rewrite El. now destruct (Z.eqb_spec (buf f (pos f)) CHAR_X). }
        destruct (name_run_up (wf_name W) (Z.to_nat (len f - pos f))
                    (i := pos f)) as (j & Hj & Hlp & Hrun); [lia|lia|exact Hnm|].
        assert (scan_up (Z.to_nat (INT16_LIMIT - pos f)) (buf f) (pos f)
                = Some j) as Hs.
        { apply scan_up_spec; trivial; try (unfold INT16_LIMIT; lia).
          now rewrite Hlp. }
        rewrite Hs. cbn. eexists. split; [reflexivity|].
        apply term_wf_intro; cbn; trivial.
        apply (raw_wf_move W); [lia|]. intros _.
        replace (j + 1 - 1) with j by lia. now rewrite Hlp.
      * assert (scan_up (Z.to_nat (INT16_LIMIT - pos f)) (buf f) (pos f)
                = Some (pos f)) as Hs.
        { apply scan_up_spec; trivial; unfold INT16_LIMIT; lia. }
        rewrite Hs. cbn. eexists. split; [reflexivity|]. apply term_wf_intro; cbn; trivial.
        apply (raw_wf_move W); [lia|]. intros _.
        replace (pos f + 1 - 1) with (pos f) by lia.
        now apply not_lower_not_name.
  - eexists. split; [reflexivity|]. apply term_wf_intro; cbn; trivial.
    apply (raw_wf_move W); [lia|]. intros; lia.
Qed.

(** The second half of [field_term_delete], once [n] is known. *)
Lemma term_wf_delete_n (f : Field) (n : Z) :
  term_wf f -> 0 < n <= pos f ->
  (0 < pos f - n -> namech (buf f (pos f - n - 1)) = false) ->
  exists f1,
    field_shrink f n = Some f1 /\
    term_wf
      (let f2 := set_len (set_pos f1 (pos f1 - n)) (len f1 - n) in
       set_buf f2 (upd (buf f2) (len f2) 0)).
Proof.
  intros (W & Hlen & Hmax) Hn Hbefore. pose proof (wf_pos W) as Hp.
  destruct (field_shrink_spec f (n := n) W) as (f1 & Hs & Hp1 & Hl1 & Hm1 & Hb);
    [unfold INT16_LIMIT; lia|lia|].
  exists f1. split; [exact Hs|].
  apply term_wf_intro; cbn [pos len max buf set_pos set_buf set_len];
    rewrite ?Hp1, ?Hl1, ?Hm1; try lia.
  apply (raw_wf_delete _ W); trivial.
  - intros j Hj. rewrite upd_other by lia. rewrite Hb.
    zbool; simpl; trivial; lia.
  - intros j Hj. unfold upd. destruct (Z.eqb_spec j (len f - n)) as [->|Hne].
    + replace (len f - n + n) with (len f) by lia. symmetry. apply (wf_nul W).
    + rewrite Hb. zbool; simpl; trivial; lia.
Qed.

Lemma term_wf_delete (f : Field) (x : Z) :
  term_wf f ->
  exists f' x', field_term_delete f x = Some (f', x') /\ term_wf f'.
Proof.
  intros Hwf. pose proof Hwf as (W & Hlen & Hmax).
  pose proof (wf_pos W) as Hp. unfold field_term_delete.
  destruct (Z.ltb_spec 0 (pos f)); [|exists f, x; auto].
  cbv zeta.
  assert (buf f (pos f - 1) <> CHAR_LP ->
          0 < pos f - 1 -> namech (buf f (pos f - 1 - 1)) = false) as Hone.
  { intros Hlp Hp1. replace (pos f - 1 - 1) with (pos f - 2) by lia.
    apply (before_cursor W); [lia|exact Hlp]. }
  destruct (Z.eqb_spec (buf f (pos f - 1)) CHAR_X) as [Hx|Hx].
  - destruct (term_wf_delete_n (f := f) (n := 1) Hwf) as (f1 & Hs & Hw);
      [lia|apply Hone; rewrite Hx; discriminate|].
    cbn [obind fst snd]. rewrite Hs. cbn [obind]. eauto.
  - destruct (Z.eqb_spec (buf f (pos f - 1)) CHAR_LP) as [Hlp|Hlp].
    + destruct (lower_run_down (buf f) (wf_guard W) (Z.to_nat (pos f - 1))
                  (p := pos f - 2)) as (q & Hq & Hnl & Hrun); [lia|].
      destruct (del_scan_spec 256 (buf f) (pos f) (q := q) (n := 2))
        as (m & Hm & Hmod); trivial; try lia.
      * intros H256. assert (pos f = len f) as -> by lia.
        now rewrite (wf_nul W).
      * rewrite Hm. cbn [obind fst snd]. rewrite Hmod.
        destruct (term_wf_delete_n (f := f) (n := pos f - q - 1) Hwf)
          as (f1 & Hs & Hw); [lia| |].
        -- intros _. replace (pos f - (pos f - q - 1) - 1) with q by lia.
           now apply not_lower_not_name.
        -- rewrite Hs. cbn [obind]. eauto.
    + destruct (term_wf_delete_n (f := f) (n := 1) Hwf) as (f1 & Hs & Hw);
        [lia|apply Hone; exact Hlp|].
      cbn [obind fst snd]. rewrite Hs. cbn [obind]. eauto.
Qed.

(** ** The number field operations keep the field NUL-terminated *)

Lemma num_wf_ins_chr (f : Field) (c : Z) :
  num_wf f -> num_wf (field_ins_chr f c).
Proof.
  intros (Hinv & Hmax & Hnul). split; [now apply field_ins_chr_inv|].
  unfold field_ins_chr. destruct Hinv as (Hp & Hl).
  destruct (Z.ltb_spec (len f + 1) (max f)); [|auto].
  destruct (field_grow_pos_len f 1) as (Hgp & Hgl & Hgm & Hg0).
  cbn [pos len max buf set_pos set_buf]. rewrite Hgp, Hgl, Hgm.
  split; [exact Hmax|]. rewrite upd_other by lia. exact Hg0.
Qed.

Lemma num_wf_clear (f : Field) : num_wf f -> num_wf (field_clear f).
Proof.
  intros (Hinv & Hmax & Hnul). split; [now apply field_clear_inv|].
  cbn [pos len max buf set_pos set_buf set_len field_clear].
  split; [exact Hmax|apply upd_same].
Qed.

Lemma num_wf_mv_left (f : Field) : num_wf f -> num_wf (field_mv_left f).
Proof.
  intros (Hinv & Hmax & Hnul). split; [now apply field_mv_left_inv|].
  unfold field_mv_left. destruct (0 <? pos f); cbn; auto.
Qed.

Lemma num_wf_mv_right (f : Field) : num_wf f -> num_wf (field_mv_right f).
Proof.
  intros (Hinv & Hmax & Hnul). split; [now apply field_mv_right_inv|].
  unfold field_mv_right. destruct (pos f <? len f); cbn; auto.
Qed.

Lemma num_wf_delete (f : Field) :
  num_wf f -> exists f', field_delete f = Some f' /\ num_wf f'.
Proof.
  intros Hwf. pose proof Hwf as ((Hp & Hl) & Hmax & Hnul).
  unfold field_delete. destruct (Z.ltb_spec 0 (pos f)); [|eauto].
  unfold field_shrink. destruct (Z.eqb_spec (buf f (pos f)) 0) as [Hz|Hz].
  - cbn [obind]. eexists. split; [reflexivity|].
    repeat split; cbn [pos len max buf set_pos set_buf set_len]; try lia.
    apply upd_same.
  - destruct (shrink_loop_some (Z.to_nat (INT16_LIMIT - pos f)) (buf f)
                (i := pos f) (n := 1) (e := len f)) as (b' & Hb');
      trivial; try (unfold INT16_LIMIT; lia).
    rewrite Hb'. cbn [obind]. eexists. split; [reflexivity|].
    repeat split; cbn [pos len max buf set_pos set_buf set_len]; try lia.
    apply upd_same.
Qed.

Lemma num_wf_number_event (f : Field) (key : KEY) :
  num_wf f -> exists f', field_number_event f key = Some f' /\ num_wf f'.
Proof.
  intros Hwf.
  destruct key; cbn [field_number_event];
    try (eexists; split; [reflexivity|];
         first [exact Hwf | now apply num_wf_ins_chr | now apply num_wf_clear
               | now apply num_wf_mv_left | now apply num_wf_mv_right]).
  now apply num_wf_delete.
Qed.

(** ** Reachable states keep all three fields well-formed *)

Section Controller.

Context {P : Platform}.

Lemma same_fields_wf (a a' : App) :
  same_fields a a' -> app_wf a -> app_wf a'.
Proof. unfold app_wf. intros (-> & -> & ->). trivial. Qed.

Lemma same_fields_refl (a : App) : same_fields a a.
Proof. unfold same_fields. auto. Qed.

Lemma same_fields_trans (a b c : App) :
  same_fields a b -> same_fields b c -> same_fields a c.
Proof. unfold same_fields. intros (-> & -> & ->) (-> & -> & ->). auto. Qed.

Lemma mode_input_fields (a : App) : same_fields a (mode_input a).
Proof. unfold same_fields. auto. Qed.

Lemma mode_result_fields (y : F) (a : App) : same_fields a (mode_result y a).
Proof. unfold same_fields. auto. Qed.

Lemma mode_error_fields (e : Z) (a : App) : same_fields a (mode_error e a).
Proof. unfold same_fields. auto. Qed.

Lemma mode_table_update_fields (a : App) :
  same_fields a (mode_table_update a).
Proof.
  unfold same_fields, mode_table_update.
  destruct (calc_solve _ _ _) as (err, y).
  destruct (negb (err =? 0)); auto.
Qed.

Lemma mode_table_fields (a : App) : same_fields a (mode_table a).
Proof.
  unfold mode_table.
  eapply same_fields_trans; [|apply mode_table_update_fields].
  unfold same_fields. auto.
Qed.

Lemma mode_settings_fields (a a' : App) :
  mode_settings a = Some a' -> same_fields a a'.
Proof.
  unfold mode_settings. intros H.
  destruct (cstring _ (buf (fld_start a)) 0); [|discriminate].
  destruct (cstring _ (buf (fld_step a)) 0); [|discriminate].
  cbn in H. injection H as <-. unfold same_fields. auto.
Qed.

Lemma mode_table_event_fields (key : KEY) (a : App) :
  same_fields a (mode_table_event key a).
Proof.
  unfold mode_table_event. cbv zeta.
  repeat match goal with
  | |- context [if ?c then _ else _] => destruct c
  end;
  first [apply same_fields_refl | apply mode_input_fields
        | (eapply same_fields_trans; [|apply mode_table_update_fields];
           unfold same_fields; auto)].
Qed.

Lemma mode_input_enter_fields (a a' : App) :
  mode_input_enter a = Some a' -> same_fields a a'.
Proof.
  unfold mode_input_enter. intros H.
  destruct (cstring _ _ _) as [term|]; [|discriminate].
  cbn [obind] in H.
  destruct (calc_prepare term (compiled a)) as [(err, t)|]; [|discriminate].
  cbn [obind] in H.
  assert (same_fields a (set_compiled a t)) as H0 by (unfold same_fields; auto).
  destruct (negb (err =? 0)).
  { injection H as <-. eapply same_fields_trans; [exact H0|].
    apply mode_error_fields. }
  destruct (calc_solve t (of_Z 0) (of_Z 0)) as (err', y).
  repeat match type of H with
  | context [if ?c then _ else _] => destruct c
  end;
  try (injection H as <-);
  (eapply same_fields_trans; [exact H0|]);
  first [apply mode_error_fields | apply mode_result_fields
        | now apply mode_settings_fields].
Qed.

Lemma mode_settings_enter_fields (a a' : App) :
  mode_settings_enter a = Some a' -> same_fields a a'.
Proof.
  unfold mode_settings_enter. intros H.
  destruct (cstring _ (buf (fld_start a)) 0) as [s1|]; [|discriminate].
  cbn [obind] in H. cbv zeta in H.
  destruct (cstring _ _ 0) as [s2|]; [|discriminate].
  cbn [obind] in H.
  destruct (feqb _ _); injection H as <-.
  - eapply same_fields_trans; [|apply mode_error_fields].
    unfold same_fields. auto.
  - eapply same_fields_trans; [|apply mode_table_fields].
    unfold same_fields. auto.
Qed.

Lemma mode_input_event_wf (key : KEY) (a a' : App) :
  app_wf a -> mode_input_event key a = Some a' -> app_wf a'.
Proof.
  intros Hwf H. pose proof Hwf as (Ht & Hs & Hp).
  assert (forall c, c <> 0 -> namech c = false ->
            app_wf (set_fld_term a (field_ins_chr (fld_term a) c))) as Hchr.
  { intros c Hc Hn. split; [|split]; cbn; trivial.
    now apply term_wf_ins_chr. }
  assert (forall s, In s fn_names ->
            app_wf (set_fld_term a
                      (field_ins_str_P (fld_term a) s (Z.of_nat (length s)))))
    as Hstr.
  { intros s Hin. split; [|split]; cbn; trivial.
    now apply term_wf_ins_str_P. }
  destruct key; cbn [mode_input_event] in H;
    try (injection H as <-;
         first [ apply Hchr; [discriminate|reflexivity]
               | apply (Hstr _str_sin); unfold fn_names; cbn; now auto 10
               | apply (Hstr _str_cos); unfold fn_names; cbn; now auto 10
               | apply (Hstr _str_tan); unfold fn_names; cbn; now auto 10
               | apply (Hstr _str_asin); unfold fn_names; cbn; now auto 10
               | apply (Hstr _str_acos); unfold fn_names; cbn; now auto 10
               | apply (Hstr _str_atan); unfold fn_names; cbn; now auto 10
               | apply (Hstr _str_log); unfold fn_names; cbn; now auto 10 ]).
  - (* enter *)
    eapply same_fields_wf; [|exact Hwf]. now apply mode_input_enter_fields.
  - (* delete *)
    destruct (term_wf_delete (x_cnt a) Ht) as (f' & x' & Hd & Hw).
    rewrite Hd in H. cbn in H. injection H as <-.
    split; [|split]; cbn; trivial.
  - (* clear *)
    injection H as <-.
    split; [|split]; cbn; trivial. now apply term_wf_clear.
  - (* right *)
    destruct (term_wf_mv_right Ht) as (f' & Hm & Hw).
    rewrite Hm in H. cbn in H. injection H as <-.
    split; [|split]; cbn; trivial.
  - (* left *)
    destruct (term_wf_mv_left Ht) as (f' & Hm & Hw).
    rewrite Hm in H. cbn in H. injection H as <-.
    split; [|split]; cbn; trivial.
Qed.

Lemma cur_fld_wf (a : App) : app_wf a -> num_wf (cur_fld a).
Proof. unfold cur_fld. intros (_ & ? & ?). now destruct (tbl_cur_fld a). Qed.

Lemma set_cur_fld_wf (a : App) (f : Field) :
  app_wf a -> num_wf f -> app_wf (set_cur_fld a f).
Proof.
  unfold set_cur_fld. intros (? & ? & ?) ?.
  destruct (tbl_cur_fld a); (split; [|split]); cbn; trivial.
Qed.

Lemma mode_settings_event_wf (key : KEY) (a a' : App) :
  app_wf a -> mode_settings_event key a = Some a' -> app_wf a'.
Proof.
  intros Hwf H. unfold mode_settings_event in H.
  destruct (num_wf_number_event key (cur_fld_wf Hwf)) as (f & Hf & Hfw).
  rewrite Hf in H. cbn [obind] in H. cbv zeta in H.
  pose proof (set_cur_fld_wf Hwf Hfw) as Hwf1.
  set (a1 := set_cur_fld a f) in *.
  destruct key;
    try (injection H as <-; exact Hwf1);
    try (injection H as <-;
         eapply same_fields_wf; [|exact Hwf1]; unfold same_fields; now auto).
  - eapply same_fields_wf; [|exact Hwf1]. now apply mode_settings_enter_fields.
  - destruct (tbl_cur_fld a1) eqn:E; injection H as <-; [|exact Hwf1].
    apply set_cur_fld_wf; [exact Hwf1|].
    apply num_wf_ins_chr, cur_fld_wf, Hwf1.
Qed.

Lemma dispatch_wf (key : KEY) (a a' : App) :
  app_wf a -> dispatch key a = Some a' -> app_wf a'.
Proof.
  intros Hwf H. unfold dispatch in H. destruct (_event a).
  - now apply (mode_input_event_wf key Hwf).
  - unfold mode_result_event in H.
    apply (mode_input_event_wf key (a := mode_input a)); trivial.
  - injection H as <-. apply (same_fields_wf (mode_table_event_fields key a) Hwf).
  - now apply (mode_settings_event_wf key Hwf).
  - unfold mode_error_event in H. destruct (_mode a).
    + injection H as <-. apply (same_fields_wf (mode_input_fields a) Hwf).
    + apply (same_fields_wf (mode_settings_fields a H) Hwf).
Qed.

Lemma run_wf (keys : list KEY) :
  forall a a', app_wf a -> run keys a = Some a' -> app_wf a'.
Proof.
  induction keys as [|k keys IH]; intros a a' Hwf H; cbn [run] in H.
  - now injection H as <-.
  - destruct (dispatch k a) as [a1|] eqn:E; [|discriminate].
    cbn [obind] in H. apply (IH a1); trivial. now apply (dispatch_wf k Hwf).
Qed.

Lemma main_wf (m_term m_start m_step : mem) :
  islower (m_term (-1)) = false -> app_wf (main m_term m_start m_step).
Proof.
  intros Hg. apply (same_fields_wf (mode_input_fields _)).
  unfold app_wf. cbn [fld_term fld_start fld_step].
  split; [|split].
  - apply term_wf_intro; cbn; try (unfold TERM_MAX_LEN; lia).
    constructor; cbn; trivial; try lia; [|constructor].
    unfold name_closed. intros; lia.
  - repeat split; cbn; unfold FIELD_START_WIDTH; lia.
  - repeat split; cbn; unfold FIELD_STEP_WIDTH; lia.
Qed.

End Controller.

(** ** The compiler and the evaluator *)

Section Compiler.

Context {P : Platform}.

(** *** Evaluation without the free variable *)

Lemma solve_token_no_x (nums : Z -> F) (x1 x2 : F) (t : TOKEN_TYPE)
      (s : Solve) :
  t <> TT_X -> solve_token nums x1 t s = solve_token nums x2 t s.
Proof. destruct t; trivial. congruence. Qed.

Lemma solve_loop_no_x (nums : Z -> F) (x1 x2 : F) (l : list TOKEN_TYPE) :
  ~ In TT_X l ->
  forall s, solve_loop nums x1 l s = solve_loop nums x2 l s.
Proof.
  induction l as [|t l IH]; intros Hx s; trivial.
  cbn [solve_loop].
  rewrite (@solve_token_no_x nums x1 x2 t).
  - destruct (solve_token nums x2 t s); trivial.
    apply IH. intros Hin. apply Hx. now right.
  - intros ->. apply Hx. now left.
Qed.

(** C9. For every successfully compiled token stream that holds no
    free-variable token, evaluation returns the same error code and the same
    result whatever value is substituted for the free variable. *)
Theorem solve_independent_of_x :
  forall (term : list Z) (old t : Tokens),
    calc_prepare term old = Some (0, t) ->
    ~ In TT_X (tok_type_list t) ->
    forall x1 x2 y0 : F, calc_solve t x1 y0 = calc_solve t x2 y0.
Proof.
  intros term old t _ Hx x1 x2 y0. unfold calc_solve.
  now rewrite (@solve_loop_no_x (tok_num_list t) x1 x2 (tok_type_list t) Hx).
Qed.

(** *** The capacity of the token list *)

Lemma tok_cnt_app (l : list TOKEN_TYPE) (t : TOKEN_TYPE) (nums : Z -> F) :
  tok_cnt (mkTokens (l ++ [t]) nums) = tok_cnt (mkTokens l nums) + 1.
Proof. unfold tok_cnt. cbn. rewrite length_app. cbn. lia. Qed.

Lemma emit_within (t : TOKEN_TYPE) (s : Prep) :
  within (toks s) -> step_within (fun s => s) (emit t s).
Proof.
  unfold emit, within. intros H.
  destruct (Z.geb_spec (tok_cnt (toks s)) (TOKEN_LIST_SIZE - 1)); cbn; trivial.
  unfold within. cbn [toks]. rewrite tok_cnt_app.
  unfold tok_cnt in *. cbn in *. lia.
Qed.

Lemma sbind_within {A B : Type} (pa : A -> Prep) (pb : B -> Prep)
      (r : Step A) (k : A -> Step B) :
  step_within pa r ->
  (forall a, within (toks (pa a)) -> step_within pb (k a)) ->
  step_within pb (sbind r k).
Proof. destruct r; cbn; auto. Qed.

Lemma push_op_within (t : TOKEN_TYPE) (s : Prep) :
  within (toks s) -> step_within (fun s => s) (push_op t s).
Proof. unfold push_op. intros H. now destruct (_ >=? _). Qed.

Lemma pop_to_lp_within (stack : list TOKEN_TYPE) :
  forall s, within (toks s) -> step_within (fun s => s) (pop_to_lp stack s).
Proof.
  induction stack as [|t stack IH]; intros s H; cbn [pop_to_lp]; trivial.
  destruct (tt_eqb t TT_LP); trivial.
  apply (sbind_within (fun s => s)); [now apply emit_within|exact IH].
Qed.

Lemma pop_ops_within (prec : Z) (stack : list TOKEN_TYPE) :
  forall s, within (toks s) ->
            step_within (fun s => s) (pop_ops prec stack s).
Proof.
  induction stack as [|t stack IH]; intros s H; cbn [pop_ops]; trivial.
  destruct (_ || _); trivial.
  apply (sbind_within (fun s => s)); [now apply emit_within|exact IH].
Qed.

Lemma pop_all_within (stack : list TOKEN_TYPE) :
  forall s, within (toks s) -> step_within (fun s => s) (pop_all stack s).
Proof.
  induction stack as [|t stack IH]; intros s H; cbn [pop_all]; trivial.
  apply (sbind_within (fun s => s)); [now apply emit_within|exact IH].
Qed.

Lemma shunt_within (s : Prep) :
  within (toks s) -> step_within (fun s => s) (shunt s).
Proof.
  intros H. unfold shunt.
  apply (sbind_within (fun s => s)); [now apply pop_ops_within|].
  intros a Ha. now apply push_op_within.
Qed.

Lemma calc_step_within (c : Z) (rest : list Z) (s : Prep)
      (r : Step (list Z * Prep)) :
  within (toks s) -> calc_step c rest s = Some r -> step_within prep_of r.
Proof.
  intros H Hr. unfold calc_step in Hr.
  assert (forall t term',
            step_within prep_of
              (sbind (shunt (set_cur s t)) (fun s' => Go (term', s'))))
    as Hop.
  { intros t term'. apply (sbind_within (fun s => s));
      [now apply shunt_within|trivial]. }
  assert (forall v term',
            step_within prep_of
              (sbind (emit TT_NUMBER (set_cur s TT_NUMBER))
                 (fun s' => Go (term', put_num s' v)))) as Hnum.
  { intros v term'. apply (sbind_within (fun s => s));
      [now apply emit_within|trivial]. }
  repeat match type of Hr with
  | (if ?c then _ else _) = _ => destruct c
  | match ?o with Some _ => _ | None => _ end = _ =>
      destruct o as [[]|]
  | obind ?o _ = _ => destruct o; cbn [obind] in Hr; [|discriminate]
  end;
  try (injection Hr as <-); trivial;
  apply (sbind_within (fun s => s)); trivial;
  first [now apply emit_within | now apply push_op_within
        | now apply pop_to_lp_within].
Qed.

Lemma calc_loop_within (fuel : nat) :
  forall (term : list Z) (s : Prep) (r : Step Prep),
    within (toks s) -> calc_loop fuel term s = Some r ->
    step_within (fun s => s) r.
Proof.
  induction fuel as [|fuel IH]; intros term s r H Hr;
    (destruct term as [|c rest]; cbn [calc_loop] in Hr;
     [now injection Hr as <-|]); [discriminate|].
  destruct (calc_step c rest s) as [r1|] eqn:E; [|discriminate].
  cbn [obind] in Hr. pose proof (@calc_step_within c rest s r1 H E) as H1.
  destruct r1 as [e t|(term', s')].
  - now injection Hr as <-.
  - now apply (IH term' s').
Qed.

Lemma calc_prepare_within (term : list Z) (old : Tokens) (e : Z)
      (t : Tokens) :
  calc_prepare term old = Some (e, t) -> within t.
Proof.
  unfold calc_prepare, calc_scan. intros H.
  destruct (calc_loop _ _ _) as [r|] eqn:E; [|discriminate].
  cbn [obind] in H.
  assert (step_within (fun s => s)
            (sbind r (fun s => pop_all (op_stack s) s))) as Hw.
  { apply (sbind_within (fun s => s)).
    - apply calc_loop_within in E; trivial.
      unfold within, tok_cnt, TOKEN_LIST_SIZE. cbn. lia.
    - intros a Ha. now apply pop_all_within. }
  destruct (sbind r _); injection H as <- <-; exact Hw.
Qed.

(** *** The pop loop *)

Lemma tt_eqb_eq (a b : TOKEN_TYPE) : tt_eqb a b = true <-> a = b.
Proof.
  unfold tt_eqb. split.
  - intros H. apply Z.eqb_eq in H. destruct a, b; trivial; discriminate.
  - intros ->. apply Z.eqb_refl.
Qed.

Lemma pop_ops_stops (prec : Z) (stack : list TOKEN_TYPE) (s : Prep) :
  stops_at prec stack -> pop_ops prec stack s = Go (set_stack s stack).
Proof.
  destruct stack as [|t stack]; cbn; trivial. intros [H| ->].
  - destruct (Z.gtb_spec (get_precedence t) prec); [trivial|lia].
  - now rewrite orb_true_r.
Qed.

(** The loop pops and emits the entries whose rank is not greater than
    [prec], down to the first one that is, or to a parenthesis marker. *)
Lemma pop_ops_spec (prec : Z) (pre rest : list TOKEN_TYPE) :
  Forall (fun t => get_precedence t <= prec /\ t <> TT_LP) pre ->
  stops_at prec rest ->
  forall s,
    tok_cnt (toks s) + Z.of_nat (length pre) <= TOKEN_LIST_SIZE - 1 ->
    pop_ops prec (pre ++ rest) s =
      Go (mkPrep (cur_type s) rest (top_num s)
            (mkTokens (tok_type_list (toks s) ++ pre)
               (tok_num_list (toks s)))).
Proof.
  intros Hpre Hrest. induction Hpre as [|t pre (Hle & Hlp) Hpre IH];
    intros s Hroom.
  - cbn [app]. rewrite pop_ops_stops by exact Hrest.
    rewrite app_nil_r. now destruct s as [? ? ? []].
  - cbn [app pop_ops].
    destruct (Z.gtb_spec (get_precedence t) prec); [lia|].
    destruct (tt_eqb t TT_LP) eqn:E; [apply tt_eqb_eq in E; contradiction|].
    cbn [orb]. unfold emit.
    destruct (Z.geb_spec (tok_cnt (toks s)) (TOKEN_LIST_SIZE - 1)).
    { cbn [length] in Hroom. lia. }
    cbn [sbind]. rewrite IH.
    + cbn. now rewrite <- app_assoc.
    + cbn [toks]. rewrite tok_cnt_app. cbn [length] in Hroom.
      unfold tok_cnt in *. cbn in *. lia.
Qed.

(** C1 (the code at the failing inputs). Unary tokens are not pushed
    directly: they go through the pop loop like every operator, with rank
    0, and a unary token on top of the stack has rank 0 as well, which is
    not greater, so it is popped.  While "-sin(x)" is compiled the unary
    minus is on the stack after the first character and the sin token
    pops it into the token stream, ahead of the parenthesis that follows;
    the stream is - x sin, which the evaluator rejects with Syntax, as it
    does "--2".  After a number the popped minus finds an operand:
    "2+-sin(x)" compiles to 2 - x sin + and evaluates without error to
    (-2) + sin(x). *)
Theorem a_function_pops_the_unary_minus (old : Tokens) (x y0 : F) :
  (exists s,
     calc_scan (term_of_string "-") old = Some (Go s) /\
     op_stack s = [TT_UNARY_MINUS] /\ tok_type_list (toks s) = []) /\
  (exists s,
     calc_scan (term_of_string "-sin") old = Some (Go s) /\
     op_stack s = [TT_SIN] /\ tok_type_list (toks s) = [TT_UNARY_MINUS]) /\
  (exists t,
     calc_prepare (term_of_string "-sin(x)") old = Some (0, t) /\
     tok_type_list t = [TT_UNARY_MINUS; TT_X; TT_SIN] /\
     calc_solve t x y0 = (ERROR_SYNTAX, y0)) /\
  (exists t,
     calc_prepare (term_of_string "2+-sin(x)") old = Some (0, t) /\
     tok_type_list t = [TT_NUMBER; TT_UNARY_MINUS; TT_X; TT_SIN; TT_ADD] /\
     calc_solve t x y0 = (0, fadd (fneg (parse_float [50])) (SIND x))) /\
  (exists t,
     calc_prepare (term_of_string "--2") old = Some (0, t) /\
     tok_type_list t = [TT_UNARY_MINUS; TT_NUMBER; TT_UNARY_MINUS] /\
     calc_solve t x y0 = (ERROR_SYNTAX, y0)).
Proof.
  split; [eexists; split; [vm_compute; reflexivity|split; reflexivity]|].
  split; [eexists; split; [vm_compute; reflexivity|split; reflexivity]|].
  split;
    [eexists; split;
     [vm_compute; reflexivity|split; vm_compute; reflexivity]|].
  split;
    [eexists; split;
     [vm_compute; reflexivity|split; vm_compute; reflexivity]|].
  eexists; split; [vm_compute; reflexivity|split; vm_compute; reflexivity].
Qed.

(** C3. Compiling and evaluating "2^3^2" groups as (2^3)^2: with add and
    subtract at rank 3, multiply and divide at rank 2 and power at rank 1,
    an operator pops and emits every stacked operator whose rank is not
    greater than its own, down to a left-parenthesis marker, so the token
    stream is 2 3 ^ 2 ^; in an arithmetic that is exact on these small
    integers the result is 64, not 512. *)
Theorem power_is_left_associative :
  forall (old : Tokens) (x y0 : F),
    parse_float [50] = of_Z 2 ->
    parse_float [51] = of_Z 3 ->
    fpow (of_Z 2) (of_Z 3) = of_Z 8 ->
    fpow (of_Z 8) (of_Z 2) = of_Z 64 ->
    of_Z 64 <> of_Z 512 ->
    (get_precedence TT_ADD = 3 /\ get_precedence TT_SUB = 3 /\
     get_precedence TT_MUL = 2 /\ get_precedence TT_DIV = 2 /\
     get_precedence TT_POW = 1) /\
    (forall (prec : Z) (pre rest : list TOKEN_TYPE) (s : Prep),
       Forall (fun t => get_precedence t <= prec /\ t <> TT_LP) pre ->
       stops_at prec rest ->
       tok_cnt (toks s) + Z.of_nat (length pre) <= TOKEN_LIST_SIZE - 1 ->
       pop_ops prec (pre ++ rest) s =
         Go (mkPrep (cur_type s) rest (top_num s)
               (mkTokens (tok_type_list (toks s) ++ pre)
                  (tok_num_list (toks s))))) /\
    exists t,
      calc_prepare (term_of_string "2^3^2") old = Some (0, t) /\
      tok_type_list t = [TT_NUMBER; TT_NUMBER; TT_POW; TT_NUMBER; TT_POW] /\
      calc_solve t x y0 = (0, of_Z 64) /\
      snd (calc_solve t x y0) <> of_Z 512.
Proof.
  intros old x y0 H2 H3 Hp1 Hp2 Hne.
  split; [repeat split|]. split.
  { intros prec pre rest s Hpre Hrest Hroom. now apply pop_ops_spec. }
  set (t := mkTokens [TT_NUMBER; TT_NUMBER; TT_POW; TT_NUMBER; TT_POW]
              (fun j => if j =? 2 then parse_float [50]
                        else if j =? 1 then parse_float [51]
                        else if j =? 0 then parse_float [50]
                        else tok_num_list old j)).
  assert (calc_prepare (term_of_string "2^3^2") old = Some (0, t)) as Hc
      by (vm_compute; reflexivity).
  assert (calc_solve t x y0 = (0, of_Z 64)) as Hv.
  { unfold calc_solve, t. cbn -[parse_float].
    rewrite H2, H3, Hp1, Hp2. reflexivity. }
  exists t. split; [exact Hc|]. split; [reflexivity|].
  split; [exact Hv|]. now rewrite Hv.
Qed.

(** *** The capacity boundary *)

(** C7. The token list and the operator stack refuse their 32nd entry with
    NoMemory and accept every earlier one, so no compilation leaves more
    than 31 tokens: the 32-token expression -1+1+...+1 fails with NoMemory
    when its 32nd token is emitted, while the same expression without its
    first token compiles to 31 tokens; 32 nested opening parentheses fail
    with NoMemory and 31 compile. *)
Theorem nomem_at_capacity :
  forall old : Tokens,
    (forall t s, tok_cnt (toks s) < TOKEN_LIST_SIZE - 1 ->
       exists s', emit t s = Go s' /\
                  tok_cnt (toks s') = tok_cnt (toks s) + 1) /\
    (forall t s, TOKEN_LIST_SIZE - 1 <= tok_cnt (toks s) ->
       emit t s = Return ERROR_NOMEM (toks s)) /\
    (forall t s, top_stack s < OPERATOR_STACK_SIZE - 1 ->
       exists s', push_op t s = Go s' /\ top_stack s' = top_stack s + 1) /\
    (forall t s, OPERATOR_STACK_SIZE - 1 <= top_stack s ->
       push_op t s = Return ERROR_NOMEM (toks s)) /\
    (forall term e t, calc_prepare term old = Some (e, t) ->
       tok_cnt t <= TOKEN_LIST_SIZE - 1) /\
    (exists t, calc_prepare minus_sum_of_16 old = Some (ERROR_NOMEM, t) /\
               tok_cnt t = TOKEN_LIST_SIZE - 1) /\
    (exists t, calc_prepare sum_of_16 old = Some (0, t) /\
               tok_cnt t = TOKEN_LIST_SIZE - 1) /\
    (exists t, calc_prepare nested_32 old = Some (ERROR_NOMEM, t)) /\
    (exists t, calc_prepare nested_31 old = Some (0, t)).
Proof.
  intros old. repeat apply conj.
  - intros t s H. unfold emit.
    destruct (Z.geb_spec (tok_cnt (toks s)) (TOKEN_LIST_SIZE - 1)); [lia|].
    eexists. split; [reflexivity|]. cbn [toks]. apply tok_cnt_app.
  - intros t s H. unfold emit.
    destruct (Z.geb_spec (tok_cnt (toks s)) (TOKEN_LIST_SIZE - 1)); [trivial|lia].
  - intros t s H. unfold push_op.
    destruct (Z.geb_spec (top_stack s) (OPERATOR_STACK_SIZE - 1)); [lia|].
    eexists. split; [reflexivity|]. unfold top_stack. cbn. lia.
  - intros t s H. unfold push_op.
    destruct (Z.geb_spec (top_stack s) (OPERATOR_STACK_SIZE - 1)); [trivial|lia].
  - intros term e t H. apply (calc_prepare_within _ _ H).
  - eexists. split; [vm_compute; reflexivity|reflexivity].
  - eexists. split; [vm_compute; reflexivity|reflexivity].
  - eexists. vm_compute. reflexivity.
  - eexists. vm_compute. reflexivity.
Qed.

(** *** The compiler returns on every sequence of units *)

Lemma units_tail (c : Z) (l : list Z) :
  units (c :: l) -> namech c = false -> units l.
Proof.
  intros H Hn. inversion H as [|c' l' _ _ Hl|name l' Hin _ Heq]; subst; trivial.
  exfalso. unfold fn_names in Hin. cbn [In] in Hin.
  repeat (destruct Hin as [<-|Hin]); try contradiction;
    cbn in Heq; injection Heq; intros; subst; discriminate.
Qed.

Lemma units_head (c : Z) (l : list Z) :
  units (c :: l) -> namech c = true ->
  exists name l0, In name fn_names /\ c :: l = name ++ CHAR_LP :: l0 /\
                  units l0.
Proof.
  intros H Hn. inversion H as [|c' l' _ Hc _|name l0 Hin Hl Heq]; subst.
  - congruence.
  - now exists name, l0.
Qed.

Lemma scan_float_units (l : list Z) :
  forall dps lit r,
    units l -> scan_float l dps = Some (lit, r) ->
    units r /\ (length r <= length l)%nat.
Proof.
  induction l as [|c l IH]; intros dps lit r Hu H; cbn [scan_float] in H.
  - injection H as <- <-. split; [constructor|lia].
  - destruct (Z.eqb_spec c CHAR_DP) as [Hdp|Hdp].
    + destruct (1 <? dps + 1); [discriminate|].
      destruct (scan_float l (dps + 1)) as [(lit', r')|] eqn:E;
        [|discriminate].
      cbn in H. injection H as <- <-.
      assert (namech c = false) as Hn by now subst c.
      destruct (IH _ _ _ (@units_tail c l Hu Hn) E).
      split; [trivial|cbn; lia].
    + destruct (isdigit c) eqn:Ed; cbn [negb] in H.
      * destruct (scan_float l dps) as [(lit', r')|] eqn:E; [|discriminate].
        cbn in H. injection H as <- <-.
        assert (namech c = false) as Hn.
        { unfold namech, islower. unfold isdigit in Ed.
          apply andb_true_iff in Ed as (H1 & H2).
          apply Z.leb_le in H1, H2.
          destruct (Z.leb_spec 97 c); [lia|reflexivity]. }
        destruct (IH _ _ _ (@units_tail c l Hu Hn) E).
        split; [trivial|cbn; lia].
      * injection H as <- <-. split; [trivial|lia].
Qed.

Lemma sbind_step_units (n : nat) (r : Step Prep) (term' : list Z)
      (g : Prep -> Prep) :
  units term' -> (length term' <= n)%nat ->
  step_units n (sbind r (fun s' => Go (term', g s'))).
Proof. destruct r; cbn; auto. Qed.

Lemma calc_step_some (c : Z) (rest : list Z) (s : Prep) :
  units (c :: rest) ->
  exists r, calc_step c rest s = Some r /\ step_units (length rest) r.
Proof.
  intros Hu. destruct (namech c) eqn:Hn.
  - destruct (@units_head c rest Hu Hn) as (name & l0 & Hin & Heq & Hl0).
    assert (units (CHAR_LP :: l0)) as Hlp
        by (constructor; [discriminate|reflexivity|exact Hl0]).
    unfold fn_names in Hin. cbn [In] in Hin.
    repeat (destruct Hin as [<-|Hin]); try contradiction;
      cbn in Heq; injection Heq as -> ->;
      (eexists; split; [reflexivity|]);
      refine (@sbind_step_units _ _ _ (fun s0 => s0) _ _); trivial; cbn; lia.
  - pose proof (@units_tail c rest Hu Hn) as Hrest. unfold calc_step.
    destruct (isdigit c) eqn:Ed.
    { destruct (scan_float (c :: rest) 0) as [(lit, term')|] eqn:E.
      - eexists. split; [reflexivity|].
        cbn [scan_float] in E.
        destruct (Z.eqb_spec c CHAR_DP) as [->|_]; [discriminate Ed|].
        rewrite Ed in E. cbn [negb] in E.
        destruct (scan_float rest 0) as [(lit', r')|] eqn:E'; [|discriminate].
        cbn in E. injection E as <- <-.
        destruct (@scan_float_units rest 0 lit' r' Hrest E').
        refine (@sbind_step_units _ _ _ (fun s0 => put_num s0 _) _ _);
          trivial.
      - eexists. split; [reflexivity|]. exact I. }
    assert (forall k, namech k = true -> (c =? k) = false) as Hne.
    { intros k Hk. destruct (Z.eqb_spec c k); [congruence|reflexivity]. }
    rewrite (Hne 108), (Hne 97), (Hne 115), (Hne 99), (Hne 116)
      by reflexivity.
    repeat match goal with
    | |- context [if ?b then _ else _] => destruct b
    end;
    (eexists; split; [reflexivity|]);
    first [ refine (@sbind_step_units _ _ _ (fun s0 => s0) _ _); now trivial
          | refine (@sbind_step_units _ _ _ (fun s0 => put_num s0 _) _ _);
            now trivial ].
Qed.

Lemma calc_loop_some (fuel : nat) :
  forall (term : list Z) (s : Prep),
    units term -> (length term <= fuel)%nat ->
    exists r, calc_loop fuel term s = Some r.
Proof.
  induction fuel as [|fuel IH]; intros term s Hu Hlen;
    destruct term as [|c rest]; cbn [calc_loop]; eauto.
  - cbn in Hlen. lia.
  - destruct (@calc_step_some c rest s Hu) as (r & Hr & Hstep). rewrite Hr.
    cbn [obind]. destruct r as [e t|(term', s')]; eauto.
    destruct Hstep as (Hu' & Hlen'). apply IH; trivial. cbn in Hlen. lia.
Qed.

Lemma calc_prepare_some (term : list Z) (old : Tokens) :
  units term -> exists e t, calc_prepare term old = Some (e, t).
Proof.
  intros Hu. unfold calc_prepare, calc_scan.
  destruct (@calc_loop_some (length term) term
              (mkPrep TT_NULL [] 0 (mkTokens [] (tok_num_list old))) Hu
              (le_n _)) as (r & ->).
  cbn [obind]. destruct (sbind r _); eauto.
Qed.

End Compiler.

(** ** The loops of the handlers exit in every well-formed state

    The redraws by [field_update], which the handlers leave out, are not
    covered here; see the section on drawing a Field. *)

Section Reachable.

Context {P : Platform}.

Lemma cstring_some (fuel : nat) :
  forall (b : mem) (i e : Z),
    i <= e -> b e = 0 -> e - i < Z.of_nat fuel ->
    exists l, cstring fuel b i = Some l.
Proof.
  induction fuel as [|fuel IH]; intros b i e Hie He Hfuel.
  - simpl in Hfuel. lia.
  - cbn [cstring]. destruct (Z.eqb_spec (b i) 0) as [Hz|Hz]; eauto.
    assert (i <> e) by congruence.
    destruct (IH b (i + 1) e) as (l & ->); trivial; try lia.
    cbn [obind]. eauto.
Qed.

Lemma cstring_bytes (n : nat) :
  forall (b : mem) (i : Z) (fuel : nat),
    (forall k, 0 <= k < Z.of_nat n -> b (i + k) <> 0) ->
    b (i + Z.of_nat n) = 0 -> (n < fuel)%nat ->
    cstring fuel b i = Some (bytes_at n b i).
Proof.
  induction n as [|n IH]; intros b i fuel Hnz Hz Hfuel;
    (destruct fuel as [|fuel]; [lia|]); cbn [cstring bytes_at].
  - rewrite Z.add_0_r in Hz. now rewrite Hz.
  - destruct (Z.eqb_spec (b i) 0) as [H0|H0].
    + exfalso. apply (Hnz 0); [lia|]. now rewrite Z.add_0_r.
    + rewrite (IH b (i + 1) fuel); trivial; try lia.
      * intros k Hk. replace (i + 1 + k) with (i + (k + 1)) by lia.
        apply Hnz. lia.
      * replace (i + 1 + Z.of_nat n) with (i + Z.of_nat (S n)) by lia.
        exact Hz.
Qed.

Lemma term_cstring (f : Field) :
  term_wf f ->
  exists term,
    cstring (Z.to_nat TERM_MAX_LEN) (buf f) 0 = Some term /\ units term.
Proof.
  intros (W & Hlen & Hmax). pose proof (wf_pos W) as Hp.
  exists (bytes_at (Z.to_nat (len f)) (buf f) 0). split; [|apply (wf_units W)].
  apply cstring_bytes.
  - intros k Hk. apply (wf_nonzero W). lia.
  - rewrite Z2Nat.id by lia. apply (wf_nul W).
  - unfold TERM_MAX_LEN. lia.
Qed.

Lemma mode_settings_total (a : App) :
  app_wf a -> exists a', mode_settings a = Some a'.
Proof.
  intros (_ & ((Hp1 & Hl1) & Hm1 & Hz1) & ((Hp2 & Hl2) & Hm2 & Hz2)).
  unfold mode_settings.
  destruct (@cstring_some (Z.to_nat FIELD_START_WIDTH) (buf (fld_start a)) 0
              (len (fld_start a))) as (s1 & ->);
    trivial; try (unfold FIELD_START_WIDTH; lia).
  destruct (@cstring_some (Z.to_nat FIELD_STEP_WIDTH) (buf (fld_step a)) 0
              (len (fld_step a))) as (s2 & ->);
    trivial; try (unfold FIELD_STEP_WIDTH; lia).
  cbn [obind]. eauto.
Qed.

Lemma mode_input_enter_total (a : App) :
  app_wf a -> exists a', mode_input_enter a = Some a'.
Proof.
  intros Hwf. pose proof Hwf as (Ht & _). unfold mode_input_enter.
  destruct (term_cstring Ht) as (term & -> & Hu). cbn [obind].
  destruct (@calc_prepare_some P term (compiled a) Hu) as (e & t & ->).
  cbn [obind].
  assert (app_wf (set_compiled a t)) as Hwf1 by exact Hwf.
  destruct (mode_settings_total Hwf1) as (as' & Hs).
  destruct (negb (e =? 0)); eauto.
  destruct (calc_solve t (of_Z 0) (of_Z 0)) as (err, y).
  repeat match goal with
  | |- context [if ?c then _ else _] => destruct c
  end; eauto.
Qed.

Lemma mode_input_event_total (key : KEY) (a : App) :
  app_wf a -> exists a', mode_input_event key a = Some a'.
Proof.
  intros Hwf. pose proof Hwf as (Ht & _).
  destruct key; cbn [mode_input_event]; eauto.
  - now apply mode_input_enter_total.
  - destruct (@term_wf_delete (fld_term a) (x_cnt a) Ht)
      as (f' & x' & -> & _).
    cbn [obind]. eauto.
  - destruct (@term_wf_mv_right (fld_term a) Ht) as (f' & -> & _).
    cbn [obind]. eauto.
  - destruct (@term_wf_mv_left (fld_term a) Ht) as (f' & -> & _).
    cbn [obind]. eauto.
Qed.

Lemma mode_settings_enter_total (a : App) :
  app_wf a -> exists a', mode_settings_enter a = Some a'.
Proof.
  intros (_ & ((Hp1 & Hl1) & Hm1 & Hz1) & ((Hp2 & Hl2) & Hm2 & Hz2)).
  unfold mode_settings_enter.
  destruct (@cstring_some (Z.to_nat FIELD_START_WIDTH) (buf (fld_start a)) 0
              (len (fld_start a))) as (s1 & ->);
    trivial; try (unfold FIELD_START_WIDTH; lia).
  cbn [obind]. cbv zeta.
  change (fld_step (set_tbl_start a (atof s1))) with (fld_step a).
  destruct (@cstring_some (Z.to_nat FIELD_STEP_WIDTH) (buf (fld_step a)) 0
              (len (fld_step a))) as (s2 & ->);
    trivial; try (unfold FIELD_STEP_WIDTH; lia).
  cbn [obind]. cbv zeta. destruct (feqb _ _); eauto.
Qed.

Lemma mode_settings_event_total (key : KEY) (a : App) :
  app_wf a -> exists a', mode_settings_event key a = Some a'.
Proof.
  intros Hwf. unfold mode_settings_event.
  destruct (@num_wf_number_event (cur_fld a) key (cur_fld_wf Hwf))
    as (f & -> & Hfw).
  cbn [obind]. cbv zeta.
  pose proof (set_cur_fld_wf Hwf Hfw) as Hwf1.
  destruct key; eauto.
  - now apply mode_settings_enter_total.
  - destruct (tbl_cur_fld (set_cur_fld a f)); eauto.
Qed.

Lemma dispatch_total (key : KEY) (a : App) :
  app_wf a -> exists a', dispatch key a = Some a'.
Proof.
  intros Hwf. unfold dispatch. destruct (_event a); eauto.
  - now apply mode_input_event_total.
  - unfold mode_result_event. apply mode_input_event_total.
    exact (same_fields_wf (mode_input_fields a) Hwf).
  - now apply mode_settings_event_total.
  - unfold mode_error_event. destruct (_mode a); eauto.
    now apply mode_settings_total.
Qed.

Lemma run_total (keys : list KEY) :
  forall a, app_wf a -> exists a', run keys a = Some a' /\ app_wf a'.
Proof.
  induction keys as [|k keys IH]; intros a Hwf; cbn [run]; eauto.
  destruct (dispatch_total k Hwf) as (a1 & H1). rewrite H1. cbn [obind].
  apply IH. exact (dispatch_wf k Hwf H1).
Qed.

(** C5 (the code at the failing input). The scans of [field_term_delete]
    and [field_term_mv_left] read the buffer below its first byte when a
    function name starts the term.  With a lower-case letter in the byte
    in front of the term buffer, the state after the sin key satisfies
    [0 <= position <= length < capacity] with the text sin( and the
    cursor at 4, and the delete key scans over s, i, n and that letter:
    it removes five characters from a text of four and leaves position
    and length at -1.  The move-left key scans the same way and leaves
    the position at -1. *)
Theorem delete_scans_below_the_term_buffer (m_start m_step : mem) :
  exists a f' x' g,
    run [KEY_SHIFT_0_0] (main letter_below m_start m_step) = Some a /\
    field_inv (fld_term a) /\ content (fld_term a) = _str_sin ++ [CHAR_LP] /\
    pos (fld_term a) = 4 /\
    field_term_delete (fld_term a) (x_cnt a) = Some (f', x') /\
    pos f' = -1 /\ len f' = -1 /\ ~ field_inv f' /\
    run [KEY_SHIFT_0_0; KEY_3_1] (main letter_below m_start m_step) =
      Some (set_x_cnt (set_fld_term a f') x') /\
    field_term_mv_left (fld_term a) = Some g /\
    pos g = -1 /\ ~ field_inv g.
Proof.
  eexists. eexists. eexists. eexists.
  split; [vm_compute; reflexivity|].
  split; [vm_compute; intuition discriminate|].
  split; [vm_compute; reflexivity|].
  split; [reflexivity|].
  split; [vm_compute; reflexivity|].
  split; [reflexivity|]. split; [reflexivity|].
  split; [intros ((H & _) & _); vm_compute in H; apply H; reflexivity|].
  split; [vm_compute; reflexivity|].
  split; [vm_compute; reflexivity|].
  split; [reflexivity|].
  intros ((H & _) & _). vm_compute in H. apply H. reflexivity.
Qed.

(** X25. When the byte in front of the term buffer is not a lower-case
    letter, every state the keys reach satisfies
    [0 <= position <= length < capacity] on the three Fields, and that
    byte is still no lower-case letter; there the loops of every Field
    operation (single character insert, function name insert, delete
    before the cursor, move left, move right, clear) exit, and the Field
    it leaves satisfies the invariant again. *)
Theorem the_invariant_holds_behind_a_guard_byte
        (m_term m_start m_step : mem) (keys : list KEY) (a : App) :
  islower (m_term (-1)) = false ->
  run keys (main m_term m_start m_step) = Some a ->
  (field_inv (fld_term a) /\ field_inv (fld_start a) /\
   field_inv (fld_step a)) /\
  islower (buf (fld_term a) (-1)) = false /\
  (forall c, field_inv (field_ins_chr (fld_term a) c)) /\
  (forall s n, 0 <= n -> field_inv (field_ins_str_P (fld_term a) s n)) /\
  (exists f' x',
     field_term_delete (fld_term a) (x_cnt a) = Some (f', x') /\
     field_inv f') /\
  (exists f', field_term_mv_left (fld_term a) = Some f' /\ field_inv f') /\
  (exists f', field_term_mv_right (fld_term a) = Some f' /\ field_inv f') /\
  field_inv (field_clear (fld_term a)) /\
  (forall f, f = fld_start a \/ f = fld_step a ->
     (forall c, field_inv (field_ins_chr f c)) /\
     (exists f', field_delete f = Some f' /\ field_inv f') /\
     field_inv (field_mv_left f) /\
     field_inv (field_mv_right f) /\
     field_inv (field_clear f)).
Proof.
  intros Hg Hrun.
  destruct (run_wf keys (main_wf m_term m_start m_step Hg) Hrun)
    as (Ht & Hs & Hp).
  pose proof (term_wf_inv Ht) as Hti.
  split; [|split; [|split; [|split; [|split; [|split; [|split; [|split]]]]]]].
  - split; [exact Hti|]. split; [apply Hs|apply Hp].
  - destruct Ht as (Hraw & _). apply Hraw.
  - intros c. now apply field_ins_chr_inv.
  - intros s n Hn. now apply field_ins_str_P_inv.
  - destruct (term_wf_delete (x_cnt a) Ht) as (f' & x' & Hd & Hw).
    exists f', x'. split; [exact Hd|now apply term_wf_inv].
  - destruct (term_wf_mv_left Ht) as (f' & Hm & Hw).
    exists f'. split; [exact Hm|now apply term_wf_inv].
  - destruct (term_wf_mv_right Ht) as (f' & Hm & Hw).
    exists f'. split; [exact Hm|now apply term_wf_inv].
  - now apply field_clear_inv.
  - intros f Hf.
    assert (num_wf f) as Hw by (destruct Hf as [->| ->]; trivial).
    pose proof Hw as (Hi & _).
    split; [|split; [|split; [|split]]].
    + intros c. now apply field_ins_chr_inv.
    + destruct (num_wf_delete Hw) as (f' & Hd & Hw').
      exists f'. split; [exact Hd|apply Hw'].
    + now apply field_mv_left_inv.
    + now apply field_mv_right_inv.
    + now apply field_clear_inv.
Qed.

End Reachable.

(** ** The mode controller *)

Section Modes.

Context {P : Platform}.

Lemma set_cur_fld_same (a : App) : set_cur_fld a (cur_fld a) = a.
Proof. unfold set_cur_fld, cur_fld. destruct a as [? ? ? ? []]; reflexivity. Qed.

Lemma mode_settings_some (a : App) (s1 s2 : list Z) :
  cstring (Z.to_nat FIELD_START_WIDTH) (buf (fld_start a)) 0 = Some s1 ->
  cstring (Z.to_nat FIELD_STEP_WIDTH) (buf (fld_step a)) 0 = Some s2 ->
  exists a', mode_settings a = Some a' /\ mode_of a' = Settings /\
             compiled a' = compiled a /\
             lcd a' = lcd a ++
               [lcd_clear; lcd_command true; lcd_string_P _str_start;
                lcd_string s1; lcd_cursor 0 1; lcd_string_P _str_step;
                lcd_string s2].
Proof.
  intros H1 H2. unfold mode_settings. rewrite H1, H2. cbn [obind].
  eexists. split; [reflexivity|]. repeat split.
Qed.

(** C2. On commit in Entry mode a compile error leads to Error.  Otherwise
    the stream is evaluated with 0 for the free variable; with a usage
    counter of zero an evaluation error leads to Error and success to
    Result with the value; with a nonzero counter success and a Math error
    both lead to Settings, and any other evaluation error leads to Error. *)
Theorem entry_commit :
  forall (a : App) (term s1 s2 : list Z) (err : Z) (t : Tokens),
    _event a = on_mode_input_event ->
    cstring (Z.to_nat TERM_MAX_LEN) (buf (fld_term a)) 0 = Some term ->
    cstring (Z.to_nat FIELD_START_WIDTH) (buf (fld_start a)) 0 = Some s1 ->
    cstring (Z.to_nat FIELD_STEP_WIDTH) (buf (fld_step a)) 0 = Some s2 ->
    calc_prepare term (compiled a) = Some (err, t) ->
    let a1 := set_compiled a t in
    let serr := fst (calc_solve t (of_Z 0) (of_Z 0)) in
    let y := snd (calc_solve t (of_Z 0) (of_Z 0)) in
    exists a', dispatch KEY_3_3 a = Some a' /\
      (err <> 0 -> a' = mode_error err a1 /\ mode_of a' = Error) /\
      (err = 0 -> x_cnt a = 0 -> serr <> 0 ->
         a' = mode_error serr a1 /\ mode_of a' = Error) /\
      (err = 0 -> x_cnt a = 0 -> serr = 0 ->
         a' = mode_result y a1 /\ mode_of a' = Result) /\
      (err = 0 -> x_cnt a <> 0 -> serr = 0 \/ serr = ERROR_MATH ->
         mode_settings a1 = Some a' /\ mode_of a' = Settings /\
         compiled a' = t) /\
      (err = 0 -> x_cnt a <> 0 -> serr <> 0 -> serr <> ERROR_MATH ->
         a' = mode_error serr a1 /\ mode_of a' = Error).
Proof.
  intros a term s1 s2 err t Hev Hterm Hs1 Hs2 Hc a1 serr y.
  unfold dispatch. rewrite Hev. cbn [mode_input_event].
  unfold mode_input_enter. rewrite Hterm. cbn [obind]. rewrite Hc.
  cbn [obind]. fold a1.
  destruct (mode_settings_some a1 Hs1 Hs2) as (as' & Hset & Hmode & Hcomp & _).
  destruct (Z.eqb_spec err 0) as [He|He]; cbn [negb].
  - subst serr y. destruct (calc_solve t (of_Z 0) (of_Z 0)) as (serr, y).
    cbn [fst snd]. change (x_cnt a1) with (x_cnt a).
    destruct (Z.eqb_spec (x_cnt a) 0) as [Hx|Hx]; cbn [negb].
    + destruct (Z.eqb_spec serr 0) as [Hs|Hs]; cbn [negb];
        (eexists; split; [reflexivity|]); repeat split; intros;
        try reflexivity; congruence.
    + destruct (Z.eqb_spec serr 0) as [Hs|Hs]; cbn [negb andb].
      * exists as'. split; [exact Hset|].
        repeat split; intros; trivial; congruence.
      * destruct (Z.eqb_spec serr ERROR_MATH) as [Hm|Hm]; cbn [negb].
        -- exists as'. split; [exact Hset|].
           repeat split; intros; trivial; congruence.
        -- eexists. split; [reflexivity|].
           repeat split; intros; try reflexivity; try congruence;
             match goal with
             | H : _ \/ _ |- _ => destruct H; congruence
             end.
  - eexists. split; [reflexivity|]. repeat split; intros;
      try reflexivity; congruence.
Qed.

Lemma mode_table_update_state (a : App) :
  _event (mode_table_update a) = _event a /\
  _mode (mode_table_update a) = _mode a /\
  compiled (mode_table_update a) = compiled a /\
  tbl_pos (mode_table_update a) = tbl_pos a /\
  tbl_start (mode_table_update a) = tbl_start a /\
  tbl_step (mode_table_update a) = tbl_step a.
Proof.
  unfold mode_table_update. destruct (calc_solve _ _ _) as (err, y).
  destruct (negb (err =? 0)); repeat split.
Qed.

Lemma mode_table_event_cases (key : KEY) (a : App) :
  mode_table_event key a =
    if mode_table_leaves key then mode_input a
    else match nav_position key (tbl_pos a) with
         | Some p => mode_table_update (set_tbl_pos a p)
         | None => a
         end.
Proof. destruct key; reflexivity. Qed.

Lemma mode_table_update_lcd (a : App) :
  lcd (mode_table_update a) =
    lcd a ++ table_rows (compiled a)
               (fadd (tbl_start a) (fmul (tbl_pos a) (tbl_step a))).
Proof.
  unfold mode_table_update, table_rows.
  destruct (calc_solve _ _ _) as (err, y). cbn [fst snd].
  destruct (err =? 0); cbn; now rewrite <- app_assoc.
Qed.

(** C4. Entering Table mode and every navigation key (position -10, -1,
    reset to 0, +1, +10) evaluate the retained stream at
    [x = start + position * step] and draw x, then y or, when the evaluation
    returns any error code, blanks and the ERROR marker; the handler stays
    the Table handler.  Only the dedicated key leaves Table mode, whatever
    the evaluation returned. *)
Theorem table_survives_evaluation_errors :
  forall (a : App),
    _event a = on_mode_table_event ->
    (forall key p,
       nav_position key (tbl_pos a) = Some p ->
       exists a',
         dispatch key a = Some a' /\ mode_of a' = Table /\
         tbl_pos a' = p /\ compiled a' = compiled a /\
         lcd a' = lcd a ++
           table_rows (compiled a) (fadd (tbl_start a) (fmul p (tbl_step a)))) /\
    (forall key a',
       dispatch key a = Some a' ->
       mode_of a' = Table \/ UNSHIFT key = key_code KEY_0_0) /\
    (forall b, mode_of (mode_table b) = Table /\
               tbl_pos (mode_table b) = of_Z 0 /\
               exists shown,
                 lcd (mode_table b) =
                   shown ++ table_rows (compiled b)
                              (fadd (tbl_start b)
                                 (fmul (of_Z 0) (tbl_step b)))) /\
    (forall t x, fst (calc_solve t x (of_Z 0)) <> 0 ->
       table_rows t x =
         [lcd_cursor 2 0; lcd_number x 14; lcd_cursor 2 1] ++
         repeat (lcd_data 32) (Z.to_nat (LCD_WIDTH - MSG_ERROR_LEN - 2)) ++
         [lcd_string_P _str_error]).
Proof.
  intros a Hev. split; [|split; [|split]].
  - intros key p Hp. unfold dispatch. rewrite Hev.
    rewrite mode_table_event_cases, Hp.
    assert (mode_table_leaves key = false) as ->
        by (destruct key; trivial; discriminate).
    eexists. split; [reflexivity|].
    destruct (mode_table_update_state (set_tbl_pos a p))
      as (He & _ & Hc & Hpos & _ & _).
    unfold mode_of. rewrite He, Hc, Hpos, mode_table_update_lcd. cbn.
    rewrite Hev. auto.
  - intros key a'. unfold dispatch. rewrite Hev. intros H.
    injection H as <-. rewrite mode_table_event_cases.
    destruct (mode_table_leaves key) eqn:El.
    + right. destruct key; try discriminate; reflexivity.
    + left. unfold mode_of.
      destruct (nav_position key (tbl_pos a)) as [p|].
      * destruct (mode_table_update_state (set_tbl_pos a p)) as (-> & _).
        cbn. now rewrite Hev.
      * now rewrite Hev.
  - intros b. unfold mode_table.
    match goal with
    | |- context [mode_table_update ?c] =>
        destruct (mode_table_update_state c) as (He & _ & _ & Hpos & _ & _);
        pose proof (mode_table_update_lcd c) as Hl
    end.
    unfold mode_of. rewrite He, Hpos. cbn. repeat split; trivial.
    eexists. rewrite Hl. cbn. reflexivity.
  - intros t x H. unfold table_rows.
    destruct (Z.eqb_spec (fst (calc_solve t x (of_Z 0))) 0); [contradiction|].
    reflexivity.
Qed.

(** C8. On commit in Settings mode the start value is what [atof] returns
    for the start field (0.0 when it parses nothing, a negative number when
    the field holds one) and the step is what it returns for the step
    field; a step equal to zero leads to Error with the Range message,
    any other step to Table with that start, that step and position 0. *)
Theorem settings_commit :
  forall (a : App) (s1 s2 : list Z),
    _event a = on_mode_settings_event ->
    cstring (Z.to_nat FIELD_START_WIDTH) (buf (fld_start a)) 0 = Some s1 ->
    cstring (Z.to_nat FIELD_STEP_WIDTH) (buf (fld_step a)) 0 = Some s2 ->
    exists a', dispatch KEY_3_3 a = Some a' /\
      tbl_start a' = atof s1 /\ tbl_step a' = atof s2 /\
      (feqb (atof s2) (of_Z 0) = true ->
         mode_of a' = Error /\
         lcd a' = lcd a ++
           [lcd_clear; lcd_command false; lcd_string_P _str_range_error;
            lcd_cursor 0 1; lcd_string_P _str_press_any_key]) /\
      (feqb (atof s2) (of_Z 0) = false ->
         mode_of a' = Table /\ tbl_pos a' = of_Z 0 /\
         a' = mode_table (set_tbl_step (set_tbl_start a (atof s1)) (atof s2))).
Proof.
  intros a s1 s2 Hev H1 H2. unfold dispatch. rewrite Hev.
  unfold mode_settings_event. cbn [field_number_event obind]. cbv zeta.
  rewrite set_cur_fld_same. unfold mode_settings_enter.
  rewrite H1. cbn [obind]. cbv zeta.
  change (fld_step (set_tbl_start a (atof s1))) with (fld_step a).
  rewrite H2. cbn [obind]. cbv zeta.
  change (tbl_step (set_tbl_step (set_tbl_start a (atof s1)) (atof s2)))
    with (atof s2).
  destruct (feqb (atof s2) (of_Z 0)).
  - eexists. split; [reflexivity|]. repeat split; intros; discriminate.
  - eexists. split; [reflexivity|].
    set (a2 := set_tbl_step (set_tbl_start a (atof s1)) (atof s2)).
    destruct (mode_table_update_state
                (show (set_event (set_tbl_pos a2 (of_Z 0)) on_mode_table_event)
                   [lcd_command false; lcd_cursor 0 0; lcd_data 88;
                    lcd_data 61; lcd_cursor 0 1; lcd_data 89; lcd_data 61]))
      as (He & _ & _ & Hpos & Hst & Hsp).
    unfold mode_table, mode_of. rewrite He, Hpos, Hst, Hsp.
    repeat split; intros; trivial; discriminate.
Qed.

End Modes.


(** * Beyond the data model: texts, display, keys and expressions *)

(** ** The text of a Field under the editing operations *)

Lemma bytes_at_length (n : nat) (b : mem) (i : Z) :
  length (bytes_at n b i) = n.
Proof. revert i. induction n as [|n IH]; intros i; cbn; auto. Qed.

Lemma content_split_at (f : Field) (p : Z) :
  0 <= p <= len f ->
  firstn (Z.to_nat p) (content f) = bytes_at (Z.to_nat p) (buf f) 0 /\
  skipn (Z.to_nat p) (content f) = bytes_at (Z.to_nat (len f - p)) (buf f) p.
Proof.
  intros Hp. unfold content.
  replace (Z.to_nat (len f)) with (Z.to_nat p + Z.to_nat (len f - p))%nat
    by lia.
  rewrite bytes_at_app, Z2Nat.id by lia. cbn [Z.add].
  pose proof (bytes_at_length (Z.to_nat p) (buf f) 0) as Hl.
  split.
  - rewrite firstn_app, Hl, Nat.sub_diag, firstn_O, app_nil_r.
    rewrite <- Hl at 1. apply firstn_all.
  - rewrite skipn_app, Hl, Nat.sub_diag. cbn [skipn].
    rewrite <- Hl at 1. now rewrite skipn_all.
Qed.

Lemma text_wf_inv (f : Field) : text_wf f -> field_inv f.
Proof. now intros (H & _). Qed.

(** The buffer after [field_ins_chr]. *)
Lemma field_ins_chr_buf (f : Field) (c : Z) :
  text_wf f -> len f + 1 < max f ->
  pos (field_ins_chr f c) = pos f + 1 /\
  len (field_ins_chr f c) = len f + 1 /\
  max (field_ins_chr f c) = max f /\
  forall j,
    buf (field_ins_chr f c) j =
      if j =? pos f then c
      else if (pos f <? j) && (j <=? len f + 1) then buf f (j - 1)
      else buf f j.
Proof.
  intros ((Hp & Hl) & Hm & Hnul & Hnz) Hroom. unfold field_ins_chr.
  destruct (Z.ltb_spec (len f + 1) (max f)); [|lia].
  pose proof (field_grow_buf f (n := 1) ltac:(lia) Hp Hnul Hnz) as Hg.
  destruct (field_grow_pos_len f 1) as (Hgp & Hgl & Hgm & _).
  cbn [pos len max buf set_pos set_buf]. rewrite Hgp, Hgl, Hgm.
  repeat split; trivial. intros j. unfold upd. rewrite Hg.
  zbool; simpl; trivial; lia.
Qed.

Lemma field_ins_chr_text (f : Field) (c : Z) :
  text_wf f -> c <> 0 -> len f + 1 < max f ->
  text_wf (field_ins_chr f c) /\
  content (field_ins_chr f c) =
    firstn (Z.to_nat (pos f)) (content f) ++
    c :: skipn (Z.to_nat (pos f)) (content f).
Proof.
  intros Hwf Hc Hroom.
  destruct (field_ins_chr_buf c Hwf Hroom) as (Hp' & Hl' & Hm' & Hb).
  destruct Hwf as ((Hp & Hl) & Hm & Hnul & Hnz).
  split.
  - split; [unfold field_inv; lia|]. split; [lia|]. split.
    + rewrite Hb, Hl'. zbool; simpl; try lia.
      now replace (len f + 1 - 1) with (len f) by lia.
    + intros i Hi. rewrite Hb. zbool; simpl; trivial; try lia.
      * apply Hnz. lia.
      * apply Hnz. lia.
  - destruct (@content_split_at f (pos f) Hp) as (-> & ->).
    unfold content. rewrite Hl'.
    replace (Z.to_nat (len f + 1))
      with (Z.to_nat (pos f) + (1 + Z.to_nat (len f - pos f)))%nat by lia.
    rewrite !bytes_at_app, Z2Nat.id by lia. cbn [bytes_at app Z.add Z.of_nat].
    f_equal; [|f_equal].
    + apply bytes_at_ext. intros k Hk. rewrite Hb. zbool; simpl; trivial; lia.
    + rewrite Hb. now rewrite Z.eqb_refl.
    + apply bytes_at_ext. intros k Hk. rewrite Hb.
      zbool; simpl; try lia. f_equal. lia.
Qed.

(** [field_shrink] on a text: the bytes from the cursor on move down. *)
Lemma field_shrink_text (f : Field) (n : Z) :
  text_wf f -> 0 < n ->
  exists f1,
    field_shrink f n = Some f1 /\
    pos f1 = pos f /\ len f1 = len f /\ max f1 = max f /\
    forall j,
      buf f1 j =
        if (pos f - n <=? j) && (j <? len f - n) then buf f (j + n)
        else buf f j.
Proof.
  intros ((Hp & Hl) & Hm & Hnul & Hnz) Hn. unfold field_shrink.
  destruct (Z.eqb_spec (buf f (pos f)) 0) as [Hz|Hz].
  - assert (pos f = len f) as Hpl.
    { destruct (Z.eq_dec (pos f) (len f)); trivial.
      exfalso. apply (Hnz (pos f)); [lia|exact Hz]. }
    exists f. repeat split; trivial. intros j. zbool; simpl; trivial; lia.
  - destruct (shrink_loop_spec (Z.to_nat (INT16_LIMIT - pos f)) (buf f)
                (i := pos f) (n := n) (e := len f)) as (b' & Hb' & Hj);
      trivial; try lia.
    + intros k Hk. apply Hnz. lia.
    + rewrite Hb'. cbn. eexists. split; [reflexivity|]. cbn. auto.
Qed.

(** Removing the [n] characters before the cursor, as [field_delete] and
    [field_term_delete] do after they have fixed [n]. *)
Lemma remove_before_cursor (f f1 : Field) (n : Z) :
  text_wf f -> 0 < n <= pos f ->
  pos f1 = pos f -> len f1 = len f -> max f1 = max f ->
  (forall j,
     buf f1 j =
       if (pos f - n <=? j) && (j <? len f - n) then buf f (j + n)
       else buf f j) ->
  let f2 := set_len (set_pos f1 (pos f1 - n)) (len f1 - n) in
  let f' := set_buf f2 (upd (buf f2) (len f2) 0) in
  text_wf f' /\ pos f' = pos f - n /\ len f' = len f - n /\
  max f' = max f /\
  content f' =
    firstn (Z.to_nat (pos f - n)) (content f) ++
    skipn (Z.to_nat (pos f)) (content f).
Proof.
  intros ((Hp & Hl) & Hm & Hnul & Hnz) Hn Hp1 Hl1 Hm1 Hb. cbv zeta.
  cbn [pos len max buf set_pos set_buf set_len]. rewrite Hp1, Hl1, Hm1.
  assert (forall j, j <= len f - n ->
            upd (buf f1) (len f - n) 0 j =
              if j <? pos f - n then buf f j else buf f (j + n)) as Hu.
  { intros j Hj. unfold upd. destruct (Z.eqb_spec j (len f - n)) as [->|Hne].
    - replace (len f - n + n) with (len f) by lia. rewrite Hnul.
      zbool; simpl; trivial; lia.
    - rewrite Hb. zbool; simpl; trivial; lia. }
  split; [|repeat split; trivial].
  - split; [unfold field_inv; cbn; lia|]. cbn. split; [lia|]. split.
    + apply upd_same.
    + intros i Hi. rewrite Hu by lia. zbool; apply Hnz; lia.
  - destruct (@content_split_at f (pos f - n) ltac:(lia)) as (-> & _).
    destruct (@content_split_at f (pos f) Hp) as (_ & ->).
    unfold content. cbn [pos len max buf set_pos set_buf set_len].
    rewrite ?Hp1, ?Hl1.
    replace (Z.to_nat (len f - n))
      with (Z.to_nat (pos f - n) + Z.to_nat (len f - pos f))%nat by lia.
    rewrite bytes_at_app, Z2Nat.id by lia. cbn [Z.add].
    f_equal; apply bytes_at_ext; intros k Hk; rewrite Hu by lia;
      zbool; simpl; trivial; try lia. f_equal. lia.
Qed.

Lemma field_delete_text (f : Field) :
  text_wf f -> 0 < pos f ->
  exists f',
    field_delete f = Some f' /\ text_wf f' /\
    pos f' = pos f - 1 /\ len f' = len f - 1 /\ max f' = max f /\
    content f' =
      firstn (Z.to_nat (pos f - 1)) (content f) ++
      skipn (Z.to_nat (pos f)) (content f).
Proof.
  intros Hwf Hp. unfold field_delete.
  destruct (Z.ltb_spec 0 (pos f)); [|lia].
  destruct (field_shrink_text (n := 1) Hwf) as (f1 & -> & Hp1 & Hl1 & Hm1 & Hb);
    [lia|].
  cbn [obind]. eexists. split; [reflexivity|].
  apply (@remove_before_cursor f f1 1 Hwf); trivial. lia.
Qed.

(** X1. [field_ins_chr] stores the character at the cursor and moves the cursor
    behind it; a Field that holds [max - 1] characters is left as it is. *)
Theorem field_ins_chr_inserts_at_the_cursor (f : Field) (c : Z) :
  text_wf f -> c <> 0 ->
  (len f + 1 < max f ->
     content (field_ins_chr f c) =
       firstn (Z.to_nat (pos f)) (content f) ++
       c :: skipn (Z.to_nat (pos f)) (content f) /\
     pos (field_ins_chr f c) = pos f + 1 /\
     text_wf (field_ins_chr f c)) /\
  (len f + 1 = max f -> field_ins_chr f c = f).
Proof.
  intros Hwf Hc. split.
  - intros Hroom. destruct (field_ins_chr_text Hwf Hc Hroom) as (Hw & Hcont).
    destruct (field_ins_chr_buf c Hwf Hroom) as (Hp & _).
    auto.
  - intros Hfull. unfold field_ins_chr.
    destruct (Z.ltb_spec (len f + 1) (max f)); [lia|reflexivity].
Qed.

(** X3. Deleting directly after inserting a character restores the text,
    the cursor and the length the Field had before. *)
Theorem insert_then_delete_restores_the_text (f : Field) (c : Z) :
  text_wf f -> c <> 0 -> len f + 1 < max f ->
  exists f',
    field_delete (field_ins_chr f c) = Some f' /\
    content f' = content f /\ pos f' = pos f /\ len f' = len f /\
    max f' = max f /\ buf f' (len f') = 0.
Proof.
  intros Hwf Hc Hroom.
  destruct (field_ins_chr_text Hwf Hc Hroom) as (Hw & Hcont).
  destruct (field_ins_chr_buf c Hwf Hroom) as (Hp & Hl & Hm & _).
  destruct (@field_delete_text (field_ins_chr f c) Hw ltac:(destruct Hwf as ((? & ?) & _); lia))
    as (f' & Hd & Hw' & Hp' & Hl' & Hm' & Hc').
  exists f'. split; [exact Hd|].
  destruct Hwf as ((Hpf & Hlf) & _).
  assert (length (firstn (Z.to_nat (pos f)) (content f)) = Z.to_nat (pos f))
    as Hlen.
  { rewrite length_firstn. unfold content. rewrite bytes_at_length. lia. }
  repeat split; try lia.
  - rewrite Hc', Hcont, Hp.
    replace (pos f + 1 - 1) with (pos f) by lia.
    rewrite firstn_app, Hlen, Nat.sub_diag, firstn_O, app_nil_r.
    rewrite firstn_firstn, Nat.min_id.
    replace (Z.to_nat (pos f + 1)) with (Z.to_nat (pos f) + 1)%nat by lia.
    rewrite skipn_app, Hlen.
    replace (Z.to_nat (pos f) + 1 - Z.to_nat (pos f))%nat with 1%nat by lia.
    cbn [skipn].
    rewrite (skipn_all2 (n := (Z.to_nat (pos f) + 1)%nat)) by (rewrite Hlen; lia).
    cbn [app]. apply firstn_skipn.
  - apply Hw'.
Qed.

(** X4. [field_mv_left] and [field_mv_right] change the cursor only and
    wrap around at the two ends of the text: left of position 0 is the
    end of the text and right of the end is position 0.  On every Field
    that satisfies the data-model invariant they keep it, and each undoes
    the other. *)
Theorem field_mv_left_and_right_are_inverse (f : Field) :
  field_inv f ->
  field_mv_left f = set_pos f (if pos f =? 0 then len f else pos f - 1) /\
  field_mv_right f = set_pos f (if pos f =? len f then 0 else pos f + 1) /\
  field_inv (field_mv_left f) /\ field_inv (field_mv_right f) /\
  field_mv_right (field_mv_left f) = f /\
  field_mv_left (field_mv_right f) = f.
Proof.
  intros (Hp & Hl). destruct f as [r c w b p l m]. cbn in Hp, Hl.
  unfold field_mv_left, field_mv_right, field_inv, set_pos.
  cbn [pos len max row col width buf].
  split; [|split; [|split; [|split; [|split]]]].
  - destruct (Z.ltb_spec 0 p), (Z.eqb_spec p 0); try lia; reflexivity.
  - destruct (Z.ltb_spec p l), (Z.eqb_spec p l); try lia; reflexivity.
  - destruct (Z.ltb_spec 0 p); cbn [pos len max]; lia.
  - destruct (Z.ltb_spec p l); cbn [pos len max]; lia.
  - destruct (Z.ltb_spec 0 p); cbn [pos len].
    + destruct (Z.ltb_spec (p - 1) l); [|lia]. f_equal. lia.
    + destruct (Z.ltb_spec l l); [lia|]. f_equal. lia.
  - destruct (Z.ltb_spec p l); cbn [pos len].
    + destruct (Z.ltb_spec 0 (p + 1)); [|lia]. f_equal. lia.
    + destruct (Z.ltb_spec 0 0); [lia|]. f_equal. lia.
Qed.

(** The buffer after [field_ins_str_P], for a string of [n] bytes. *)
Lemma field_ins_str_P_buf (f : Field) (s : list Z) :
  let n := Z.of_nat (length s) in
  text_wf f -> len f + n + 1 < max f ->
  pos (field_ins_str_P f s n) = pos f + n + 1 /\
  len (field_ins_str_P f s n) = len f + n + 1 /\
  max (field_ins_str_P f s n) = max f /\
  forall j,
    buf (field_ins_str_P f s n) j =
      if (pos f <=? j) && (j <? pos f + n) then nth (Z.to_nat (j - pos f)) s 0
      else if j =? pos f + n then CHAR_LP
      else if (pos f + n <? j) && (j <=? len f + n + 1)
           then buf f (j - (n + 1))
      else buf f j.
Proof.
  intros n ((Hp & Hl) & Hm & Hnul & Hnz) Hroom. unfold field_ins_str_P.
  assert (0 <= n) as Hn by (subst n; lia).
  destruct (Z.ltb_spec (len f + n + 1) (max f)); [|lia].
  pose proof (field_grow_buf f (n := n + 1) ltac:(lia) Hp Hnul Hnz) as Hg.
  destruct (field_grow_pos_len f (n + 1)) as (Hgp & Hgl & Hgm & _).
  destruct (ins_loop_fields (Z.to_nat n) (field_grow f (n + 1)) s)
    as (Hip & Hil & Him).
  rewrite Z2Nat.id in Hip by lia.
  cbn [pos len max buf set_pos set_buf].
  rewrite Hip, Hil, Him, Hgp, Hgl, Hgm.
  repeat split; try lia. intros j. unfold upd.
  rewrite ins_loop_buf, Hgp, Hg, Z2Nat.id by lia.
  zbool; simpl; trivial; lia.
Qed.

Lemma bytes_at_nth (s : list Z) (b : mem) (i : Z) :
  (forall k, 0 <= k < Z.of_nat (length s) ->
     b (i + k) = nth (Z.to_nat k) s 0) ->
  bytes_at (length s) b i = s.
Proof.
  revert i. induction s as [|c s IH]; intros i H; trivial.
  cbn [bytes_at length]. f_equal.
  - specialize (H 0). rewrite Z.add_0_r in H. apply H. cbn [length]. lia.
  - apply IH. intros k Hk. replace (i + 1 + k) with (i + (k + 1)) by lia.
    rewrite H by (cbn [length]; lia).
    replace (Z.to_nat (k + 1)) with (S (Z.to_nat k)) by lia. reflexivity.
Qed.

Lemma field_ins_str_P_text (f : Field) (s : list Z) :
  let n := Z.of_nat (length s) in
  text_wf f -> Forall (fun c => c <> 0) s -> len f + n + 1 < max f ->
  text_wf (field_ins_str_P f s n) /\
  content (field_ins_str_P f s n) =
    firstn (Z.to_nat (pos f)) (content f) ++
    s ++ CHAR_LP :: skipn (Z.to_nat (pos f)) (content f).
Proof.
  intros n Hwf Hs Hroom.
  destruct (field_ins_str_P_buf s Hwf Hroom) as (Hp' & Hl' & Hm' & Hb).
  fold n in Hp', Hl', Hm', Hb.
  destruct Hwf as ((Hp & Hl) & Hm & Hnul & Hnz).
  assert (0 <= n) as Hn by (subst n; lia).
  split.
  - split; [unfold field_inv; lia|]. split; [lia|]. split.
    + rewrite Hb, Hl'. zbool; simpl; try lia.
      now replace (len f + n + 1 - (n + 1)) with (len f) by lia.
    + intros i Hi. rewrite Hb. zbool; simpl; try lia; try discriminate;
        try (apply Hnz; lia).
      rewrite Forall_forall in Hs. apply Hs, nth_In. subst n. lia.
  - destruct (@content_split_at f (pos f) Hp) as (-> & ->).
    unfold content. rewrite Hl'.
    replace (Z.to_nat (len f + n + 1))
      with (Z.to_nat (pos f) + (length s + (1 + Z.to_nat (len f - pos f))))%nat
      by (subst n; lia).
    rewrite !bytes_at_app, Z2Nat.id by lia. cbn [bytes_at app Z.add Z.of_nat].
    f_equal; [|f_equal; [|f_equal]].
    + apply bytes_at_ext. intros k Hk. rewrite Hb. zbool; simpl; trivial; lia.
    + apply bytes_at_nth. intros k Hk. rewrite Hb. fold n in Hk.
      zbool; simpl; try lia. f_equal. lia.
    + rewrite Hb. fold n. zbool; simpl; trivial; lia.
    + apply bytes_at_ext. intros k Hk. rewrite Hb. fold n.
      zbool; simpl; try lia. f_equal. lia.
Qed.

(** X5. [field_ins_str_P] stores the name followed by an opening
    parenthesis at the cursor and moves the cursor behind the parenthesis;
    when the name and the parenthesis do not fit, the Field is left as it
    is. *)
Theorem field_ins_str_P_inserts_name_and_parenthesis (f : Field)
        (s : list Z) :
  text_wf f -> Forall (fun c => c <> 0) s ->
  Z.of_nat (length s) < 255 ->
  (len f + Z.of_nat (length s) + 1 < max f ->
     content (field_ins_str_P f s (Z.of_nat (length s))) =
       firstn (Z.to_nat (pos f)) (content f) ++
       s ++ CHAR_LP :: skipn (Z.to_nat (pos f)) (content f) /\
     pos (field_ins_str_P f s (Z.of_nat (length s))) =
       pos f + Z.of_nat (length s) + 1 /\
     text_wf (field_ins_str_P f s (Z.of_nat (length s)))) /\
  (max f <= len f + Z.of_nat (length s) + 1 ->
     field_ins_str_P f s (Z.of_nat (length s)) = f).
Proof.
  intros Hwf Hs _. split.
  - intros Hroom. destruct (field_ins_str_P_text Hwf Hs Hroom) as (Hw & Hc).
    destruct (field_ins_str_P_buf s Hwf Hroom) as (Hp & _). auto.
  - intros Hfull. unfold field_ins_str_P.
    destruct (Z.ltb_spec (len f + Z.of_nat (length s) + 1) (max f));
      [lia|reflexivity].
Qed.

(** The letters of the function names. *)
Lemma fn_names_lower (s : list Z) :
  In s fn_names ->
  0 < Z.of_nat (length s) <= 4 /\ Forall (fun c => islower c = true) s.
Proof.
  unfold fn_names. cbn [In]. intros H.
  repeat (destruct H as [<-|H]); try contradiction;
    (split; [cbn; lia|repeat constructor]).
Qed.

(** X6. One delete key after a function key removes the whole function
    name with its parenthesis: the text, the cursor and the length are as
    before the function key, and the usage counter is unchanged.  The
    character before the cursor must not be a lower-case letter (the scan
    of [field_term_delete] would run on through it). *)
Theorem function_name_is_deleted_as_a_unit (f : Field) (s : list Z)
        (x : Z) :
  text_wf f -> In s fn_names ->
  len f + Z.of_nat (length s) + 1 < max f ->
  islower (buf f (pos f - 1)) = false ->
  exists f',
    field_term_delete (field_ins_str_P f s (Z.of_nat (length s))) x
      = Some (f', x) /\
    content f' = content f /\ pos f' = pos f /\ len f' = len f /\
    max f' = max f /\ buf f' (len f') = 0.
Proof.
  intros Hwf Hin Hroom Hbefore.
  destruct (fn_names_lower Hin) as (Hlen & Hlow).
  assert (Forall (fun c => c <> 0) s) as Hnz.
  { rewrite Forall_forall in *. intros c Hc E. specialize (Hlow c Hc).
    subst c. discriminate. }
  destruct (field_ins_str_P_text Hwf Hnz Hroom) as (Hw & Hcont).
  destruct (field_ins_str_P_buf s Hwf Hroom) as (Hp & Hl & Hm & Hb).
  set (n := Z.of_nat (length s)) in *.
  set (g := field_ins_str_P f s n) in *.
  pose proof Hwf as ((Hpf & Hlf) & Hmf & _).
  unfold field_term_delete.
  destruct (Z.ltb_spec 0 (pos g)); [|lia]. cbv zeta.
  assert (buf g (pos g - 1) = CHAR_LP) as Ha.
  { rewrite Hb, Hp. zbool; simpl; trivial; lia. }
  rewrite Ha. change (CHAR_LP =? CHAR_X) with false.
  change (CHAR_LP =? CHAR_LP) with true. cbv iota.
  destruct (del_scan_spec 256 (buf g) (pos g) (q := pos f - 1) (n := 2))
    as (m & Hm' & Hmod); try lia.
  { intros i Hi. rewrite Hb. zbool; simpl; try lia.
    rewrite Forall_forall in Hlow. apply Hlow, nth_In. subst n. lia. }
  { rewrite Hb. zbool; simpl; trivial; lia. }
  rewrite Hm'. cbn [obind fst snd]. rewrite Hmod, Hp.
  replace (pos f + n + 1 - (pos f - 1) - 1) with (n + 1) by lia.
  destruct (field_shrink_text (n := n + 1) Hw) as (g1 & -> & Hp1 & Hl1 & Hm1 & Hb1);
    [lia|].
  cbn [obind]. eexists. split; [reflexivity|].
  destruct (@remove_before_cursor g g1 (n + 1) Hw ltac:(lia) Hp1 Hl1 Hm1 Hb1)
    as (Hw' & Hp' & Hl' & Hmx & Hc').
  repeat split; try lia; [|apply Hw'].
  rewrite Hc', Hcont, Hp.
  replace (pos f + n + 1 - (n + 1)) with (pos f) by lia.
  assert (length (firstn (Z.to_nat (pos f)) (content f)) = Z.to_nat (pos f))
    as Hlen'.
  { rewrite length_firstn. unfold content. rewrite bytes_at_length. lia. }
  rewrite firstn_app, Hlen', Nat.sub_diag, firstn_O, app_nil_r.
  rewrite firstn_firstn, Nat.min_id.
  replace (Z.to_nat (pos f + n + 1))
    with (Z.to_nat (pos f) + (length s + 1))%nat by (subst n; lia).
  rewrite skipn_app, Hlen'.
  replace (Z.to_nat (pos f) + (length s + 1) - Z.to_nat (pos f))%nat
    with (length s + 1)%nat by lia.
  rewrite skipn_all2 by (rewrite Hlen'; lia). cbn [app].
  change (s ++ CHAR_LP :: ?l) with (s ++ [CHAR_LP] ++ l).
  rewrite app_assoc, skipn_app.
  rewrite skipn_all2 by (rewrite length_app; cbn; lia).
  rewrite length_app. cbn [length app].
  replace (length s + 1 - (length s + 1))%nat with 0%nat by lia.
  cbn [skipn]. apply firstn_skipn.
Qed.

Section Display.

Context {P : Platform}.

(** ** Drawing a Field *)

Lemma int8_succ (i : Z) :
  -128 <= i <= 127 -> int8 (i + 1) = if i =? 127 then -128 else i + 1.
Proof.
  intros Hi. unfold int8. destruct (Z.eqb_spec i 127) as [->|Hne];
    [reflexivity|].
  rewrite Z.mod_small by lia. lia.
Qed.

Lemma int8_id (i : Z) : -128 <= i <= 127 -> int8 i = i.
Proof. intros Hi. unfold int8. rewrite Z.mod_small by lia. lia. Qed.

Lemma int8_range (z : Z) : -128 <= int8 z <= 127.
Proof.
  unfold int8. pose proof (Z.mod_pos_bound (z + 128) 256 ltac:(lia)). lia.
Qed.

Lemma update_text_spec (n : nat) :
  forall (b : mem) (i : Z) (fuel : nat),
    -128 <= i -> i + Z.of_nat n <= 127 ->
    (forall k, 0 <= k < Z.of_nat n -> b (i + k) <> 0) ->
    b (i + Z.of_nat n) = 0 -> (n < fuel)%nat ->
    update_text fuel b i =
      Some (map lcd_data (bytes_at n b i), i + Z.of_nat n).
Proof.
  induction n as [|n IH]; intros b i fuel Hi Hmax Hnz Hz Hfuel;
    (destruct fuel as [|fuel]; [lia|]); cbn [update_text bytes_at map].
  - rewrite Z.add_0_r in Hz. rewrite Hz. cbn. now rewrite Z.add_0_r.
  - destruct (Z.eqb_spec (b i) 0) as [E|_].
    { exfalso. apply (Hnz 0); [lia|]. now rewrite Z.add_0_r. }
    rewrite int8_succ by lia.
    destruct (Z.eqb_spec i 127); [lia|].
    rewrite (IH b (i + 1) fuel); try lia.
    + cbn. do 2 f_equal. lia.
    + intros k Hk. replace (i + 1 + k) with (i + (k + 1)) by lia.
      apply Hnz. lia.
    + replace (i + 1 + Z.of_nat n) with (i + Z.of_nat (S n)) by lia.
      exact Hz.
Qed.

Lemma update_pad_spec (k : nat) :
  forall (w i : Z) (fuel : nat),
    -128 <= i -> w <= 127 -> Z.of_nat k = Z.max 0 (w - i) ->
    (k < fuel)%nat ->
    update_pad fuel w i = Some (repeat (lcd_data 32) k).
Proof.
  induction k as [|k IH]; intros w i fuel Hi Hw Hk Hfuel;
    (destruct fuel as [|fuel]; [lia|]); cbn [update_pad repeat].
  - destruct (Z.ltb_spec i w); [lia|reflexivity].
  - destruct (Z.ltb_spec i w); [|lia].
    rewrite int8_succ by lia. destruct (Z.eqb_spec i 127); [lia|].
    rewrite (IH w (i + 1) fuel); trivial; lia.
Qed.

Lemma update_window_spec (n : nat) :
  forall (b : mem) (p i : Z) (fuel : nat),
    -128 <= i -> i + Z.of_nat n <= 127 ->
    (forall k, 0 <= k < Z.of_nat n -> b (i + k) <> 0) ->
    i + Z.of_nat n <= p + 1 ->
    i + Z.of_nat n = p + 1 \/ b (i + Z.of_nat n) = 0 ->
    (n < fuel)%nat ->
    update_window fuel b p i = Some (map lcd_data (bytes_at n b i)).
Proof.
  induction n as [|n IH]; intros b p i fuel Hi Hmax Hnz Hp Hstop Hfuel;
    (destruct fuel as [|fuel]; [lia|]); cbn [update_window bytes_at map].
  - rewrite Z.add_0_r in Hstop. destruct Hstop as [E|E].
    + destruct (Z.ltb_spec i (p + 1)); [lia|reflexivity].
    + rewrite E. now rewrite andb_false_r.
  - destruct (Z.ltb_spec i (p + 1)); [|lia].
    destruct (Z.eqb_spec (b i) 0) as [E|_].
    { exfalso. apply (Hnz 0); [lia|]. now rewrite Z.add_0_r. }
    cbn [negb andb]. rewrite int8_succ by lia.
    destruct (Z.eqb_spec i 127); [lia|].
    rewrite (IH b p (i + 1) fuel); trivial; try lia.
    + intros k Hk. replace (i + 1 + k) with (i + (k + 1)) by lia.
      apply Hnz. lia.
    + replace (i + 1 + Z.of_nat n) with (i + Z.of_nat (S n)) by lia.
      exact Hstop.
Qed.

(** What [field_update] sends to the display for a short text. *)
Lemma field_update_spec (f : Field) :
  text_wf f -> len f <= 127 -> 1 <= width f <= 127 ->
  field_update f =
    Some
      (if pos f <? width f - 1 then
         lcd_cursor (col f) (row f)
         :: map lcd_data (content f)
            ++ repeat (lcd_data 32) (Z.to_nat (width f - len f))
            ++ [lcd_cursor (col f + pos f) (row f)]
       else
         [lcd_cursor (col f + width f - 1) (row f); lcd_data 32;
          lcd_cursor (col f) (row f)]
         ++ map lcd_data
              (skipn (Z.to_nat (pos f - (width f - 1)))
                 (firstn (Z.to_nat (pos f + 1)) (content f)))
         ++ [lcd_cursor (col f + width f - 1) (row f)]).
Proof.
  intros ((Hp & Hl) & Hm & Hnul & Hnz) Hlen Hw. unfold field_update.
  destruct (Z.ltb_spec (pos f) (width f - 1)).
  - rewrite (@update_text_spec (Z.to_nat (len f)) (buf f) 0 256);
      try lia.
    + cbn [obind fst snd]. rewrite Z2Nat.id by lia. cbn [Z.add].
      rewrite (@update_pad_spec (Z.to_nat (width f - len f)) (width f)
                 (len f) 256); try lia.
      reflexivity.
    + intros k Hk. apply Hnz. lia.
    + rewrite Z2Nat.id by lia. exact Hnul.
  - rewrite int8_id by lia.
    set (i := pos f - (width f - 1)).
    set (n := Z.to_nat (Z.min (pos f + 1) (len f) - i)).
    rewrite (@update_window_spec n (buf f) (pos f) i 256); subst n i;
      try lia.
    + cbn [obind]. do 4 f_equal.
      unfold content.
      assert (firstn (Z.to_nat (pos f + 1))
                (bytes_at (Z.to_nat (len f)) (buf f) 0) =
              bytes_at (Z.to_nat (Z.min (pos f + 1) (len f))) (buf f) 0) as ->.
      { destruct (Z_lt_dec (pos f) (len f)).
        - rewrite Z.min_l by lia.
          replace (Z.to_nat (len f))
            with (Z.to_nat (pos f + 1) + Z.to_nat (len f - (pos f + 1)))%nat
            by lia.
          rewrite bytes_at_app, firstn_app, bytes_at_length, Nat.sub_diag.
          rewrite firstn_O, app_nil_r. apply firstn_all2.
          rewrite bytes_at_length. lia.
        - rewrite Z.min_r by lia. apply firstn_all2.
          rewrite bytes_at_length. lia. }
      replace (Z.to_nat (Z.min (pos f + 1) (len f)))
        with (Z.to_nat (pos f - (width f - 1)) +
              Z.to_nat (Z.min (pos f + 1) (len f) - (pos f - (width f - 1))))%nat
        by lia.
      rewrite bytes_at_app, skipn_app, bytes_at_length, Nat.sub_diag.
      rewrite skipn_all2 by (rewrite bytes_at_length; lia).
      cbn [skipn app]. rewrite Z2Nat.id by lia. reflexivity.
    + intros k Hk. apply Hnz. lia.
    + destruct (Z_lt_dec (pos f) (len f)).
      * left. lia.
      * right. rewrite Z2Nat.id by lia.
        replace (pos f - (width f - 1) +
                 (Z.min (pos f + 1) (len f) - (pos f - (width f - 1))))
          with (len f) by lia.
        exact Hnul.
Qed.

(** X7. For a text of at most 127 characters in a field at most 127 columns
    wide, [field_update] returns.  With the cursor left of the last column
    it draws the whole text from the first column of the field, blanks up
    to the width of the field, and puts the cursor at its column; the
    text is not clipped when it is longer than the field.  Otherwise it
    blanks the last column, draws the characters up to and including the
    one at the cursor so that the cursor stands in the last column, and
    puts the cursor there. *)
Theorem field_update_draws_the_text (f : Field) :
  text_wf f -> len f <= 127 -> 1 <= width f <= 127 ->
  field_update f =
    Some
      (if pos f <? width f - 1 then
         lcd_cursor (col f) (row f)
         :: map lcd_data (content f)
            ++ repeat (lcd_data 32) (Z.to_nat (width f - len f))
            ++ [lcd_cursor (col f + pos f) (row f)]
       else
         [lcd_cursor (col f + width f - 1) (row f); lcd_data 32;
          lcd_cursor (col f) (row f)]
         ++ map lcd_data
              (skipn (Z.to_nat (pos f - (width f - 1)))
                 (firstn (Z.to_nat (pos f + 1)) (content f)))
         ++ [lcd_cursor (col f + width f - 1) (row f)]).
Proof. exact (field_update_spec (f := f)). Qed.


(** *** Texts of 128 characters and more *)

Lemma update_text_none (b : mem) :
  (forall i, -128 <= i <= 127 -> b i <> 0) ->
  forall (fuel : nat) (i : Z),
    -128 <= i <= 127 -> update_text fuel b i = None.
Proof.
  intros Hnz. induction fuel as [|fuel IH]; intros i Hi; [reflexivity|].
  cbn [update_text]. destruct (Z.eqb_spec (b i) 0) as [E|_].
  - now apply Hnz in E.
  - rewrite IH by apply int8_range. reflexivity.
Qed.

Lemma update_window_none (b : mem) (p : Z) :
  (forall i, -128 <= i <= 127 -> b i <> 0) -> 127 <= p ->
  forall (fuel : nat) (i : Z),
    -128 <= i <= 127 -> update_window fuel b p i = None.
Proof.
  intros Hnz Hp. induction fuel as [|fuel IH]; intros i Hi; [reflexivity|].
  cbn [update_window]. destruct (Z.ltb_spec i (p + 1)); [|lia].
  destruct (Z.eqb_spec (b i) 0) as [E|_].
  - now apply Hnz in E.
  - cbn [negb andb]. rewrite IH by apply int8_range. reflexivity.
Qed.

Lemma int8_step (i j : Z) :
  -128 <= i <= 127 -> -128 <= j <= 127 -> i <> j ->
  (j - int8 (i + 1)) mod 256 = (j - i) mod 256 - 1.
Proof.
  intros Hi Hj Hne. rewrite int8_succ by exact Hi.
  destruct (Z.eqb_spec i 127) as [->|_]; Z.div_mod_to_equations; lia.
Qed.

Lemma update_text_some (b : mem) (j : Z) :
  -128 <= j <= 127 -> b j = 0 ->
  forall (fuel : nat) (i : Z),
    -128 <= i <= 127 -> (j - i) mod 256 < Z.of_nat fuel ->
    exists ops i',
      update_text fuel b i = Some (ops, i') /\ -128 <= i' <= 127.
Proof.
  intros Hj Hz. induction fuel as [|fuel IH]; intros i Hi Hd.
  - pose proof (Z.mod_pos_bound (j - i) 256 ltac:(lia)). cbn in Hd. lia.
  - cbn [update_text]. destruct (Z.eqb_spec (b i) 0) as [E|E]; [eauto|].
    assert (i <> j) as Hne by congruence.
    destruct (IH (int8 (i + 1))) as (ops & i' & -> & Hi');
      [apply int8_range|rewrite int8_step by trivial; lia|].
    cbn [obind fst snd]. eauto.
Qed.

Lemma update_window_some (b : mem) (p j : Z) :
  -128 <= j <= 127 -> b j = 0 ->
  forall (fuel : nat) (i : Z),
    -128 <= i <= 127 -> (j - i) mod 256 < Z.of_nat fuel ->
    exists ops, update_window fuel b p i = Some ops.
Proof.
  intros Hj Hz. induction fuel as [|fuel IH]; intros i Hi Hd.
  - pose proof (Z.mod_pos_bound (j - i) 256 ltac:(lia)). cbn in Hd. lia.
  - cbn [update_window].
    destruct ((i <? p + 1) && negb (b i =? 0)) eqn:Ec; [|eauto].
    apply andb_true_iff in Ec as (_ & Eb).
    assert (i <> j) as Hne.
    { intros ->. rewrite Hz in Eb. discriminate. }
    destruct (IH (int8 (i + 1))) as (ops & ->);
      [apply int8_range|rewrite int8_step by trivial; lia|].
    cbn [obind]. eauto.
Qed.

(** X8. With a text of 128 characters or more and the cursor left of the last
    column of the field or at position 127 or beyond, the [int8_t] counter
    of [field_update] wraps and the loop reads the 128 bytes below the
    buffer: the routine returns if one of them is NUL and never returns
    if none is. *)
Theorem field_update_reads_below_a_long_text (f : Field) :
  text_wf f -> 128 <= len f -> 1 <= width f <= 127 ->
  pos f < width f - 1 \/ 127 <= pos f ->
  ((forall j, -128 <= j < 0 -> buf f j <> 0) -> field_update f = None) /\
  (forall j, -128 <= j < 0 -> buf f j = 0 ->
     exists ops, field_update f = Some ops).
Proof.
  intros ((Hp & Hl) & Hm & Hnul & Hnz) Hlen Hw Hpos. split.
  - intros Hbelow.
    assert (forall i, -128 <= i <= 127 -> buf f i <> 0) as Hall.
    { intros i Hi. destruct (Z_lt_dec i 0); [apply Hbelow|apply Hnz]; lia. }
    unfold field_update. destruct (Z.ltb_spec (pos f) (width f - 1)).
    + now rewrite (update_text_none _ Hall) by lia.
    + rewrite (update_window_none _ Hall) by (try apply int8_range; lia).
      reflexivity.
  - intros j Hj Hz. unfold field_update.
    destruct (Z.ltb_spec (pos f) (width f - 1)).
    + destruct (@update_text_some (buf f) j ltac:(lia) Hz 256 0)
        as (ops & i' & -> & Hi'); [lia| |].
      { pose proof (Z.mod_pos_bound (j - 0) 256 ltac:(lia)). lia. }
      cbn [obind fst snd].
      rewrite (@update_pad_spec (Z.to_nat (Z.max 0 (width f - i')))
                 (width f) i' 256); try lia.
      cbn [obind]. eauto.
    + destruct (@update_window_some (buf f) (pos f) j ltac:(lia) Hz 256
                  (int8 (pos f - (width f - 1)))) as (ops & ->).
      * apply int8_range.
      * pose proof (Z.mod_pos_bound (j - int8 (pos f - (width f - 1))) 256
                      ltac:(lia)). lia.
      * cbn [obind]. eauto.
Qed.

End Display.

(** ** The key scanning interrupt *)

Module KeyScanFacts.

Import KeyScan.

Lemma land_1_bit (a : Z) : Z.land a 1 = if Z.testbit a 0 then 1 else 0.
Proof.
  change 1 with (Z.ones 1) at 1. rewrite Z.land_ones by lia.
  rewrite <- Z.bit0_mod. now destruct (Z.testbit a 0).
Qed.

Lemma bit_test (states i : Z) :
  0 <= i ->
  negb (Z.land (Z.shiftr states i) 1 =? 0) = Z.testbit states i.
Proof.
  intros Hi. rewrite land_1_bit, Z.shiftr_spec by lia. cbn [Z.add].
  now destruct (Z.testbit states i).
Qed.

Lemma shift_test (pinb : Z) :
  (Z.land (Z.shiftr pinb PIN_SHIFT) 1 =? 0) = negb (Z.testbit pinb PIN_SHIFT).
Proof.
  rewrite land_1_bit, Z.shiftr_spec by lia. cbn [Z.add].
  now destruct (Z.testbit pinb PIN_SHIFT).
Qed.

(** The decoding loop finds the lowest bit that is set among the [n] bits
    from [i] on. *)
Lemma find_key_spec (n : nat) :
  forall (states pinb i : Z),
    0 <= i ->
    (find_key n states pinb i = KEY_NULL /\
     forall j, i <= j < i + Z.of_nat n -> Z.testbit states j = false) \/
    (exists k,
       i <= k < i + Z.of_nat n /\ Z.testbit states k = true /\
       (forall j, i <= j < k -> Z.testbit states j = false) /\
       find_key n states pinb i =
         if Z.testbit pinb PIN_SHIFT then k else k + 16).
Proof.
  induction n as [|n IH]; intros states pinb i Hi.
  - left. split; [reflexivity|]. intros j Hj. cbn in Hj. lia.
  - cbn [find_key]. rewrite bit_test, shift_test by exact Hi.
    destruct (Z.testbit states i) eqn:Eb.
    + right. exists i. split; [lia|]. split; [exact Eb|]. split.
      * intros j Hj. lia.
      * now destruct (Z.testbit pinb PIN_SHIFT).
    + destruct (IH states pinb (i + 1)) as [(Hk & Hz)|(k & Hk & Hb & Hz & Hf)];
        [lia| |].
      * left. split; [exact Hk|]. intros j Hj.
        destruct (Z.eq_dec j i) as [->|]; trivial. apply Hz. lia.
      * right. exists k. split; [lia|]. split; [exact Hb|]. split.
        -- intros j Hj. destruct (Z.eq_dec j i) as [->|]; trivial.
           apply Hz. lia.
        -- exact Hf.
Qed.

(** The key is [KEY_NULL] or one of the codes 0..31. *)
Lemma find_key_range (states pinb : Z) :
  find_key 16 states pinb 0 = KEY_NULL \/
  0 <= find_key 16 states pinb 0 < 32.
Proof.
  destruct (find_key_spec 16 states pinb (i := 0)) as [(H & _)|(k & Hk & _ & _ & ->)];
    [lia|now left|].
  right. cbn in Hk. destruct (Z.testbit pinb PIN_SHIFT); lia.
Qed.

(** *** The registers, by enumeration of their 256 values *)

Lemma range_check (f : Z -> bool) (n : nat) :
  forallb f (map Z.of_nat (seq 0 n)) = true ->
  forall d, 0 <= d < Z.of_nat n -> f d = true.
Proof.
  intros H d Hd. rewrite forallb_forall in H. apply H.
  apply in_map_iff. exists (Z.to_nat d). split; [lia|].
  apply in_seq. lia.
Qed.

Lemma drive_next (d a b : Z) :
  0 <= d < 256 -> Z.land d 15 = 0 ->
  (a = 3 /\ b = 0) \/ (a = 0 /\ b = 1) \/ (a = 1 /\ b = 2) \/
    (a = 2 /\ b = 3) ->
  Z.lor (Z.land d (Z.lnot (Z.shiftl 1 a)) mod 256) (Z.shiftl 1 b) mod 256
    = Z.lor d (Z.shiftl 1 b) /\
  Z.lor (Z.land (Z.lor d (Z.shiftl 1 a)) (Z.lnot (Z.shiftl 1 a)) mod 256)
      (Z.shiftl 1 b) mod 256
    = Z.lor d (Z.shiftl 1 b).
Proof.
  intros Hd Hlow Hab.
  pose (f := fun a b d =>
    negb (Z.land d 15 =? 0) ||
    ((Z.lor (Z.land d (Z.lnot (Z.shiftl 1 a)) mod 256) (Z.shiftl 1 b) mod 256
        =? Z.lor d (Z.shiftl 1 b)) &&
     (Z.lor (Z.land (Z.lor d (Z.shiftl 1 a)) (Z.lnot (Z.shiftl 1 a)) mod 256)
         (Z.shiftl 1 b) mod 256
        =? Z.lor d (Z.shiftl 1 b)))).
  assert (f a b d = true) as H.
  { destruct Hab as [(-> & ->)|[(-> & ->)|[(-> & ->)|(-> & ->)]]];
      apply (@range_check (f _ _) 256); trivial; vm_compute; reflexivity. }
  unfold f in H. rewrite Hlow in H. cbn [Z.eqb negb orb] in H.
  apply andb_true_iff in H as (H1 & H2).
  apply Z.eqb_eq in H1, H2. auto.
Qed.

End KeyScanFacts.

Module KeyScanPass.
Import KeyScan KeyScanFacts.

Lemma lor_bound (n a b : Z) :
  0 <= n -> 0 <= a < 2 ^ n -> 0 <= b < 2 ^ n -> 0 <= Z.lor a b < 2 ^ n.
Proof.
  intros Hn Ha Hb.
  assert (Z.lor a b = Z.lor a b mod 2 ^ n) as ->.
  { rewrite <- Z.land_ones, Z.land_lor_distr_l, !Z.land_ones by lia.
    now rewrite !Z.mod_small by lia. }
  apply Z.mod_pos_bound. lia.
Qed.

Lemma nibble_bound (c k : Z) :
  k = 0 \/ k = 4 \/ k = 8 \/ k = 12 ->
  0 <= Z.shiftl (Z.land c 15) k < 65536.
Proof.
  intros Hk. change 15 with (Z.ones 4). rewrite Z.land_ones by lia.
  pose proof (Z.mod_pos_bound c (2 ^ 4) ltac:(lia)) as Hc.
  change (2 ^ 4) with 16 in *.
  destruct Hk as [ -> | [ -> | [ -> | -> ] ] ]; rewrite Z.shiftl_mul_pow2 by lia; lia.
Qed.

Lemma collect (a c k : Z) :
  0 <= a < 65536 -> k = 0 \/ k = 4 \/ k = 8 \/ k = 12 ->
  Z.lor a (Z.shiftl (Z.land c 15) k) mod 65536 =
    Z.lor a (Z.shiftl (Z.land c 15) k) /\
  0 <= Z.lor a (Z.shiftl (Z.land c 15) k) < 65536.
Proof.
  intros Ha Hk. pose proof (nibble_bound c Hk) as Hc.
  pose proof (@lor_bound 16 a (Z.shiftl (Z.land c 15) k) ltac:(lia) Ha Hc) as H.
  change (2 ^ 16) with 65536 in H. split; [|exact H].
  now apply Z.mod_small.
Qed.

(** An interrupt that does not complete a pass only collects a column. *)
Lemma tick_collects (pinc pinb : Z) (s : State) :
  t s = 0 \/ t s = 1 \/ t s = 2 ->
  TIMER2_COMPA_vect pinc pinb s =
    (mkState (last_key s) (t s + 1)
       (if (lt s + 1) mod 256 =? 4 then 0 else (lt s + 1) mod 256)
       (Z.lor (key_states s) (Z.shiftl (Z.land pinc 15) (4 * lt s))
          mod 65536)
       (Z.lor (Z.land (DDRB s) (Z.lnot (Z.shiftl 1 (lt s))) mod 256)
          (Z.shiftl 1 (t s)) mod 256)
       (Z.lor (Z.land (PORTB s) (Z.lnot (Z.shiftl 1 (lt s))) mod 256)
          (Z.shiftl 1 (t s)) mod 256),
     None).
Proof.
  destruct s as [lk t0 lt0 ks d q]. cbn [t]. unfold TIMER2_COMPA_vect.
  cbn [last_key t lt key_states DDRB PORTB].
  intros [ -> | [ -> | -> ] ]; reflexivity.
Qed.

(** The fourth interrupt of a pass decodes the matrix. *)
Lemma tick_decodes (pinc pinb : Z) (s : State) :
  t s = 3 ->
  TIMER2_COMPA_vect pinc pinb s =
    (let states :=
       Z.lor (key_states s) (Z.shiftl (Z.land pinc 15) (4 * lt s))
         mod 65536 in
     let key := find_key 16 states pinb 0 in
     (mkState key 0
        (if (lt s + 1) mod 256 =? 4 then 0 else (lt s + 1) mod 256) 0
        (Z.lor (Z.land (DDRB s) (Z.lnot (Z.shiftl 1 (lt s))) mod 256)
           (Z.shiftl 1 (t s)) mod 256)
        (Z.lor (Z.land (PORTB s) (Z.lnot (Z.shiftl 1 (lt s))) mod 256)
           (Z.shiftl 1 (t s)) mod 256),
      if negb (key =? last_key s) && (last_key s =? KEY_NULL)
      then Some (key mod 256) else None)).
Proof.
  destruct s as [lk t0 lt0 ks d q]. cbn [t]. unfold TIMER2_COMPA_vect.
  cbn [last_key t lt key_states DDRB PORTB]. intros ->. reflexivity.
Qed.

Lemma pass_states (s : State) (p : Pass) :
  at_rest s ->
  exists d q,
    scan (readings p) s =
      (let key := find_key 16 (keys_down p) (snd (snd p)) 0 in
       if negb (key =? last_key s) && (last_key s =? KEY_NULL)
       then [key mod 256] else [],
       mkState (find_key 16 (keys_down p) (snd (snd p)) 0) 0 3 0 d q).
Proof.
  destruct s as [lk t0 lt0 ks d q]. intros (Ht & Hlt & Hks). cbn in Ht, Hlt, Hks.
  subst. destruct p as [[[[c3 b3] [c0 b0]] [c1 b1]] [c2 b2]].
  unfold readings, keys_down, matrix. cbn [fst snd scan].
  rewrite tick_collects by (cbn; auto).
  cbn [last_key t lt key_states DDRB PORTB].
  rewrite tick_collects by (cbn; auto).
  cbn [last_key t lt key_states DDRB PORTB].
  rewrite tick_collects by (cbn; auto).
  cbn [last_key t lt key_states DDRB PORTB].
  rewrite tick_decodes by reflexivity.
  cbn [last_key t lt key_states DDRB PORTB].
  repeat first
    [ progress change ((3 + 1) mod 256 =? 4) with true
    | progress change ((0 + 1) mod 256 =? 4) with false
    | progress change ((0 + 1) mod 256) with 1
    | progress change ((1 + 1) mod 256 =? 4) with false
    | progress change ((1 + 1) mod 256) with 2
    | progress change ((2 + 1) mod 256 =? 4) with false
    | progress change ((2 + 1) mod 256) with 3
    | progress cbv iota ].
  change (4 * 3) with 12. change (4 * 0) with 0. change (4 * 1) with 4.
  change (4 * 2) with 8.
  destruct (@collect 0 c3 12) as (E1 & B1); [lia|auto|].
  rewrite E1. rewrite Z.lor_0_l in *.
  destruct (@collect (Z.shiftl (Z.land c3 15) 12) c0 0) as (E2 & B2);
    [lia|auto|].
  rewrite E2. rewrite Z.shiftl_0_r in *.
  destruct (@collect (Z.lor (Z.shiftl (Z.land c3 15) 12) (Z.land c0 15)) c1 4)
    as (E3 & B3); [lia|auto|].
  rewrite E3.
  destruct (@collect
              (Z.lor (Z.lor (Z.shiftl (Z.land c3 15) 12) (Z.land c0 15))
                 (Z.shiftl (Z.land c1 15) 4)) c2 8) as (E4 & B4); [lia|auto|].
  cbv zeta. rewrite E4.
  eexists. eexists.
  destruct (negb _ && _); reflexivity.
Qed.


Lemma scan_app (l1 l2 : list (Z * Z)) :
  forall s,
    scan (l1 ++ l2) s =
      (fst (scan l1 s) ++ fst (scan l2 (snd (scan l1 s))),
       snd (scan l2 (snd (scan l1 s)))).
Proof.
  induction l1 as [|(pinc, pinb) l1 IH]; intros s; cbn [scan app fst snd].
  - now destruct (scan l2 s).
  - destruct (TIMER2_COMPA_vect pinc pinb s) as (s1, ev). rewrite IH.
    destruct (scan l1 s1) as (evs1, s2). cbn [fst snd].
    destruct (scan l2 s2) as (evs2, s3). cbn [fst snd].
    now destruct ev.
Qed.

Lemma pass_found (s : State) (p : Pass) :
  at_rest s ->
  exists key s',
    scan (readings p) s =
      (if (last_key s =? KEY_NULL) && negb (key =? KEY_NULL)
       then [key] else [], s') /\
    at_rest s' /\ last_key s' = key /\ found p key.
Proof.
  intros Hs. destruct (pass_states p Hs) as (d & q & Hscan).
  set (key := find_key 16 (keys_down p) (snd (snd p)) 0) in *.
  exists key. eexists. split; [|split; [|split]].
  - rewrite Hscan. cbv zeta. f_equal.
    destruct (Z.eqb_spec (last_key s) KEY_NULL) as [E|E];
      [|now rewrite andb_false_r].
    rewrite E, andb_true_r, andb_true_l.
    destruct (find_key_range (keys_down p) (snd (snd p))) as [Hk|Hk];
      fold key in Hk.
    + rewrite Hk. reflexivity.
    + destruct (Z.eqb_spec key KEY_NULL) as [E'|E'];
        [unfold KEY_NULL in E'; lia|].
      cbn [negb]. now rewrite Z.mod_small by lia.
  - unfold at_rest. cbn. auto.
  - reflexivity.
  - unfold found.
    destruct (find_key_spec 16 (keys_down p) (snd (snd p)) (i := 0))
      as [(Hk & Hz)|(k & Hk & Hb & Hz & Hf)]; [lia| |].
    + left. split; [exact Hk|]. intros j Hj. apply Hz. cbn. lia.
    + right. exists k. cbn in Hk. auto.
Qed.

Lemma found_down (p : Pass) (key : Z) :
  found p key ->
  (exists k, 0 <= k < 16 /\ Z.testbit (keys_down p) k = true) ->
  0 <= key < 32.
Proof.
  intros [(-> & Hz)|(k & Hk & _ & _ & ->)] (k' & Hk' & Hb).
  - rewrite Hz in Hb by exact Hk'. discriminate.
  - destruct (Z.testbit (snd (snd p)) PIN_SHIFT); lia.
Qed.

(** While some key is down after a pass that found one, no call is
    made. *)
Lemma held_keys_are_silent (ps : list Pass) :
  forall s,
    at_rest s -> last_key s <> KEY_NULL ->
    Forall (fun p => exists k, 0 <= k < 16 /\
                               Z.testbit (keys_down p) k = true) ps ->
    fst (scan (concat (map readings ps)) s) = [].
Proof.
  induction ps as [|p ps IH]; intros s Hs Hl Hdown; [reflexivity|].
  cbn [map concat]. rewrite scan_app. cbn [fst].
  destruct (pass_found p Hs) as (key & s' & Hscan & Hs' & Hk & Hf).
  rewrite Hscan. cbn [fst snd].
  destruct (Z.eqb_spec (last_key s) KEY_NULL) as [E|_]; [contradiction|].
  cbn [andb app]. apply IH; trivial.
  - rewrite Hk. inversion Hdown as [|? ? Hp _]; subst.
    pose proof (found_down Hf Hp). unfold KEY_NULL. lia.
  - now inversion Hdown.
Qed.

End KeyScanPass.

Module KeyScanTheorems.
Import KeyScan KeyScanFacts KeyScanPass.

(** X9. From the state between two passes, the four interrupts of a pass
    decode the lowest key that is down, with 16 added for shift; the
    routine calls the handler once, with that key, exactly when the pass
    before found no key and this one finds one. *)
Theorem a_pass_reports_the_lowest_key (s : State) (p : Pass) :
  at_rest s ->
  exists key s',
    scan (readings p) s =
      (if (last_key s =? KEY_NULL) && negb (key =? KEY_NULL)
       then [key] else [], s') /\
    at_rest s' /\ last_key s' = key /\ found p key.
Proof. apply pass_found. Qed.

(** X10. A key press is reported once, however long keys stay down: over any
    number of passes that all find some key down, after a pass that found
    none, the handler is called exactly once, with a code in 0..31. *)
Theorem a_key_press_is_reported_once (p : Pass) (ps : list Pass)
        (s : State) :
  at_rest s -> last_key s = KEY_NULL ->
  Forall (fun p => exists k, 0 <= k < 16 /\
                             Z.testbit (keys_down p) k = true) (p :: ps) ->
  exists key,
    0 <= key < 32 /\ found p key /\
    fst (scan (concat (map readings (p :: ps))) s) = [key].
Proof.
  intros Hs Hl Hdown. inversion Hdown as [|? ? Hp Hps]; subst.
  destruct (pass_found p Hs) as (key & s' & Hscan & Hs' & Hk & Hf).
  pose proof (found_down Hf Hp) as Hr.
  exists key. split; [exact Hr|]. split; [exact Hf|].
  cbn [map concat]. rewrite scan_app, Hscan. cbn [fst snd].
  rewrite held_keys_are_silent; trivial.
  - rewrite Hl, Z.eqb_refl.
    destruct (Z.eqb_spec key KEY_NULL) as [E|_];
      [unfold KEY_NULL in E; lia|reflexivity].
  - rewrite Hk. unfold KEY_NULL. lia.
Qed.

Lemma tick_ports (pinc pinb ddrb : Z) (s : State) :
  0 <= ddrb < 256 -> Z.land ddrb 15 = 0 ->
  0 <= t s < 4 -> lt s = (t s + 3) mod 4 ->
  DDRB s = ddrb \/ DDRB s = Z.lor ddrb (Z.shiftl 1 (lt s)) ->
  let s' := fst (TIMER2_COMPA_vect pinc pinb s) in
  0 <= t s' < 4 /\ lt s' = (t s' + 3) mod 4 /\
  DDRB s' = Z.lor ddrb (Z.shiftl 1 (lt s')).
Proof.
  intros Hd Hlow Ht Hlt HD. cbv zeta.
  assert (t s = 0 \/ t s = 1 \/ t s = 2 \/ t s = 3) as Hc by lia.
  assert ((lt s = 3 /\ t s = 0) \/ (lt s = 0 /\ t s = 1) \/
          (lt s = 1 /\ t s = 2) \/ (lt s = 2 /\ t s = 3)) as Hab.
  { destruct Hc as [E|[E|[E|E]]]; rewrite E in Hlt; cbn in Hlt; auto. }
  destruct (drive_next Hd Hlow Hab) as (D1 & D2).
  assert (Z.lor (Z.land (DDRB s) (Z.lnot (Z.shiftl 1 (lt s))) mod 256)
            (Z.shiftl 1 (t s)) mod 256 = Z.lor ddrb (Z.shiftl 1 (t s))) as HD'.
  { destruct HD as [-> | ->]; trivial. }
  destruct Hc as [E|[E|[E|E]]].
  1-3: rewrite tick_collects by auto; cbn [fst t lt DDRB]; rewrite HD';
       rewrite E in *; rewrite Hlt;
       (split; [cbn; lia|split; reflexivity]).
  rewrite tick_decodes by exact E. cbn [fst t lt DDRB]. rewrite HD'.
  rewrite E in *. rewrite Hlt. split; [cbn; lia|split; reflexivity].
Qed.

(** X11. After any interrupt exactly one of the four column lines of port B is
    an output and high, the one whose rows the next interrupt reads, and
    the other bits of DDRB and PORTB, the pull-up of the shift pin among
    them, are as they were at start-up. *)
Theorem one_column_is_driven (pins : list (Z * Z)) (ddrb portb : Z) :
  pins <> [] ->
  0 <= ddrb < 256 -> Z.land ddrb 15 = 0 ->
  0 <= portb < 256 -> Z.land portb 15 = 0 ->
  let s := snd (scan pins (init ddrb portb)) in
  0 <= t s < 4 /\ lt s = (t s + 3) mod 4 /\
  DDRB s = Z.lor ddrb (Z.shiftl 1 (lt s)) /\
  PORTB s = Z.lor portb (Z.shiftl 1 (lt s)).
Proof.
  intros Hne Hd Hdl Hq Hql.
  assert (forall pins s,
            0 <= t s < 4 -> lt s = (t s + 3) mod 4 ->
            DDRB s = ddrb \/ DDRB s = Z.lor ddrb (Z.shiftl 1 (lt s)) ->
            PORTB s = portb \/ PORTB s = Z.lor portb (Z.shiftl 1 (lt s)) ->
            pins <> [] ->
            let s' := snd (scan pins s) in
            0 <= t s' < 4 /\ lt s' = (t s' + 3) mod 4 /\
            DDRB s' = Z.lor ddrb (Z.shiftl 1 (lt s')) /\
            PORTB s' = Z.lor portb (Z.shiftl 1 (lt s'))) as Hall.
  { clear pins Hne. induction pins as [|(pinc, pinb) pins IH];
      intros s Ht Hlt HD HP Hne; [contradiction|].
    cbn [scan].
    pose proof (@tick_ports pinc pinb ddrb s Hd Hdl Ht Hlt HD) as (Ht' & Hlt' & HD').
    assert (PORTB (fst (TIMER2_COMPA_vect pinc pinb s)) =
            Z.lor portb (Z.shiftl 1 (lt (fst (TIMER2_COMPA_vect pinc pinb s)))))
      as HP'.
    { pose proof (@tick_ports pinc pinb portb
                    (mkState (last_key s) (t s) (lt s) (key_states s)
                       (PORTB s) (PORTB s)) Hq Hql Ht Hlt HP) as (_ & _ & H).
      revert H. unfold TIMER2_COMPA_vect.
      cbn [last_key t lt key_states DDRB PORTB].
      destruct (_ =? 4); cbn [fst DDRB PORTB lt]; trivial. }
    destruct (TIMER2_COMPA_vect pinc pinb s) as (s1, ev). cbn [fst] in *.
    destruct pins as [|r pins].
    - cbn [scan snd]. auto.
    - specialize (IH s1 Ht' Hlt' (or_intror HD') (or_intror HP')
                    ltac:(discriminate)).
      cbv zeta in IH. destruct (scan (r :: pins) s1) as (evs, s2).
      cbn [snd] in *. exact IH. }
  apply Hall; trivial; cbn; auto; lia.
Qed.

End KeyScanTheorems.

Section Interrupts.

Context {P : Platform}.

Lemma KEY_of_code_some (c : Z) :
  0 <= c < 32 -> exists k, KEY_of_code c = Some k /\ key_code k = c.
Proof.
  intros Hc.
  assert (c = 0 \/ c = 1 \/ c = 2 \/ c = 3 \/ c = 4 \/ c = 5 \/ c = 6 \/
          c = 7 \/ c = 8 \/ c = 9 \/ c = 10 \/ c = 11 \/ c = 12 \/ c = 13 \/
          c = 14 \/ c = 15 \/ c = 16 \/ c = 17 \/ c = 18 \/ c = 19 \/
          c = 20 \/ c = 21 \/ c = 22 \/ c = 23 \/ c = 24 \/ c = 25 \/
          c = 26 \/ c = 27 \/ c = 28 \/ c = 29 \/ c = 30 \/ c = 31) as H
      by lia.
  repeat (destruct H as [->|H]; [eexists; split; reflexivity|]).
  subst c. eexists; split; reflexivity.
Qed.

Lemma tick_event_range (pinc pinb : Z) (s : KeyScan.State) (c : Z) :
  snd (KeyScan.TIMER2_COMPA_vect pinc pinb s) = Some c -> 0 <= c < 32.
Proof.
  unfold KeyScan.TIMER2_COMPA_vect. cbv zeta.
  destruct (_ =? 4); cbn [snd]; [|discriminate].
  match goal with
  | |- context [KeyScan.find_key 16 ?st ?pb 0] =>
      destruct (KeyScanFacts.find_key_range st pb) as [Hk|Hk];
      set (key := KeyScan.find_key 16 st pb 0) in *
  end.
  - destruct (Z.eqb_spec (KeyScan.last_key s) KeyScan.KEY_NULL) as [E|E];
      [|now rewrite andb_false_r].
    rewrite E, Hk. discriminate.
  - destruct (negb _ && _); [|discriminate].
    intros H. injection H as <-. now rewrite Z.mod_small by lia.
Qed.

(** X12. The interrupt-driven program is the key-sequence controller:
    from any state of the routine and of the program, whatever the pins
    read at each interrupt, every code the routine passes to the handler
    is the code of a key, and the handler calls have together the effect
    on the state that [run] has on the keys reported. *)
Theorem interrupts_are_key_presses (pins : list (Z * Z))
        (s : KeyScan.State) (a : App) :
  exists keys,
    map key_code keys = fst (KeyScan.scan pins s) /\
    interrupts pins s a =
      option_map (fun a' => (snd (KeyScan.scan pins s), a')) (run keys a).
Proof.
  revert s a.
  induction pins as [|(pinc, pinb) pins IH]; intros s a.
  - exists []. split; reflexivity.
  - cbn [interrupts KeyScan.scan].
    pose proof (@tick_event_range pinc pinb s) as Hr.
    destruct (KeyScan.TIMER2_COMPA_vect pinc pinb s) as (s1, [c|]).
    + destruct (KEY_of_code_some (Hr c eq_refl)) as (k & -> & Hk).
      cbn [obind].
      destruct (dispatch k a) as [a1|] eqn:Ed; cbn [obind].
      * destruct (IH s1 a1) as (keys & Hm & Hi).
        exists (k :: keys). cbn [run map]. rewrite Ed. cbn [obind].
        destruct (KeyScan.scan pins s1) as (evs, s2). cbn [fst snd] in *.
        split; [now rewrite Hk, Hm|exact Hi].
      * destruct (IH s1 a) as (keys & Hm & _).
        exists (k :: keys). cbn [run map]. rewrite Ed. cbn [obind].
        destruct (KeyScan.scan pins s1) as (evs, s2). cbn [fst snd] in *.
        split; [now rewrite Hk, Hm|reflexivity].
    + destruct (IH s1 a) as (keys & Hm & Hi).
      exists keys.
      destruct (KeyScan.scan pins s1) as (evs, s2). cbn [fst snd] in *.
      split; [exact Hm|exact Hi].
Qed.

End Interrupts.

Section Evaluator.

Context {P : Platform}.

(** *** The error codes of the evaluator *)

Lemma push_num_code (v : F) (i : Z) (st : list F) (e : Z) :
  push_num v i st = inl e -> e = ERROR_NOMEM.
Proof. unfold push_num. destruct (_ >=? _); congruence. Qed.

Lemma solve_token_code (nums : Z -> F) (x : F) (t : TOKEN_TYPE) (s : Solve)
      (e : Z) :
  solve_token nums x t s = inl e ->
  e = ERROR_SYNTAX \/ e = ERROR_MATH \/ e = ERROR_NOMEM.
Proof.
  unfold solve_token. intros H.
  destruct t;
    try (apply push_num_code in H; now auto);
    destruct (num_stack s) as [|a [|b st]]; cbn in H;
    try (injection H as <-; now auto);
    try (apply push_num_code in H; now auto);
    try discriminate;
    repeat match type of H with
    | context [if ?c then _ else _] => destruct c; cbn in H
    end;
    try (injection H as <-; now auto);
    try (apply push_num_code in H; now auto);
    try discriminate.
Qed.

Lemma solve_loop_code (nums : Z -> F) (x : F) (l : list TOKEN_TYPE) :
  forall (s : Solve) (e : Z),
    solve_loop nums x l s = inl e ->
    e = ERROR_SYNTAX \/ e = ERROR_MATH \/ e = ERROR_NOMEM.
Proof.
  induction l as [|t l IH]; intros s e H; cbn [solve_loop] in H;
    [discriminate|].
  destruct (solve_token nums x t s) as [e'|s'] eqn:E.
  - injection H as <-. now apply (solve_token_code _ _ _ _ E).
  - now apply (IH s').
Qed.

(** X13. [calc_solve] returns 0, Syntax, Math or NoMemory, never Range, and
    writes the result only when it returns 0. *)
Theorem calc_solve_error_codes (t : Tokens) (x y0 : F) :
  (fst (calc_solve t x y0) = 0 \/
   fst (calc_solve t x y0) = ERROR_SYNTAX \/
   fst (calc_solve t x y0) = ERROR_MATH \/
   fst (calc_solve t x y0) = ERROR_NOMEM) /\
  (fst (calc_solve t x y0) <> 0 -> snd (calc_solve t x y0) = y0).
Proof.
  unfold calc_solve.
  destruct (solve_loop _ _ _ _) as [e|s] eqn:E.
  - apply solve_loop_code in E. cbn. split; [tauto|trivial].
  - destruct (num_stack s) as [|y [|? ?]]; cbn; split; auto; congruence.
Qed.

(** *** Two evaluations of the same tokens *)

Lemma push_num_shape (v1 v2 : F) (i : Z) (st1 st2 : list F) :
  length st1 = length st2 ->
  match push_num v1 i st1, push_num v2 i st2 with
  | inr a, inr b =>
      tok_num_i a = tok_num_i b /\
      length (num_stack a) = length (num_stack b)
  | inl e1, inl e2 => e1 = e2
  | _, _ => False
  end.
Proof.
  intros H. unfold push_num. rewrite H.
  destruct (_ >=? _); cbn; auto.
Qed.

Lemma solve_token_shape (nums : Z -> F) (x1 x2 : F) (t : TOKEN_TYPE)
      (s1 s2 : Solve) :
  tok_num_i s1 = tok_num_i s2 ->
  length (num_stack s1) = length (num_stack s2) ->
  match solve_token nums x1 t s1, solve_token nums x2 t s2 with
  | inr a, inr b =>
      tok_num_i a = tok_num_i b /\
      length (num_stack a) = length (num_stack b)
  | inl e1, inl e2 => e1 = e2 \/ e1 = ERROR_MATH \/ e2 = ERROR_MATH
  | inl e, inr _ | inr _, inl e => e = ERROR_MATH
  end.
Proof.
  intros Hi Hl.
  assert (forall v1 v2 i st1 st2, length st1 = length st2 ->
    match push_num v1 i st1, push_num v2 i st2 with
    | inr a, inr b =>
        tok_num_i a = tok_num_i b /\
        length (num_stack a) = length (num_stack b)
    | inl e1, inl e2 => e1 = e2 \/ e1 = ERROR_MATH \/ e2 = ERROR_MATH
    | inl e, inr _ | inr _, inl e => e = ERROR_MATH
    end) as Hpush.
  { intros v1 v2 i st1 st2 H. pose proof (push_num_shape v1 v2 i st1 st2 H) as Hs.
    destruct (push_num v1 i st1), (push_num v2 i st2); auto; contradiction. }
  unfold solve_token. rewrite Hi.
  destruct (num_stack s1) as [|a1 [|b1 st1]], (num_stack s2) as [|a2 [|b2 st2]];
    try discriminate Hl; cbn in Hl;
    destruct t; cbn -[push_num];
    try (apply Hpush; cbn; congruence);
    auto;
    repeat match goal with
    | |- context [if ?c then _ else _] => destruct c; cbn -[push_num]
    end;
    auto;
    try (apply Hpush; cbn; congruence);
    try (match goal with
         | |- match push_num ?v ?i ?st with _ => _ end =>
             unfold push_num; destruct (_ >=? _); cbn; auto
         end);
    try (split; [trivial|cbn; congruence]).
Qed.

Lemma solve_loop_shape (nums : Z -> F) (x1 x2 : F) (l : list TOKEN_TYPE) :
  forall s1 s2,
    tok_num_i s1 = tok_num_i s2 ->
    length (num_stack s1) = length (num_stack s2) ->
    match solve_loop nums x1 l s1, solve_loop nums x2 l s2 with
    | inr a, inr b => length (num_stack a) = length (num_stack b)
    | inl e1, inl e2 => e1 = e2 \/ e1 = ERROR_MATH \/ e2 = ERROR_MATH
    | inl e, inr _ | inr _, inl e => e = ERROR_MATH
    end.
Proof.
  induction l as [|t l IH]; intros s1 s2 Hi Hl; cbn [solve_loop]; trivial.
  pose proof (solve_token_shape nums x1 x2 t s1 s2 Hi Hl) as Ht.
  destruct (solve_token nums x1 t s1) as [e1|a] eqn:E1,
           (solve_token nums x2 t s2) as [e2|b] eqn:E2; trivial.
  - subst e1. destruct (solve_loop nums x2 l b) as [e|?] eqn:E; auto.
  - subst e2. destruct (solve_loop nums x1 l a) as [e|?] eqn:E; auto.
  - destruct Ht. now apply IH.
Qed.

(** X14. Whether an evaluation fails with Syntax or NoMemory does not depend on
    the value of the free variable: two evaluations of the same tokens
    return the same code unless one of them fails with Math. *)
Theorem only_math_errors_depend_on_x (t : Tokens) (x1 x2 y1 y2 : F) :
  fst (calc_solve t x1 y1) = fst (calc_solve t x2 y2) \/
  fst (calc_solve t x1 y1) = ERROR_MATH \/
  fst (calc_solve t x2 y2) = ERROR_MATH.
Proof.
  unfold calc_solve.
  pose proof (solve_loop_shape (tok_num_list t) x1 x2 (tok_type_list t)
                (mkSolve 0 []) (mkSolve 0 []) eq_refl eq_refl) as H.
  destruct (solve_loop _ x1 _ _) as [e1|a], (solve_loop _ x2 _ _) as [e2|b];
    cbn [fst].
  - exact H.
  - right. left. exact H.
  - right. right. exact H.
  - destruct (num_stack a) as [|? [|? ?]], (num_stack b) as [|? [|? ?]];
      cbn in *; auto; discriminate.
Qed.

End Evaluator.

Section CompilerCodes.

Context {P : Platform}.

(** *** The error codes of the compiler *)

Lemma emit_codes (t : TOKEN_TYPE) (s : Prep) : step_codes (emit t s).
Proof. unfold emit. destruct (_ >=? _); cbn; auto. Qed.

Lemma push_op_codes (t : TOKEN_TYPE) (s : Prep) : step_codes (push_op t s).
Proof. unfold push_op. destruct (_ >=? _); cbn; auto. Qed.

Lemma sbind_codes {A B : Type} (r : Step A) (k : A -> Step B) :
  step_codes r -> (forall a, step_codes (k a)) -> step_codes (sbind r k).
Proof. destruct r; cbn; auto. Qed.

Lemma pop_to_lp_codes (stack : list TOKEN_TYPE) :
  forall s, step_codes (pop_to_lp stack s).
Proof.
  induction stack as [|t stack IH]; intros s; cbn [pop_to_lp].
  - cbn. auto.
  - destruct (tt_eqb t TT_LP); [exact I|].
    apply sbind_codes; [apply emit_codes|exact IH].
Qed.

Lemma pop_ops_codes (prec : Z) (stack : list TOKEN_TYPE) :
  forall s, step_codes (pop_ops prec stack s).
Proof.
  induction stack as [|t stack IH]; intros s; cbn [pop_ops]; [exact I|].
  destruct (_ || _); [exact I|].
  apply sbind_codes; [apply emit_codes|exact IH].
Qed.

Lemma pop_all_codes (stack : list TOKEN_TYPE) :
  forall s, step_codes (pop_all stack s).
Proof.
  induction stack as [|t stack IH]; intros s; cbn [pop_all]; [exact I|].
  apply sbind_codes; [apply emit_codes|exact IH].
Qed.

Lemma shunt_codes (s : Prep) : step_codes (shunt s).
Proof.
  unfold shunt. apply sbind_codes; [apply pop_ops_codes|].
  intros a. apply push_op_codes.
Qed.

Lemma calc_step_codes (c : Z) (rest : list Z) (s : Prep)
      (r : Step (list Z * Prep)) :
  calc_step c rest s = Some r -> step_codes r.
Proof.
  intros Hr. unfold calc_step in Hr.
  repeat match type of Hr with
  | (if ?c then _ else _) = _ => destruct c
  | match ?o with Some _ => _ | None => _ end = _ =>
      destruct o as [[]|]
  | obind ?o _ = _ => destruct o; cbn [obind] in Hr; [|discriminate]
  end;
  injection Hr as <-;
  try (cbn; now auto);
  (apply sbind_codes; [|intros; exact I]);
  first [apply emit_codes | apply push_op_codes | apply pop_to_lp_codes
        | apply shunt_codes].
Qed.

Lemma calc_loop_codes (fuel : nat) :
  forall (term : list Z) (s : Prep) (r : Step Prep),
    calc_loop fuel term s = Some r -> step_codes r.
Proof.
  induction fuel as [|fuel IH]; intros term s r Hr;
    (destruct term as [|c rest]; cbn [calc_loop] in Hr;
     [injection Hr as <-; exact I|]); [discriminate|].
  destruct (calc_step c rest s) as [r1|] eqn:E; [|discriminate].
  cbn [obind] in Hr. pose proof (calc_step_codes _ _ _ E) as H1.
  destruct r1 as [e t|(term', s')].
  - now injection Hr as <-.
  - now apply (IH term' s').
Qed.

(** X15. [calc_prepare] returns 0, Syntax or NoMemory, never Math or Range. *)
Theorem calc_prepare_error_codes (term : list Z) (old : Tokens) (e : Z)
        (t : Tokens) :
  calc_prepare term old = Some (e, t) ->
  e = 0 \/ e = ERROR_SYNTAX \/ e = ERROR_NOMEM.
Proof.
  unfold calc_prepare, calc_scan. intros H.
  destruct (calc_loop _ _ _) as [r|] eqn:E; [|discriminate].
  cbn [obind] in H. apply calc_loop_codes in E.
  assert (step_codes (sbind r (fun s => pop_all (op_stack s) s))) as Hc.
  { apply sbind_codes; [exact E|]. intros a. apply pop_all_codes. }
  destruct (sbind r _); injection H as <- <-; cbn in Hc; tauto.
Qed.

End CompilerCodes.

Section Expressions.

Context {P : Platform}.

(** ** Compiling and evaluating an expression *)

Lemma apply_op_unary (f : TOKEN_TYPE) (v z : F) :
  is_function f = true \/ f = TT_UNARY_MINUS ->
  apply_op f v z =
    match unary_value f v with
    | inr w => Value w
    | inl err => Failure err
    end.
Proof.
  intros [H| ->]; [|reflexivity].
  destruct f; try discriminate; cbn; trivial;
    unfold asin_acos_range; destruct (_ && _); reflexivity.
Qed.

Lemma apply_op_binary (op : TOKEN_TYPE) (a b : F) :
  is_binary op = true ->
  apply_op op a b =
    match binary_value op a b with
    | inr w => Value w
    | inl err => Failure err
    end.
Proof.
  intros H. destruct op; try discriminate; cbn; trivial.
  destruct (feqb b (of_Z 0)); reflexivity.
Qed.

Lemma rpn_nonempty (e : expr) : (1 <= length (rpn e))%nat.
Proof.
  induction e; cbn [rpn]; rewrite ?length_app; cbn [length]; lia.
Qed.

Lemma solve_unary (nums : Z -> F) (x : F) (f : TOKEN_TYPE) (i : Z) (v : F)
      (st : list F) :
  is_function f = true \/ f = TT_UNARY_MINUS ->
  (length st <= 30)%nat ->
  solve_token nums x f (mkSolve i (v :: st)) =
    match unary_value f v with
    | inr w => inr (mkSolve i (w :: st))
    | inl err => inl err
    end.
Proof.
  intros Hf Hst.
  assert (solve_token nums x f (mkSolve i (v :: st)) =
          match apply_op f v (of_Z 0) with
          | Value w => push_num w i st
          | Failure e => inl e
          | Continue => inr (mkSolve i st)
          end) as ->.
  { destruct Hf as [Hf| ->]; [|reflexivity].
    destruct f; try discriminate; reflexivity. }
  rewrite apply_op_unary by exact Hf.
  destruct (unary_value f v); trivial.
  unfold push_num. destruct (Z.geb_spec (Z.of_nat (length st)) (NUMBER_STACK_SIZE - 1));
    [unfold NUMBER_STACK_SIZE in *; lia|reflexivity].
Qed.

Lemma solve_binary (nums : Z -> F) (x : F) (op : TOKEN_TYPE) (i : Z)
      (a b : F) (st : list F) :
  is_binary op = true ->
  (length st <= 30)%nat ->
  solve_token nums x op (mkSolve i (b :: a :: st)) =
    match binary_value op a b with
    | inr w => inr (mkSolve i (w :: st))
    | inl err => inl err
    end.
Proof.
  intros Hop Hst.
  assert (solve_token nums x op (mkSolve i (b :: a :: st)) =
          match apply_op op a b with
          | Value w => push_num w i st
          | Failure e => inl e
          | Continue => inr (mkSolve i st)
          end) as ->.
  { destruct op; try discriminate; reflexivity. }
  rewrite apply_op_binary by exact Hop.
  destruct (binary_value op a b); trivial.
  unfold push_num. destruct (Z.geb_spec (Z.of_nat (length st)) (NUMBER_STACK_SIZE - 1));
    [unfold NUMBER_STACK_SIZE in *; lia|reflexivity].
Qed.

Lemma solve_push (v : F) (i : Z) (st : list F) :
  (length st <= 30)%nat -> push_num v i st = inr (mkSolve i (v :: st)).
Proof.
  intros Hst. unfold push_num.
  destruct (Z.geb_spec (Z.of_nat (length st)) (NUMBER_STACK_SIZE - 1));
    [unfold NUMBER_STACK_SIZE in *; lia|reflexivity].
Qed.

(** The evaluator on the reverse Polish form of an expression. *)
Lemma solve_rpn (nums : Z -> F) (x : F) (e : expr) :
  forall (L : Z) (i : Z) (st : list F) (l' : list TOKEN_TYPE),
    grammar L e = true ->
    (forall k, (k < length (numbers e))%nat ->
       nums (i + Z.of_nat k) = nth k (numbers e) (of_Z 0)) ->
    (length st + length (rpn e) <= 31)%nat ->
    solve_loop nums x (rpn e ++ l') (mkSolve i st) =
      match value x e with
      | inr v =>
          solve_loop nums x l'
            (mkSolve (i + Z.of_nat (length (numbers e))) (v :: st))
      | inl err => inl err
      end.
Proof.
  induction e as [d| | |e IH|f e IH|e IH|op l IHl r IHr];
    intros L i st l' Hg Hn Hcap; cbn [rpn numbers value app length] in *.
  - cbn [solve_loop solve_token tok_num_i num_stack].
    rewrite solve_push by lia.
    specialize (Hn 0%nat ltac:(lia)). cbn in Hn. rewrite Z.add_0_r in Hn.
    now rewrite Hn.
  - cbn [solve_loop solve_token tok_num_i num_stack].
    rewrite solve_push by lia.
    specialize (Hn 0%nat ltac:(lia)). cbn in Hn. rewrite Z.add_0_r in Hn.
    now rewrite Hn.
  - cbn [solve_loop solve_token tok_num_i num_stack].
    rewrite solve_push by lia. now rewrite Z.add_0_r.
  - cbn [grammar] in Hg. now apply (IH 3).
  - cbn [grammar] in Hg. apply andb_true_iff in Hg as (Hf & Hg).
    rewrite length_app in Hcap. cbn [length] in Hcap.
    rewrite <- app_assoc. rewrite (IH 3) by (trivial; lia).
    destruct (value x e) as [err|v]; trivial.
    cbn [app solve_loop]. rewrite solve_unary by (auto; lia).
    now destruct (unary_value f v).
  - cbn [grammar] in Hg. apply andb_true_iff in Hg as (_ & Hg).
    rewrite length_app in Hcap. cbn [length] in Hcap.
    rewrite <- app_assoc. rewrite (IH 0) by (trivial; lia).
    destruct (value x e) as [err|v]; trivial.
    cbn [app solve_loop]. rewrite solve_unary by (auto; lia).
    now destruct (unary_value TT_UNARY_MINUS v).
  - cbn [grammar] in Hg.
    apply andb_true_iff in Hg as (Hg & Hgr).
    apply andb_true_iff in Hg as (Hg & Hgl).
    apply andb_true_iff in Hg as (Hop & _).
    rewrite !length_app in Hcap. cbn [length] in Hcap.
    rewrite length_app in Hn.
    pose proof (rpn_nonempty l). pose proof (rpn_nonempty r).
    rewrite <- !app_assoc.
    rewrite (IHl (get_precedence op)); trivial; try lia.
    2:{ intros k Hk. rewrite Hn by lia. now rewrite app_nth1 by lia. }
    destruct (value x l) as [err|a]; trivial.
    rewrite (IHr (get_precedence op - 1)); trivial; try (cbn [length]; lia).
    2:{ intros k Hk.
        replace (i + Z.of_nat (length (numbers l)) + Z.of_nat k)
          with (i + Z.of_nat (length (numbers l) + k)) by lia.
        rewrite Hn by lia. rewrite app_nth2 by lia. f_equal. lia. }
    destruct (value x r) as [err|b]; trivial.
    cbn [app solve_loop]. rewrite solve_binary by (trivial; lia).
    destruct (binary_value op a b); trivial.
    do 2 f_equal. rewrite length_app. lia.
Qed.

End Expressions.

Section ExpressionCompiler.

Context {P : Platform}.

Lemma scan_float_literal (d : list Z) :
  forall (rest : list Z) (points : bool),
    literal_tail d points = true -> delimited rest ->
    scan_float (d ++ rest) (if points then 1 else 0) = Some (d, rest).
Proof.
  induction d as [|c d IH]; intros rest points Hd Hrest; cbn [app].
  - destruct rest as [|c rest]; [now destruct points|].
    cbn [scan_float]. cbn in Hrest.
    assert ((c =? CHAR_DP) = false /\ isdigit c = false) as (-> & ->).
    { destruct Hrest as [->|[->|[->|[->|[->| ->]]]]]; split; reflexivity. }
    reflexivity.
  - cbn [scan_float literal_tail] in *.
    destruct (Z.eqb_spec c CHAR_DP) as [Hc|Hc].
    + apply andb_true_iff in Hd as (Hp & Hd). destruct points; [discriminate|].
      cbn [Z.add Z.ltb Z.compare]. change (1 <? 0 + 1) with false. cbv iota.
      rewrite (IH rest true Hd Hrest). reflexivity.
    + apply andb_true_iff in Hd as (Hdig & Hd). rewrite Hdig. cbn [negb].
      rewrite (IH rest points Hd Hrest). reflexivity.
Qed.

Lemma calc_loop_go (fuel : nat) (c : Z) (rest term' : list Z) (s s' : Prep) :
  calc_step c rest s = Some (Go (term', s')) ->
  calc_loop (S fuel) (c :: rest) s = calc_loop fuel term' s'.
Proof. intros H. cbn [calc_loop]. now rewrite H. Qed.

Lemma emit_go (t : TOKEN_TYPE) (s : Prep) :
  tok_cnt (toks s) < TOKEN_LIST_SIZE - 1 ->
  emit t s =
    Go (mkPrep (cur_type s) (op_stack s) (top_num s)
          (mkTokens (tok_type_list (toks s) ++ [t]) (tok_num_list (toks s)))).
Proof.
  intros H. unfold emit.
  destruct (Z.geb_spec (tok_cnt (toks s)) (TOKEN_LIST_SIZE - 1)); [lia|trivial].
Qed.

Lemma push_op_go (t : TOKEN_TYPE) (s : Prep) :
  top_stack s < OPERATOR_STACK_SIZE - 1 ->
  push_op t s = Go (set_stack s (t :: op_stack s)).
Proof.
  intros H. unfold push_op.
  destruct (Z.geb_spec (top_stack s) (OPERATOR_STACK_SIZE - 1)); [lia|trivial].
Qed.

Lemma pop_to_lp_spec (pend rest : list TOKEN_TYPE) :
  Forall (fun t => t <> TT_LP) pend ->
  forall s,
    tok_cnt (toks s) + Z.of_nat (length pend) <= TOKEN_LIST_SIZE - 1 ->
    pop_to_lp (pend ++ TT_LP :: rest) s =
      Go (mkPrep (cur_type s) rest (top_num s)
            (mkTokens (tok_type_list (toks s) ++ pend)
               (tok_num_list (toks s)))).
Proof.
  induction 1 as [|t pend Hlp Hpend IH]; intros s Hroom.
  - cbn. rewrite app_nil_r. now destruct s as [? ? ? []].
  - cbn [app pop_to_lp].
    destruct (tt_eqb t TT_LP) eqn:E; [apply tt_eqb_eq in E; contradiction|].
    cbn [length] in Hroom. rewrite emit_go by lia. cbn [sbind].
    rewrite IH.
    + cbn. now rewrite <- app_assoc.
    + cbn [toks]. rewrite tok_cnt_app. unfold tok_cnt in *. cbn in *. lia.
Qed.

Lemma pop_all_spec (stack : list TOKEN_TYPE) :
  forall s,
    tok_cnt (toks s) + Z.of_nat (length stack) <= TOKEN_LIST_SIZE - 1 ->
    pop_all stack s =
      Go (mkPrep (cur_type s) [] (top_num s)
            (mkTokens (tok_type_list (toks s) ++ stack)
               (tok_num_list (toks s)))).
Proof.
  induction stack as [|t stack IH]; intros s Hroom.
  - cbn. rewrite app_nil_r. now destruct s as [? ? ? []].
  - cbn [pop_all]. cbn [length] in Hroom. rewrite emit_go by lia.
    cbn [sbind]. rewrite IH.
    + cbn. now rewrite <- app_assoc.
    + cbn [toks]. rewrite tok_cnt_app. unfold tok_cnt in *. cbn in *. lia.
Qed.

Lemma stops_at_le (L p : Z) (st : list TOKEN_TYPE) :
  stops_at L st -> p <= L -> stops_at p st.
Proof.
  destruct st as [|t st]; cbn; trivial. intros [H|H] Hp; [left; lia|now right].
Qed.

(** An operator on a stack that stops its pop loop is pushed. *)
Lemma shunt_push (s : Prep) (t : TOKEN_TYPE) :
  stops_at (get_precedence t) (op_stack s) ->
  top_stack s < OPERATOR_STACK_SIZE - 1 ->
  shunt (set_cur s t) =
    Go (mkPrep t (t :: op_stack s) (top_num s) (toks s)).
Proof.
  intros Hstop Hroom. unfold shunt. cbn [cur_type op_stack set_cur].
  rewrite pop_ops_stops by exact Hstop. cbn [sbind].
  rewrite push_op_go by exact Hroom. reflexivity.
Qed.

End ExpressionCompiler.

Section ExpressionLoop.

Context {P : Platform}.

(** *** One token of an expression *)

Lemma loop_literal (fuel : nat) (c : Z) (d rest : list Z) (s : Prep) :
  literal (c :: d) = true -> delimited rest ->
  tok_cnt (toks s) < TOKEN_LIST_SIZE - 1 ->
  calc_loop (S fuel) ((c :: d) ++ rest) s =
    calc_loop fuel rest
      (put_num
         (mkPrep TT_NUMBER (op_stack s) (top_num s)
            (mkTokens (tok_type_list (toks s) ++ [TT_NUMBER])
               (tok_num_list (toks s))))
         (parse_float (c :: d))).
Proof.
  intros Hlit Hrest Hroom. cbn [literal] in Hlit.
  apply andb_true_iff in Hlit as (Hdig & Htail).
  assert (literal_tail (c :: d) false = true) as Hl.
  { cbn [literal_tail]. destruct (Z.eqb_spec c CHAR_DP) as [->|_];
      [discriminate Hdig|]. now rewrite Hdig. }
  pose proof (scan_float_literal (c :: d) rest false Hl Hrest) as Hscan.
  cbn [app] in *. apply calc_loop_go. unfold calc_step. rewrite Hdig, Hscan.
  rewrite emit_go by exact Hroom. reflexivity.
Qed.

Lemma loop_pi (fuel : nat) (rest : list Z) (s : Prep) :
  tok_cnt (toks s) < TOKEN_LIST_SIZE - 1 ->
  calc_loop (S fuel) (CHAR_PI :: rest) s =
    calc_loop fuel rest
      (put_num
         (mkPrep TT_NUMBER (op_stack s) (top_num s)
            (mkTokens (tok_type_list (toks s) ++ [TT_NUMBER])
               (tok_num_list (toks s))))
         M_PI).
Proof.
  intros Hroom. apply calc_loop_go. unfold calc_step.
  change (isdigit CHAR_PI) with false. change (CHAR_PI =? CHAR_SUB) with false.
  change (CHAR_PI =? CHAR_PI) with true. cbv iota.
  rewrite emit_go by exact Hroom. reflexivity.
Qed.

Lemma loop_x (fuel : nat) (rest : list Z) (s : Prep) :
  tok_cnt (toks s) < TOKEN_LIST_SIZE - 1 ->
  calc_loop (S fuel) (CHAR_X :: rest) s =
    calc_loop fuel rest
      (mkPrep TT_X (op_stack s) (top_num s)
         (mkTokens (tok_type_list (toks s) ++ [TT_X])
            (tok_num_list (toks s)))).
Proof.
  intros Hroom. apply calc_loop_go. unfold calc_step.
  change (isdigit CHAR_X) with false. change (CHAR_X =? CHAR_SUB) with false.
  change (CHAR_X =? CHAR_PI) with false. change (CHAR_X =? CHAR_X) with true.
  cbv iota. rewrite emit_go by exact Hroom. reflexivity.
Qed.

Lemma loop_lp (fuel : nat) (rest : list Z) (s : Prep) :
  top_stack s < OPERATOR_STACK_SIZE - 1 ->
  calc_loop (S fuel) (CHAR_LP :: rest) s =
    calc_loop fuel rest
      (mkPrep TT_LP (TT_LP :: op_stack s) (top_num s) (toks s)).
Proof.
  intros Hroom. apply calc_loop_go. unfold calc_step.
  change (isdigit CHAR_LP) with false. change (CHAR_LP =? CHAR_SUB) with false.
  change (CHAR_LP =? CHAR_PI) with false. change (CHAR_LP =? CHAR_X) with false.
  change (CHAR_LP =? CHAR_LP) with true. cbv iota.
  rewrite push_op_go by exact Hroom. reflexivity.
Qed.

Lemma loop_rp (fuel : nat) (rest : list Z) (s : Prep)
      (pend st : list TOKEN_TYPE) :
  op_stack s = pend ++ TT_LP :: st ->
  Forall (fun t => t <> TT_LP) pend ->
  tok_cnt (toks s) + Z.of_nat (length pend) <= TOKEN_LIST_SIZE - 1 ->
  calc_loop (S fuel) (CHAR_RP :: rest) s =
    calc_loop fuel rest
      (mkPrep TT_RP st (top_num s)
         (mkTokens (tok_type_list (toks s) ++ pend)
            (tok_num_list (toks s)))).
Proof.
  intros Hst Hpend Hroom. apply calc_loop_go. unfold calc_step.
  change (isdigit CHAR_RP) with false. change (CHAR_RP =? CHAR_SUB) with false.
  change (CHAR_RP =? CHAR_PI) with false. change (CHAR_RP =? CHAR_X) with false.
  change (CHAR_RP =? CHAR_LP) with false. change (CHAR_RP =? CHAR_RP) with true.
  cbv iota. rewrite Hst.
  rewrite (pop_to_lp_spec st Hpend) by exact Hroom. reflexivity.
Qed.

Lemma loop_fn (fuel : nat) (f : TOKEN_TYPE) (rest : list Z) (s : Prep) :
  is_function f = true ->
  stops_at 0 (op_stack s) ->
  top_stack s < OPERATOR_STACK_SIZE - 1 ->
  calc_loop (S fuel) (fn_name f ++ CHAR_LP :: rest) s =
    calc_loop fuel (CHAR_LP :: rest)
      (mkPrep f (f :: op_stack s) (top_num s) (toks s)).
Proof.
  intros Hf Hstop Hroom.
  assert (stops_at (get_precedence f) (op_stack s)) as Hstop'
      by (destruct f; try discriminate; exact Hstop).
  pose proof (shunt_push s f Hstop' Hroom) as Hsh.
  destruct f; try discriminate; apply calc_loop_go;
    cbn [fn_name _str_sin _str_cos _str_tan _str_asin _str_acos _str_atan
         _str_log app];
    unfold calc_step; cbn -[shunt set_cur]; rewrite Hsh; reflexivity.
Qed.

Lemma loop_neg (fuel : nat) (rest : list Z) (s : Prep) :
  minus_type (cur_type s) = TT_UNARY_MINUS ->
  stops_at 0 (op_stack s) ->
  top_stack s < OPERATOR_STACK_SIZE - 1 ->
  calc_loop (S fuel) (CHAR_SUB :: rest) s =
    calc_loop fuel rest
      (mkPrep TT_UNARY_MINUS (TT_UNARY_MINUS :: op_stack s) (top_num s)
         (toks s)).
Proof.
  intros Hm Hstop Hroom. apply calc_loop_go. unfold calc_step.
  change (isdigit CHAR_SUB) with false. change (CHAR_SUB =? CHAR_SUB) with true.
  cbv iota. rewrite Hm.
  rewrite (shunt_push s TT_UNARY_MINUS Hstop Hroom). reflexivity.
Qed.

Lemma loop_binary (fuel : nat) (op : TOKEN_TYPE) (rest : list Z) (s : Prep)
      (pend st : list TOKEN_TYPE) :
  is_binary op = true ->
  operand_type (cur_type s) ->
  op_stack s = pend ++ st ->
  Forall (fun t => get_precedence t <= get_precedence op /\ t <> TT_LP) pend ->
  stops_at (get_precedence op) st ->
  tok_cnt (toks s) + Z.of_nat (length pend) <= TOKEN_LIST_SIZE - 1 ->
  Z.of_nat (length st) < OPERATOR_STACK_SIZE - 1 ->
  calc_loop (S fuel) (op_char op :: rest) s =
    calc_loop fuel rest
      (mkPrep op (op :: st) (top_num s)
         (mkTokens (tok_type_list (toks s) ++ pend)
            (tok_num_list (toks s)))).
Proof.
  intros Hop Hcur Hst Hpend Hstop Hroom Hdepth.
  assert (shunt (set_cur s op) =
          Go (mkPrep op (op :: st) (top_num s)
                (mkTokens (tok_type_list (toks s) ++ pend)
                   (tok_num_list (toks s))))) as Hsh.
  { unfold shunt. cbn [cur_type op_stack set_cur]. rewrite Hst.
    rewrite (@pop_ops_spec _ _ pend st Hpend Hstop) by exact Hroom. cbn [sbind].
    rewrite push_op_go by exact Hdepth. reflexivity. }
  assert (minus_type (cur_type s) = TT_SUB) as Hm
      by (destruct Hcur as [->|[->| ->]]; reflexivity).
  apply calc_loop_go. unfold calc_step.
  destruct op; try discriminate; cbn [op_char].
  - change (isdigit CHAR_ADD) with false.
    change (CHAR_ADD =? CHAR_SUB) with false.
    change (CHAR_ADD =? CHAR_PI) with false.
    change (CHAR_ADD =? CHAR_X) with false.
    change (CHAR_ADD =? CHAR_LP) with false.
    change (CHAR_ADD =? CHAR_RP) with false.
    change (CHAR_ADD =? CHAR_ADD) with true.
    cbv iota. rewrite Hsh. reflexivity.
  - change (isdigit CHAR_SUB) with false.
    change (CHAR_SUB =? CHAR_SUB) with true.
    cbv iota. rewrite Hm, Hsh. reflexivity.
  - change (isdigit CHAR_MUL) with false.
    change (CHAR_MUL =? CHAR_SUB) with false.
    change (CHAR_MUL =? CHAR_PI) with false.
    change (CHAR_MUL =? CHAR_X) with false.
    change (CHAR_MUL =? CHAR_LP) with false.
    change (CHAR_MUL =? CHAR_RP) with false.
    change (CHAR_MUL =? CHAR_ADD) with false.
    change (CHAR_MUL =? CHAR_MUL) with true.
    cbv iota. rewrite Hsh. reflexivity.
  - change (isdigit CHAR_DIV) with false.
    change (CHAR_DIV =? CHAR_SUB) with false.
    change (CHAR_DIV =? CHAR_PI) with false.
    change (CHAR_DIV =? CHAR_X) with false.
    change (CHAR_DIV =? CHAR_LP) with false.
    change (CHAR_DIV =? CHAR_RP) with false.
    change (CHAR_DIV =? CHAR_ADD) with false.
    change (CHAR_DIV =? CHAR_MUL) with false.
    change (CHAR_DIV =? CHAR_DIV) with true.
    cbv iota. rewrite Hsh. reflexivity.
  - change (isdigit CHAR_POW) with false.
    change (CHAR_POW =? CHAR_SUB) with false.
    change (CHAR_POW =? CHAR_PI) with false.
    change (CHAR_POW =? CHAR_X) with false.
    change (CHAR_POW =? CHAR_LP) with false.
    change (CHAR_POW =? CHAR_RP) with false.
    change (CHAR_POW =? CHAR_ADD) with false.
    change (CHAR_POW =? CHAR_MUL) with false.
    change (CHAR_POW =? CHAR_DIV) with false.
    change (CHAR_POW =? CHAR_POW) with true.
    cbv iota. rewrite Hsh. reflexivity.
Qed.

End ExpressionLoop.

Section ExpressionTheorem.

Context {P : Platform}.

Lemma after_atom (L : Z) (e : expr) (s s' : Prep) (t : TOKEN_TYPE) :
  rpn e = [t] ->
  tok_type_list (toks s') = tok_type_list (toks s) ++ [t] ->
  op_stack s' = op_stack s ->
  operand_type (cur_type s') ->
  top_num s' = top_num s + Z.of_nat (length (numbers e)) ->
  (forall j,
     tok_num_list (toks s') j =
       if (top_num s <=? j) &&
          (j <? top_num s + Z.of_nat (length (numbers e)))
       then nth (Z.to_nat (j - top_num s)) (numbers e) (of_Z 0)
       else tok_num_list (toks s) j) ->
  after_expr L e s s'.
Proof.
  intros Hr Ht Hs Hc Hn Hnums. exists [t], [].
  rewrite Hr. repeat split; trivial; try constructor.
Qed.

Lemma depth_nonneg (e : expr) : 0 <= depth e.
Proof. induction e; cbn [depth]; lia. Qed.

Lemma compile_expr (e : expr) :
  forall (L : Z) (rest : list Z) (s : Prep) (fuel : nat),
    0 <= L ->
    grammar L e = true ->
    delimited rest ->
    ready L s e ->
    tok_cnt (toks s) + Z.of_nat (length (rpn e)) <= TOKEN_LIST_SIZE - 1 ->
    top_stack s + depth e <= OPERATOR_STACK_SIZE - 1 ->
    (length (show_expr e ++ rest) <= fuel)%nat ->
    exists fuel' s',
      calc_loop fuel (show_expr e ++ rest) s = calc_loop fuel' rest s' /\
      (length rest <= fuel')%nat /\
      after_expr L e s s'.
Proof.
  induction e as [d| | |e IH|f e IH|a IH|op l IHl r IHr];
    intros L rest s fuel HL Hg Hrest Hready Htok Hdep Hfuel;
    cbn [show_expr rpn depth grammar] in *.
  - (* literal *)
    destruct d as [|c d]; [discriminate|].
    destruct fuel as [|fuel]; [cbn in Hfuel; lia|].
    cbn [length] in Htok.
    rewrite (@loop_literal _ fuel c d rest s Hg Hrest) by lia.
    eexists fuel, _. split; [reflexivity|].
    split; [cbn [app length] in Hfuel; rewrite length_app in Hfuel; lia|].
    apply (@after_atom _ _ _ _ TT_NUMBER); cbn; trivial;
      [unfold operand_type; auto|].
    intros j. destruct (Z.eqb_spec j (top_num s)) as [->|Hne].
    + rewrite Z.leb_refl, Z.sub_diag.
      destruct (Z.ltb_spec (top_num s) (top_num s + 1)); [reflexivity|lia].
    + destruct (Z.leb_spec (top_num s) j), (Z.ltb_spec j (top_num s + 1));
        cbn; trivial; lia.
  - (* pi *)
    destruct fuel as [|fuel]; [cbn in Hfuel; lia|].
    cbn [length app] in *. rewrite loop_pi by lia.
    eexists fuel, _. split; [reflexivity|]. split; [lia|].
    apply (@after_atom _ _ _ _ TT_NUMBER); cbn; trivial;
      [unfold operand_type; auto|].
    intros j. destruct (Z.eqb_spec j (top_num s)) as [->|Hne].
    + rewrite Z.leb_refl, Z.sub_diag.
      destruct (Z.ltb_spec (top_num s) (top_num s + 1)); [reflexivity|lia].
    + destruct (Z.leb_spec (top_num s) j), (Z.ltb_spec j (top_num s + 1));
        cbn; trivial; lia.
  - (* the free variable *)
    destruct fuel as [|fuel]; [cbn in Hfuel; lia|].
    cbn [length app] in *. rewrite loop_x by lia.
    eexists fuel, _. split; [reflexivity|]. split; [lia|].
    apply (@after_atom _ _ _ _ TT_X); cbn; trivial;
      [unfold operand_type; auto|lia|].
    intros j.
    destruct (Z.leb_spec (top_num s) j), (Z.ltb_spec j (top_num s + 0));
      cbn; trivial; lia.
  - (* parentheses *)
    pose proof (depth_nonneg e) as Hd.
    destruct fuel as [|fuel]; [cbn in Hfuel; lia|].
    cbn [app] in *. rewrite <- app_assoc in *. cbn [app] in *.
    unfold top_stack in Hdep.
    rewrite loop_lp by (unfold top_stack; lia).
    destruct (IH 3 (CHAR_RP :: rest)
                (mkPrep TT_LP (TT_LP :: op_stack s) (top_num s) (toks s)) fuel)
      as (fuel1 & s1 & Hloop & Hfuel1 & part & pend & Ht & Hs & Hr & Hp & Hc
          & Hn & Hnums); trivial; try lia.
    + cbn. auto.
    + right. cbn. auto.
    + unfold top_stack. cbn [op_stack length]. lia.
    + cbn [length] in Hfuel. lia.
    + rewrite Hloop. cbn [op_stack toks top_num] in *.
      destruct fuel1 as [|fuel1]; [cbn in Hfuel1; lia|].
      assert (Forall (fun t => t <> TT_LP) pend) as Hp'.
      { eapply Forall_impl; [|exact Hp]. now intros t (_ & H). }
      assert (Z.of_nat (length (rpn e)) =
              Z.of_nat (length part) + Z.of_nat (length pend)) as Hlen.
      { rewrite <- Hr, length_app. lia. }
      rewrite (@loop_rp _ fuel1 rest s1 pend _ Hs Hp').
      2:{ unfold tok_cnt in *. rewrite Ht, length_app. lia. }
      eexists fuel1, _. split; [reflexivity|].
      split; [cbn [length] in Hfuel1; lia|].
      exists (rpn e), []. cbn [toks tok_type_list op_stack cur_type top_num
                                tok_num_list app].
      rewrite Ht, <- app_assoc, Hr, app_nil_r.
      split; [reflexivity|]. split; [reflexivity|]. split; [reflexivity|].
      split; [constructor|]. split; [unfold operand_type; auto|].
      split; [exact Hn|exact Hnums].
  - (* function *)
    apply andb_true_iff in Hg as (Hf & Hg).
    destruct Hready as [Hn|(Hstop & Hminus)]; [discriminate|].
    destruct fuel as [|fuel]; [destruct f; discriminate || (cbn in Hfuel; lia)|].
    rewrite <- app_assoc in *. cbn [app] in *.
    rewrite <- app_assoc in *. cbn [app] in *.
    pose proof (depth_nonneg e) as Hd.
    rewrite (@loop_fn _ fuel f _ s Hf (@stops_at_le L 0 _ Hstop HL)) by lia.
    assert (2 <= length (fn_name f ++ CHAR_LP :: show_expr e ++ CHAR_RP :: rest))%nat
      as Hlen2 by (destruct f; try discriminate; cbn; lia).
    destruct fuel as [|fuel]; [lia|].
    unfold top_stack in Hdep.
    rewrite loop_lp by (unfold top_stack; cbn [op_stack length]; lia).
    cbn [op_stack top_num toks cur_type].
    destruct (IH 3 (CHAR_RP :: rest)
                (mkPrep TT_LP (TT_LP :: f :: op_stack s) (top_num s) (toks s))
                fuel)
      as (fuel1 & s1 & Hloop & Hfuel1 & part & pend & Ht & Hs & Hr & Hp & Hc
          & Hn & Hnums); trivial; try lia.
    + cbn. auto.
    + right. cbn. auto.
    + cbn [toks]. rewrite length_app in Htok. lia.
    + unfold top_stack. cbn [op_stack length]. lia.
    + rewrite length_app in Hfuel. cbn [length] in Hfuel.
      assert (1 <= length (fn_name f))%nat
        by (destruct f; try discriminate; cbn; lia).
      lia.
    + rewrite Hloop. cbn [op_stack toks top_num] in *.
      destruct fuel1 as [|fuel1]; [cbn in Hfuel1; lia|].
      assert (Forall (fun t => t <> TT_LP) pend) as Hp'.
      { eapply Forall_impl; [|exact Hp]. now intros t (_ & H). }
      rewrite length_app in Htok. cbn [length] in Htok.
      assert (Z.of_nat (length (rpn e)) =
              Z.of_nat (length part) + Z.of_nat (length pend)) as Hlen.
      { rewrite <- Hr, length_app. lia. }
      rewrite (@loop_rp _ fuel1 rest s1 pend _ Hs Hp').
      2:{ unfold tok_cnt in *. rewrite Ht, length_app. lia. }
      eexists fuel1, _. split; [reflexivity|].
      split; [cbn [length] in Hfuel1; lia|].
      exists (rpn e), [f]. cbn [toks tok_type_list op_stack cur_type top_num
                                 tok_num_list app numbers].
      rewrite Ht, <- app_assoc, Hr.
      split; [reflexivity|]. split; [reflexivity|]. split; [reflexivity|].
      split.
      { constructor; [|constructor].
        split; [destruct f; try discriminate; cbn; lia
               |destruct f; discriminate]. }
      split; [unfold operand_type; auto|].
      split; [exact Hn|exact Hnums].
  - (* unary minus *)
    apply andb_true_iff in Hg as (Hneg & Hg).
    destruct Hready as [Hn|(Hstop & Hminus)]; [discriminate|].
    destruct fuel as [|fuel]; [cbn in Hfuel; lia|].
    cbn [app] in *. pose proof (depth_nonneg a) as Hd.
    rewrite (@loop_neg _ fuel _ s Hminus (@stops_at_le L 0 _ Hstop HL)) by lia.
    unfold top_stack in Hdep.
    destruct (IH 0 rest
                (mkPrep TT_UNARY_MINUS (TT_UNARY_MINUS :: op_stack s)
                   (top_num s) (toks s)) fuel)
      as (fuel1 & s1 & Hloop & Hfuel1 & part & pend & Ht & Hs & Hr & Hp & Hc
          & Hn & Hnums); trivial; try lia.
    + now left.
    + cbn [toks]. rewrite length_app in Htok. lia.
    + unfold top_stack. cbn [op_stack length]. lia.
    + cbn [length] in Hfuel. lia.
    + rewrite Hloop. eexists fuel1, s1. split; [reflexivity|].
      split; [exact Hfuel1|].
      cbn [op_stack toks top_num] in *.
      exists part, (pend ++ [TT_UNARY_MINUS]).
      cbn [numbers].
      split; [exact Ht|].
      split; [rewrite Hs, <- app_assoc; reflexivity|].
      split; [rewrite app_assoc, Hr; reflexivity|].
      split.
      { apply Forall_app. split.
        - eapply Forall_impl; [|exact Hp]. intros t (H1 & H2).
          split; [lia|trivial].
        - constructor; [|constructor]. split; [cbn; lia|discriminate]. }
      split; [exact Hc|]. split; [exact Hn|exact Hnums].
  - (* binary operator *)
    apply andb_true_iff in Hg as (Hg & Hgr).
    apply andb_true_iff in Hg as (Hg & Hgl).
    apply andb_true_iff in Hg as (Hop & Hrank). apply Z.leb_le in Hrank.
    destruct Hready as [Hn|(Hstop & Hminus)]; [discriminate|].
    assert (1 <= get_precedence op) as Hp1
        by (destruct op; try discriminate; cbn; lia).
    rewrite <- app_assoc in *. cbn [app] in *.
    rewrite !length_app in Htok. cbn [length] in Htok.
    pose proof (depth_nonneg l) as Hdl. pose proof (depth_nonneg r) as Hdr.
    destruct (IHl (get_precedence op) (op_char op :: show_expr r ++ rest)
                s fuel)
      as (fuel1 & s1 & Hloop1 & Hfuel1 & part1 & pend1 & Ht1 & Hs1 & Hr1 & Hpd1
          & Hc1 & Hn1 & Hnums1); trivial; try lia.
    + cbn. destruct op; try discriminate; cbn; auto 10.
    + right. split; [exact (@stops_at_le L _ _ Hstop Hrank)|exact Hminus].
    + rewrite Hloop1.
      destruct fuel1 as [|fuel1]; [cbn in Hfuel1; lia|].
      assert (Z.of_nat (length (rpn l)) =
              Z.of_nat (length part1) + Z.of_nat (length pend1)) as Hlen1.
      { rewrite <- Hr1, length_app. lia. }
      unfold top_stack in Hdep.
      rewrite (@loop_binary _ fuel1 op _ s1 pend1 (op_stack s) Hop Hc1 Hs1
                 Hpd1 (@stops_at_le L _ _ Hstop Hrank)).
      2:{ unfold tok_cnt in *. rewrite Ht1, length_app. lia. }
      2:{ unfold OPERATOR_STACK_SIZE in *. lia. }
      set (s1' := mkPrep op (op :: op_stack s) (top_num s1)
                    (mkTokens (tok_type_list (toks s1) ++ pend1)
                       (tok_num_list (toks s1)))).
      assert (ready (get_precedence op - 1) s1' r) as Hready2.
      { right. cbn [op_stack cur_type s1']. split.
        - cbn. left. lia.
        - destruct op; try discriminate; reflexivity. }
      assert (tok_cnt (toks s1') + Z.of_nat (length (rpn r))
              <= TOKEN_LIST_SIZE - 1) as Htok2.
      { cbn [toks s1']. unfold tok_cnt in *. cbn [tok_type_list].
        rewrite Ht1, !length_app. lia. }
      assert (top_stack s1' + depth r <= OPERATOR_STACK_SIZE - 1) as Hdep2.
      { unfold top_stack. cbn [op_stack length s1']. lia. }
      assert (length (show_expr r ++ rest) <= fuel1)%nat as Hfuel2'.
      { cbn [length] in Hfuel1. lia. }
      destruct (IHr (get_precedence op - 1) rest s1' fuel1 ltac:(lia) Hgr
                  Hrest Hready2 Htok2 Hdep2 Hfuel2')
        as (fuel2 & s2 & Hloop2 & Hfuel2 & part2 & pend2 & Ht2 & Hs2 & Hr2
            & Hpd2 & Hc2 & Hn2 & Hnums2).
      subst s1'.
      { rewrite Hloop2. eexists fuel2, s2. split; [reflexivity|].
        split; [exact Hfuel2|].
        cbn [op_stack toks top_num tok_type_list tok_num_list] in *.
        exists (rpn l ++ part2), (pend2 ++ [op]). cbn [numbers rpn].
        split; [rewrite Ht2, Ht1, <- Hr1, <- !app_assoc; reflexivity|].
        split; [rewrite Hs2, <- app_assoc; reflexivity|].
        split; [rewrite <- Hr2, <- !app_assoc; reflexivity|].
        split.
        { apply Forall_app. split.
          - eapply Forall_impl; [|exact Hpd2]. intros t (H1 & H2).
            split; [lia|trivial].
          - constructor; [|constructor].
            split; [lia|destruct op; discriminate]. }
        split; [exact Hc2|]. split.
        { rewrite Hn2, Hn1, length_app. lia. }
        intros j. rewrite Hnums2, Hnums1, Hn1, length_app.
        destruct (Z_lt_dec j (top_num s));
          [|destruct (Z_lt_dec j (top_num s + Z.of_nat (length (numbers l))));
            [|destruct (Z_lt_dec j (top_num s +
                                     Z.of_nat (length (numbers l)) +
                                     Z.of_nat (length (numbers r))))]];
          repeat match goal with
          | |- context [?a <=? ?b] => destruct (Z.leb_spec a b); try lia
          | |- context [?a <? ?b] => destruct (Z.ltb_spec a b); try lia
          end; cbn [andb];
          first [ reflexivity
                | rewrite app_nth1 by lia; reflexivity
                | rewrite app_nth2 by lia; f_equal; lia ]. }
Qed.

End ExpressionTheorem.

Section ExpressionResults.

Context {P : Platform}.

(** The compilation of the characters of an expression, from the first
    character on and with [more] operators already on the stack. *)
Lemma calc_prepare_expr (e : expr) (old : Tokens) (term : list Z)
      (more : list TOKEN_TYPE) (fuel : nat) (s : Prep) :
  grammar 3 e = true ->
  calc_loop (length term) term
    (mkPrep TT_NULL [] 0 (mkTokens [] (tok_num_list old)))
    = calc_loop fuel (show_expr e) s ->
  (length (show_expr e) <= fuel)%nat ->
  tok_type_list (toks s) = [] -> op_stack s = more -> top_num s = 0 ->
  tok_num_list (toks s) = tok_num_list old ->
  ready 3 s e ->
  Forall (fun t => t = TT_LP) more ->
  Z.of_nat (length (rpn e)) + Z.of_nat (length more) <= TOKEN_LIST_SIZE - 1 ->
  Z.of_nat (length more) + depth e <= OPERATOR_STACK_SIZE - 1 ->
  exists t,
    calc_prepare term old = Some (0, t) /\
    tok_type_list t = rpn e ++ more /\
    forall k, (k < length (numbers e))%nat ->
      tok_num_list t (0 + Z.of_nat k) = nth k (numbers e) (of_Z 0).
Proof.
  intros Hg Hstart Hfuel Ht Hs Hn Hnums Hready Hmore Htok Hdep.
  destruct (@compile_expr _ e 3 [] s fuel) as
    (fuel' & s' & Hloop & _ & part & pend & Ht' & Hs' & Hr & Hp & Hc & Hn'
     & Hnums'); trivial; try lia.
  - exact I.
  - unfold tok_cnt. rewrite Ht. cbn [length]. lia.
  - unfold top_stack. rewrite Hs. lia.
  - now rewrite app_nil_r.
  - rewrite app_nil_r in Hloop.
    unfold calc_prepare, calc_scan. rewrite Hstart, Hloop.
    assert (calc_loop fuel' [] s' = Some (Go s')) as -> by now destruct fuel'.
    cbn [obind sbind]. rewrite Ht in Ht'. cbn [app] in Ht'.
    assert (Z.of_nat (length (rpn e)) =
            Z.of_nat (length part) + Z.of_nat (length pend)) as Hlen.
    { rewrite <- Hr, length_app. lia. }
    rewrite pop_all_spec.
    2:{ unfold tok_cnt. rewrite Ht', Hs', Hs, length_app. lia. }
    eexists. split; [reflexivity|]. cbn [toks tok_type_list tok_num_list].
    split.
    + now rewrite Ht', Hs', Hs, app_assoc, Hr.
    + intros k Hk. rewrite Hnums', Hn.
      destruct (Z.leb_spec 0 (0 + Z.of_nat k)); [|lia].
      destruct (Z.ltb_spec (0 + Z.of_nat k)
                  (0 + Z.of_nat (length (numbers e)))); [|lia].
      cbn [andb]. f_equal. lia.
Qed.

(** X16. An expression of the grammar is compiled to its reverse Polish
    form and evaluated to its value, or to the Math error of its first
    failing operation, provided it has at most 31 tokens and needs at most
    31 operator stack entries.  The grammar is the reading of the
    compiler: the binary operators group to the left, ^ before * and /
    before + and -; a minus sign negates the literal, pi, x or
    parenthesis that follows it and nothing more, so that -2^2 is (-2)^2;
    a minus sign directly in front of a function name or of another minus
    sign is not in the grammar. *)
Theorem an_expression_evaluates_to_its_value (e : expr) (old : Tokens)
        (x y0 : F) :
  grammar 3 e = true ->
  Z.of_nat (length (rpn e)) <= TOKEN_LIST_SIZE - 1 ->
  depth e <= OPERATOR_STACK_SIZE - 1 ->
  exists t,
    calc_prepare (show_expr e) old = Some (0, t) /\
    tok_type_list t = rpn e /\
    calc_solve t x y0 =
      match value x e with
      | inr v => (0, v)
      | inl err => (err, y0)
      end.
Proof.
  intros Hg Htok Hdep.
  destruct (@calc_prepare_expr e old (show_expr e) [] (length (show_expr e))
              (mkPrep TT_NULL [] 0 (mkTokens [] (tok_num_list old))))
    as (t & Hc & Ht & Hn); trivial; try (cbn [length]; lia).
  - right. cbn. auto.
  - exists t. split; [exact Hc|]. rewrite app_nil_r in Ht.
    split; [exact Ht|]. unfold calc_solve. rewrite Ht.
    rewrite <- (app_nil_r (rpn e)).
    rewrite (@solve_rpn _ (tok_num_list t) x e 3 0 [] [] Hg Hn)
      by (cbn [length]; unfold TOKEN_LIST_SIZE in Htok; lia).
    destruct (value x e) as [err|v]; reflexivity.
Qed.

(** X17. An opening parenthesis that is never closed is not reported by the
    compiler: it returns 0 and leaves the parenthesis marker as the last
    token.  The evaluator drops the value of the expression at that
    token and reports Syntax, unless an operation of the expression has
    failed with Math before. *)
Theorem an_unclosed_parenthesis_is_left_to_the_evaluator (e : expr)
        (old : Tokens) (x y0 : F) :
  grammar 3 e = true ->
  Z.of_nat (length (rpn e)) + 1 <= TOKEN_LIST_SIZE - 1 ->
  1 + depth e <= OPERATOR_STACK_SIZE - 1 ->
  exists t,
    calc_prepare (CHAR_LP :: show_expr e) old = Some (0, t) /\
    tok_type_list t = rpn e ++ [TT_LP] /\
    calc_solve t x y0 =
      match value x e with
      | inr _ => (ERROR_SYNTAX, y0)
      | inl err => (err, y0)
      end.
Proof.
  intros Hg Htok Hdep.
  set (s := mkPrep TT_LP [TT_LP] 0 (mkTokens [] (tok_num_list old))).
  assert (calc_loop (length (CHAR_LP :: show_expr e)) (CHAR_LP :: show_expr e)
            (mkPrep TT_NULL [] 0 (mkTokens [] (tok_num_list old)))
          = calc_loop (length (show_expr e)) (show_expr e) s) as Hstart.
  { cbn [length]. rewrite loop_lp by (cbn; lia). reflexivity. }
  assert (ready 3 s e) as Hready by (right; cbn; auto).
  destruct (@calc_prepare_expr e old (CHAR_LP :: show_expr e) [TT_LP]
              (length (show_expr e)) s Hg Hstart (le_n _) eq_refl eq_refl
              eq_refl eq_refl Hready)
    as (t & Hc & Ht & Hn); try (cbn [length]; lia).
  { repeat constructor. }
  exists t. split; [exact Hc|]. split; [exact Ht|].
  unfold calc_solve. rewrite Ht.
  rewrite (@solve_rpn _ (tok_num_list t) x e 3 0 [] [TT_LP] Hg Hn)
    by (cbn [length]; unfold TOKEN_LIST_SIZE in Htok; lia).
  destruct (value x e) as [err|v]; reflexivity.
Qed.

Lemma calc_step_other (c : Z) (rest : list Z) (s : Prep) :
  isdigit c = false ->
  ~ In c [CHAR_SUB; CHAR_PI; CHAR_X; CHAR_LP; CHAR_RP; CHAR_ADD; CHAR_MUL;
          CHAR_DIV; CHAR_POW; 108; 97; 115; 99; 116] ->
  calc_step c rest s =
    Some (sbind (shunt (set_cur s (cur_type s))) (fun s' => Go (rest, s'))).
Proof.
  intros Hd Hin. unfold calc_step. rewrite Hd.
  repeat match goal with
         | |- context [c =? ?k] =>
             destruct (Z.eqb_spec c k) as [->|_];
             [exfalso; apply Hin; cbn; intuition congruence|]
         end.
  reflexivity.
Qed.

(** X18. A character that is no digit and has no case in the switch of
    [calc_prepare], such as a decimal point that does not follow a digit,
    leaves [cur_type] as it is and is pushed on the operator stack as an
    operator of that type.  After pi that is a number token without a
    number: the term pi c + compiles and evaluates without error, to pi
    plus the second entry an earlier compilation left in
    [tok_num_list]. *)
Theorem a_stray_character_reads_a_stale_number (c : Z) (old : Tokens)
        (x y0 : F) :
  c <> 0 -> isdigit c = false ->
  ~ In c [CHAR_SUB; CHAR_PI; CHAR_X; CHAR_LP; CHAR_RP; CHAR_ADD; CHAR_MUL;
          CHAR_DIV; CHAR_POW; 108; 97; 115; 99; 116] ->
  exists t,
    calc_prepare [CHAR_PI; c; CHAR_ADD] old = Some (0, t) /\
    tok_type_list t = [TT_NUMBER; TT_NUMBER; TT_ADD] /\
    calc_solve t x y0 = (0, fadd M_PI (tok_num_list old 1)).
Proof.
  intros _ Hd Hin. unfold calc_prepare, calc_scan. cbn [length].
  rewrite loop_pi by (cbn; lia).
  cbn [calc_loop]. rewrite calc_step_other by assumption.
  eexists. split; [reflexivity|]. split; reflexivity.
Qed.

Lemma scan_float_second_point (b : list Z) :
  forall rest, Forall (fun c => isdigit c = true) b ->
    scan_float (b ++ CHAR_DP :: rest) 1 = None.
Proof.
  induction b as [|c b IH]; intros rest Hb; cbn [app scan_float].
  - reflexivity.
  - inversion Hb as [|? ? Hc Hb']; subst.
    destruct (Z.eqb_spec c CHAR_DP) as [->|_]; [discriminate Hc|].
    rewrite Hc. cbn [negb]. now rewrite IH.
Qed.

Lemma scan_float_two_points (a b : list Z) :
  forall rest,
    Forall (fun c => isdigit c = true) a ->
    Forall (fun c => isdigit c = true) b ->
    scan_float (a ++ CHAR_DP :: b ++ CHAR_DP :: rest) 0 = None.
Proof.
  induction a as [|c a IH]; intros rest Ha Hb; cbn [app scan_float].
  - change (CHAR_DP =? CHAR_DP) with true. cbv iota.
    change (1 <? 0 + 1) with false. cbv iota. change (0 + 1) with 1.
    now rewrite scan_float_second_point.
  - inversion Ha as [|? ? Hc Ha']; subst.
    destruct (Z.eqb_spec c CHAR_DP) as [->|_]; [discriminate Hc|].
    rewrite Hc. cbn [negb]. now rewrite IH.
Qed.

(** X19. A number with a second decimal point at the start of the term is a
    Syntax error, whatever follows, and no token is left. *)
Theorem a_second_decimal_point_is_a_syntax_error (c : Z) (a b rest : list Z)
        (old : Tokens) :
  isdigit c = true ->
  Forall (fun c => isdigit c = true) a ->
  Forall (fun c => isdigit c = true) b ->
  exists t,
    calc_prepare (c :: a ++ CHAR_DP :: b ++ CHAR_DP :: rest) old
      = Some (ERROR_SYNTAX, t) /\
    tok_type_list t = [].
Proof.
  intros Hc Ha Hb.
  pose proof (@scan_float_two_points (c :: a) b rest
                (Forall_cons _ Hc Ha) Hb) as Hscan.
  cbn [app] in Hscan.
  unfold calc_prepare, calc_scan. cbn [length calc_loop].
  unfold calc_step. rewrite Hc, Hscan. cbn [obind sbind].
  eexists. split; reflexivity.
Qed.

End ExpressionResults.

Section ModeInvariants.

Context {P : Platform}.

(** ** The mode recorded for the error screen *)

Lemma calc_prepare_codes (term : list Z) (old : Tokens) (e : Z) (t : Tokens) :
  calc_prepare term old = Some (e, t) ->
  e = 0 \/ e = ERROR_SYNTAX \/ e = ERROR_NOMEM.
Proof.
  unfold calc_prepare, calc_scan. intros H.
  destruct (calc_loop _ _ _) as [r|] eqn:E; [|discriminate].
  cbn [obind] in H. apply calc_loop_codes in E.
  assert (step_codes (sbind r (fun s => pop_all (op_stack s) s))) as Hc.
  { apply sbind_codes; [exact E|]. intros a. apply pop_all_codes. }
  destruct (sbind r _); injection H as <- <-; cbn in Hc; tauto.
Qed.

Lemma calc_solve_codes (t : Tokens) (x y0 : F) (e : Z) (y : F) :
  calc_solve t x y0 = (e, y) ->
  e = 0 \/ e = ERROR_SYNTAX \/ e = ERROR_MATH \/ e = ERROR_NOMEM.
Proof.
  unfold calc_solve. destruct (solve_loop _ _ _ _) as [e'|s] eqn:E.
  - apply solve_loop_code in E. intros H. injection H as <- _. tauto.
  - destruct (num_stack s) as [|? [|? ?]]; intros H; injection H as <- _;
      auto.
Qed.

Lemma same_term_refl (a : App) : same_term a a.
Proof. unfold same_term. auto. Qed.

Lemma same_term_trans (a b c : App) :
  same_term a b -> same_term b c -> same_term a c.
Proof.
  unfold same_term. intros (-> & -> & -> & ->) (-> & -> & -> & ->). auto.
Qed.

Lemma mode_table_update_term (a : App) : same_term a (mode_table_update a).
Proof.
  unfold same_term, mode_table_update.
  destruct (calc_solve _ _ _) as (err, y).
  destruct (negb (err =? 0)); auto.
Qed.

Lemma mode_settings_state (a a' : App) :
  mode_settings a = Some a' ->
  _event a' = on_mode_settings_event /\ _mode a' = on_mode_settings /\
  fld_term a' = fld_term a /\ x_cnt a' = x_cnt a /\
  compiled a' = compiled a.
Proof.
  unfold mode_settings. intros H.
  destruct (cstring _ (buf (fld_start a)) 0); [|discriminate].
  destruct (cstring _ (buf (fld_step a)) 0); [|discriminate].
  cbn in H. injection H as <-. auto.
Qed.

(** What the enter key of Entry mode leads to. *)
Lemma mode_input_enter_cases (a a' : App) :
  mode_input_enter a = Some a' ->
  exists term e t,
    cstring (Z.to_nat TERM_MAX_LEN) (buf (fld_term a)) 0 = Some term /\
    calc_prepare term (compiled a) = Some (e, t) /\
    ((exists err,
        (err = ERROR_SYNTAX \/ err = ERROR_MATH \/ err = ERROR_NOMEM) /\
        a' = mode_error err (set_compiled a t)) \/
     (e = 0 /\ x_cnt a <> 0 /\ mode_settings (set_compiled a t) = Some a') \/
     (exists y, a' = mode_result y (set_compiled a t))).
Proof.
  unfold mode_input_enter. intros H.
  destruct (cstring _ _ _) as [term|]; [|discriminate]. cbn [obind] in H.
  destruct (calc_prepare term (compiled a)) as [(e, t)|] eqn:Ec;
    [|discriminate].
  cbn [obind] in H. exists term, e, t. split; [reflexivity|].
  split; [exact Ec|].
  pose proof (calc_prepare_codes _ _ Ec) as He.
  destruct (Z.eqb_spec e 0) as [->|Hne]; cbn [negb] in H.
  - destruct (calc_solve t (of_Z 0) (of_Z 0)) as (serr, y) eqn:Es.
    pose proof (calc_solve_codes _ _ _ Es) as Hs.
    change (x_cnt (set_compiled a t)) with (x_cnt a) in H.
    destruct (Z.eqb_spec (x_cnt a) 0) as [Hx|Hx]; cbn [negb] in H.
    + destruct (Z.eqb_spec serr 0) as [->|Hs0]; cbn [negb] in H;
        injection H as <-.
      * right. right. eauto.
      * left. exists serr. split; [tauto|reflexivity].
    + destruct (Z.eqb_spec serr 0) as [->|Hs0]; cbn [negb andb] in H.
      * right. left. auto.
      * destruct (Z.eqb_spec serr ERROR_MATH) as [->|Hm]; cbn [negb] in H.
        -- right. left. auto.
        -- injection H as <-. left. exists serr. split; [tauto|reflexivity].
  - injection H as <-. left. exists e. split; [tauto|reflexivity].
Qed.

(** Every other key of Entry mode edits the term field only. *)
Lemma mode_input_event_edits (key : KEY) (a a' : App) :
  key <> KEY_3_3 -> mode_input_event key a = Some a' ->
  _event a' = _event a /\ _mode a' = _mode a /\ compiled a' = compiled a /\
  fld_start a' = fld_start a /\ fld_step a' = fld_step a /\ lcd a' = lcd a.
Proof.
  intros Hk H.
  destruct key; try contradiction; cbn [mode_input_event] in H;
    try (injection H as <-; repeat split);
    match type of H with
    | obind ?o _ = _ => destruct o; cbn [obind] in H; [|discriminate]
    end;
    injection H as <-; repeat split.
Qed.

Lemma compiled_term_same (a a' : App) :
  same_term a a' -> compiled_term a -> compiled_term a'.
Proof.
  unfold same_term, compiled_term. intros (-> & -> & -> & _). trivial.
Qed.

(** What a key leads to in each mode. *)
Lemma mode_input_event_outcome (key : KEY) (a a' : App) :
  mode_input_event key a = Some a' ->
  (_event a' = _event a /\ _mode a' = _mode a) \/
  (exists err a0,
     (err = ERROR_SYNTAX \/ err = ERROR_MATH \/ err = ERROR_NOMEM) /\
     a' = mode_error err a0 /\ _mode a0 = _mode a) \/
  (_event a' = on_mode_settings_event /\ _mode a' = on_mode_settings /\
   compiled_term a') \/
  (_event a' = on_mode_result_event /\ _mode a' = _mode a).
Proof.
  intros H.
  destruct (Z.eq_dec (key_code key) (key_code KEY_3_3)) as [Hk|Hk].
  - assert (key = KEY_3_3) as -> by (destruct key; trivial; discriminate).
    cbn [mode_input_event] in H.
    destruct (mode_input_enter_cases _ H)
      as (term & e & t & Hterm & Hc & [(err & He & ->)|[(-> & Hx & Hs)|(y & ->)]]).
    + right. left. exists err, (set_compiled a t). auto.
    + right. right. left.
      destruct (mode_settings_state _ Hs) as (He & Hm & Hft & Hxc & Hcomp).
      split; [exact He|]. split; [exact Hm|].
      unfold compiled_term. rewrite Hft, Hxc, Hcomp. cbn.
      split; [exact Hx|]. exists term, (compiled a). auto.
    + right. right. right. auto.
  - assert (key <> KEY_3_3) as Hne by (intros ->; now apply Hk).
    destruct (@mode_input_event_edits key a a' Hne H) as (He & Hm & _).
    left. auto.
Qed.

Lemma mode_settings_enter_outcome (a a' : App) :
  mode_settings_enter a = Some a' ->
  same_term a a' /\
  (_event a' = on_mode_table_event \/
   exists a0, a' = mode_error ERROR_RANGE a0).
Proof.
  unfold mode_settings_enter. intros H.
  destruct (cstring _ (buf (fld_start a)) 0) as [s1|]; [|discriminate].
  cbn [obind] in H. cbv zeta in H.
  destruct (cstring _ _ 0) as [s2|]; [|discriminate].
  cbn [obind] in H.
  destruct (feqb _ _); injection H as <-.
  - split; [unfold same_term; auto|]. right. eauto.
  - split.
    + eapply same_term_trans; [|apply mode_table_update_term].
      unfold same_term. auto.
    + left. unfold mode_table.
      destruct (mode_table_update_state
                  (show (set_event
                           (set_tbl_pos
                              (set_tbl_step (set_tbl_start a (atof s1))
                                 (atof s2)) (of_Z 0)) on_mode_table_event)
                     [lcd_command false; lcd_cursor 0 0; lcd_data 88;
                      lcd_data 61; lcd_cursor 0 1; lcd_data 89; lcd_data 61]))
        as (He & _).
      exact He.
Qed.

Lemma set_cur_fld_term (a : App) (f : Field) :
  same_term a (set_cur_fld a f) /\ _event (set_cur_fld a f) = _event a.
Proof. unfold set_cur_fld, same_term. destruct (tbl_cur_fld a); auto. Qed.

Lemma mode_settings_event_outcome (key : KEY) (a a' : App) :
  mode_settings_event key a = Some a' ->
  (_event a' = on_mode_input_event /\ _mode a' = on_mode_input) \/
  (same_term a a' /\
   (_event a' = _event a \/ _event a' = on_mode_table_event \/
    exists a0, a' = mode_error ERROR_RANGE a0)).
Proof.
  unfold mode_settings_event. intros H.
  destruct (field_number_event (cur_fld a) key) as [f|]; [|discriminate].
  cbn [obind] in H. cbv zeta in H.
  destruct (set_cur_fld_term a f) as (Hst & Hse).
  set (a1 := set_cur_fld a f) in *.
  destruct key;
    first
      [ (* enter *)
        destruct (mode_settings_enter_outcome _ H) as (Hs' & Ho);
        right; split; [exact (same_term_trans Hst Hs')|tauto]
      | (* keys of the number field, up and down *)
        injection H as <-; right; split; [exact Hst|left; exact Hse]
      | (* escape *)
        injection H as <-; left; split; reflexivity
      | (* minus *)
        destruct (set_cur_fld_term a1 (field_ins_chr (cur_fld a1) 45))
          as (Hst2 & Hse2);
        destruct (tbl_cur_fld a1); injection H as <-; right;
        [ split; [exact (same_term_trans Hst Hst2)|left; congruence]
        | split; [exact Hst|left; exact Hse] ] ].
Qed.

Lemma mode_table_event_outcome (key : KEY) (a : App) :
  (_event (mode_table_event key a) = on_mode_input_event /\
   _mode (mode_table_event key a) = on_mode_input) \/
  (same_term a (mode_table_event key a) /\
   _event (mode_table_event key a) = _event a).
Proof.
  rewrite mode_table_event_cases.
  destruct (mode_table_leaves key); [left; auto|].
  destruct (nav_position key (tbl_pos a)) as [p|].
  - right. split.
    + eapply same_term_trans; [|apply mode_table_update_term].
      unfold same_term. auto.
    + destruct (mode_table_update_state (set_tbl_pos a p)) as (He & _).
      exact He.
  - right. split; [apply same_term_refl|reflexivity].
Qed.

Lemma mode_error_event_outcome (key : KEY) (a a' : App) :
  mode_error_event key a = Some a' ->
  (_mode a = on_mode_input /\ _event a' = on_mode_input_event /\
   _mode a' = on_mode_input /\ same_fields a a') \/
  (_mode a = on_mode_settings /\ _event a' = on_mode_settings_event /\
   _mode a' = on_mode_settings /\ same_term a a' /\ same_fields a a').
Proof.
  unfold mode_error_event. intros H. destruct (_mode a) eqn:Em.
  - injection H as <-. left. repeat split.
  - destruct (mode_settings_state _ H) as (He & Hm & Hft & Hxc & Hcomp).
    right. split; [reflexivity|]. split; [exact He|]. split; [exact Hm|].
    split; [|now apply mode_settings_fields].
    unfold same_term. rewrite Hft, Hxc, Hcomp, Hm, Em. auto.
Qed.

(** The invariant of the controller. *)
Lemma dispatch_consistent (key : KEY) (a a' : App) :
  mode_consistent a -> (plotting a -> compiled_term a) ->
  dispatch key a = Some a' ->
  mode_consistent a' /\ (plotting a' -> compiled_term a').
Proof.
  unfold mode_consistent, plotting, dispatch. intros J K H.
  destruct (_event a) eqn:Ev.
  - destruct (mode_input_event_outcome _ _ H)
      as [(He & Hm)|[(err & a0 & _ & -> & Hm)|[(He & Hm & Hc)|(He & Hm)]]].
    + rewrite He, Hm, Ev. split; [exact J|contradiction].
    + cbn. rewrite Hm, J. split; [exact I|discriminate].
    + rewrite He, Hm. auto.
    + rewrite He, Hm. split; [exact J|contradiction].
  - unfold mode_result_event in H.
    destruct (mode_input_event_outcome _ _ H)
      as [(He & Hm)|[(err & a0 & _ & -> & Hm)|[(He & Hm & Hc)|(He & Hm)]]].
    + rewrite He, Hm. cbn. split; [reflexivity|contradiction].
    + cbn. rewrite Hm. cbn. split; [exact I|discriminate].
    + rewrite He, Hm. auto.
    + rewrite He, Hm. cbn. split; [reflexivity|contradiction].
  - injection H as <-.
    destruct (mode_table_event_outcome key a) as [(He & Hm)|(Hs & He)].
    + rewrite He, Hm. split; [reflexivity|contradiction].
    + pose proof Hs as (_ & _ & _ & Hm). rewrite He, Ev, Hm.
      split; [exact J|]. intros _.
      apply (compiled_term_same Hs). now apply K.
  - destruct (mode_settings_event_outcome _ _ H)
      as [(He & Hm)|(Hs & [He|[He|(a0 & Ha0)]])].
    + rewrite He, Hm. split; [reflexivity|contradiction].
    + pose proof Hs as (_ & _ & _ & Hm). rewrite He, Ev, Hm.
      split; [exact J|]. intros _.
      apply (compiled_term_same Hs). now apply K.
    + pose proof Hs as (_ & _ & _ & Hm). rewrite He, Hm.
      split; [exact J|]. intros _.
      apply (compiled_term_same Hs). now apply K.
    + pose proof Hs as (_ & _ & _ & Hm). rewrite Hm. subst a'. cbn.
      split; [exact I|]. intros _.
      apply (compiled_term_same Hs). now apply K.
  - destruct (mode_error_event_outcome _ _ H)
      as [(Hm0 & He & Hm & _)|(Hm0 & He & Hm & Hs & _)].
    + rewrite He, Hm. split; [reflexivity|contradiction].
    + rewrite He, Hm. split; [reflexivity|]. intros _.
      apply (compiled_term_same Hs). now apply K.
Qed.

Lemma run_consistent (keys : list KEY) :
  forall a a',
    mode_consistent a -> (plotting a -> compiled_term a) ->
    run keys a = Some a' ->
    mode_consistent a' /\ (plotting a' -> compiled_term a').
Proof.
  induction keys as [|k keys IH]; intros a a' J K H; cbn [run] in H.
  - injection H as <-. auto.
  - destruct (dispatch k a) as [a1|] eqn:E; [|discriminate].
    cbn [obind] in H.
    destruct (dispatch_consistent k J K E) as (J1 & K1).
    now apply (IH a1).
Qed.

Lemma main_consistent (m_term m_start m_step : mem) :
  mode_consistent (main m_term m_start m_step) /\
  (plotting (main m_term m_start m_step) ->
   compiled_term (main m_term m_start m_step)).
Proof. unfold mode_consistent, plotting. cbn. split; [reflexivity|contradiction]. Qed.

(** X20. In Settings mode and in Table mode the tokens are the compilation of
    the string in the term buffer, which the keys of these modes cannot
    change, and the usage counter is not zero: the table is the table of
    the expression in the term field. *)
Theorem the_table_is_the_table_of_the_term (m_term m_start m_step : mem)
        (keys : list KEY) (a : App) :
  run keys (main m_term m_start m_step) = Some a ->
  mode_of a = Settings \/ mode_of a = Table ->
  x_cnt a <> 0 /\
  exists term old,
    cstring (Z.to_nat TERM_MAX_LEN) (buf (fld_term a)) 0 = Some term /\
    calc_prepare term old = Some (0, compiled a).
Proof.
  intros Hrun Hmode.
  destruct (main_consistent m_term m_start m_step) as (J0 & K0).
  destruct (run_consistent keys J0 K0 Hrun) as (_ & K).
  apply K. unfold plotting. unfold mode_of in Hmode.
  destruct (_event a); trivial; destruct Hmode; discriminate.
Qed.

(** X21. The key that follows an error screen leads, when its handler
    returns, to the mode the error was raised from: to Settings after the
    Range error of Settings mode, and to Entry after an error of the
    enter key in Entry or Result mode.  No other mode raises an error,
    and the Fields are as they were. *)
Theorem an_error_screen_returns_to_its_mode (m_term m_start m_step : mem)
        (keys : list KEY) (key key2 : KEY) (a a' a'' : App) :
  run keys (main m_term m_start m_step) = Some a ->
  dispatch key a = Some a' -> mode_of a' = Error ->
  dispatch key2 a' = Some a'' ->
  same_fields a' a'' /\
  ((mode_of a = Settings /\ mode_of a'' = Settings) \/
   ((mode_of a = Entry \/ mode_of a = Result) /\ mode_of a'' = Entry)).
Proof.
  intros Hrun Hd Herr Hd2.
  destruct (main_consistent m_term m_start m_step) as (J0 & K0).
  destruct (run_consistent keys J0 K0 Hrun) as (J & _).
  assert (_event a' = on_mode_error_event) as Hev'.
  { unfold mode_of in Herr. destruct (_event a'); trivial; discriminate. }
  assert ((mode_of a = Settings /\ _mode a' = on_mode_settings) \/
          ((mode_of a = Entry \/ mode_of a = Result) /\
           _mode a' = on_mode_input)) as Horigin.
  { unfold mode_consistent in J. unfold dispatch in Hd. unfold mode_of.
    destruct (_event a) eqn:Ev.
    - destruct (mode_input_event_outcome _ _ Hd)
        as [(He & Hm)|[(err & a0 & _ & -> & Hm)|[(He & Hm & Hc)|(He & Hm)]]];
        try congruence.
      right. cbn. split; [auto|congruence].
    - unfold mode_result_event in Hd.
      destruct (mode_input_event_outcome _ _ Hd)
        as [(He & Hm)|[(err & a0 & _ & -> & Hm)|[(He & Hm & Hc)|(He & Hm)]]];
        try (cbn in He; congruence).
      right. cbn. split; [auto|]. rewrite Hm. reflexivity.
    - injection Hd as <-.
      destruct (mode_table_event_outcome key a) as [(He & Hm)|(Hs & He)];
        congruence.
    - destruct (mode_settings_event_outcome _ _ Hd)
        as [(He & Hm)|(Hs & [He|[He|(a0 & Ha0)]])]; try congruence.
      left. split; [reflexivity|]. destruct Hs as (_ & _ & _ & Hm). congruence.
    - destruct (mode_error_event_outcome _ _ Hd)
        as [(Hm0 & He & Hm & _)|(Hm0 & He & Hm & Hs & _)]; congruence. }
  unfold dispatch in Hd2. rewrite Hev' in Hd2.
  destruct (mode_error_event_outcome _ _ Hd2)
    as [(Hm0 & He & Hm & Hf)|(Hm0 & He & Hm & Hs & Hf)];
    (split; [exact Hf|]);
    destruct Horigin as [(Ho & Hm')|(Ho & Hm')]; try congruence;
    [right|left]; (split; [exact Ho|]); unfold mode_of; rewrite He;
    reflexivity.
Qed.

(** X22. Whenever a key leads to the error screen, the code passed to
    [mode_error] is one of the four error codes, so that the message is
    read inside [_err_msg]: the screen shows that message and the prompt.
    The code is Range exactly when the key was pressed in Settings
    mode. *)
Theorem the_error_screen_shows_a_message (key : KEY) (a a' : App) :
  dispatch key a = Some a' -> mode_of a' = Error ->
  exists err a0 msg,
    (err = ERROR_SYNTAX \/ err = ERROR_MATH \/ err = ERROR_NOMEM \/
     err = ERROR_RANGE) /\
    a' = mode_error err a0 /\
    nth_error _err_msg (Z.to_nat (err - 1)) = Some msg /\
    lcd a' = lcd a0 ++ error_screen msg /\
    (err = ERROR_RANGE <-> mode_of a = Settings).
Proof.
  intros Hd Herr.
  assert (_event a' = on_mode_error_event) as Hev'.
  { unfold mode_of in Herr. destruct (_event a'); trivial; discriminate. }
  assert (exists err a0,
            a' = mode_error err a0 /\
            ((err = ERROR_RANGE /\ mode_of a = Settings) \/
             ((err = ERROR_SYNTAX \/ err = ERROR_MATH \/ err = ERROR_NOMEM)
              /\ mode_of a <> Settings))) as (err & a0 & -> & Hcode).
  { unfold dispatch in Hd. unfold mode_of.
    destruct (_event a) eqn:Ev.
    - destruct (mode_input_event_outcome _ _ Hd)
        as [(He & Hm)|[(err & a0 & Hc & -> & Hm)|[(He & Hm & Hc)|(He & Hm)]]];
        try congruence.
      exists err, a0. split; [reflexivity|]. right. split; [exact Hc|discriminate].
    - unfold mode_result_event in Hd.
      destruct (mode_input_event_outcome _ _ Hd)
        as [(He & Hm)|[(err & a0 & Hc & -> & Hm)|[(He & Hm & Hc)|(He & Hm)]]];
        try (cbn in He; congruence).
      exists err, a0. split; [reflexivity|]. right. split; [exact Hc|discriminate].
    - injection Hd as <-.
      destruct (mode_table_event_outcome key a) as [(He & Hm)|(Hs & He)];
        congruence.
    - destruct (mode_settings_event_outcome _ _ Hd)
        as [(He & Hm)|(Hs & [He|[He|(a0 & Ha0)]])]; try congruence.
      exists ERROR_RANGE, a0. split; [exact Ha0|]. left. auto.
    - destruct (mode_error_event_outcome _ _ Hd)
        as [(Hm0 & He & Hm & _)|(Hm0 & He & Hm & Hs & _)]; congruence. }
  exists err, a0.
  destruct Hcode as [(-> & Hs)|([->|[->| ->]] & Hs)];
    eexists; (split; [auto|]); (split; [reflexivity|]);
    (split; [reflexivity|]); (split; [reflexivity|]);
    (split; [intros E; first [exact Hs|discriminate E]
            |intros E; first [reflexivity|contradiction]]).
Qed.

End ModeInvariants.

(** ** The number fields and the widths along a run *)

Lemma field_shrink_width (f f1 : Field) (n : Z) :
  field_shrink f n = Some f1 -> width f1 = width f.
Proof.
  unfold field_shrink. destruct (buf f (pos f) =? 0).
  - now intros [= <-].
  - destruct (shrink_loop _ _ _ _); cbn [obind]; [|discriminate].
    now intros [= <-].
Qed.

Lemma ins_loop_width (n : nat) :
  forall f s, width (ins_loop n f s) = width f.
Proof.
  induction n as [|n IH]; intros f s; [reflexivity|].
  cbn [ins_loop]. now rewrite IH.
Qed.

Lemma field_ins_chr_width (f : Field) (c : Z) :
  width (field_ins_chr f c) = width f.
Proof. unfold field_ins_chr. now destruct (len f + 1 <? max f). Qed.

Lemma field_ins_str_P_width (f : Field) (s : list Z) (n : Z) :
  width (field_ins_str_P f s n) = width f.
Proof.
  unfold field_ins_str_P. destruct (len f + n + 1 <? max f); [|reflexivity].
  cbn [width set_pos set_buf]. now rewrite ins_loop_width.
Qed.

Lemma field_delete_width (f f' : Field) :
  field_delete f = Some f' -> width f' = width f.
Proof.
  unfold field_delete. destruct (0 <? pos f); [|now intros [= <-]].
  destruct (field_shrink f 1) as [f1|] eqn:E; cbn [obind]; [|discriminate].
  intros [= <-]. cbn. exact (field_shrink_width _ _ E).
Qed.

Lemma field_term_delete_width (f f' : Field) (x x' : Z) :
  field_term_delete f x = Some (f', x') -> width f' = width f.
Proof.
  unfold field_term_delete. destruct (0 <? pos f); [|now intros [= <- _]].
  cbv zeta.
  match goal with
  | |- obind ?o _ = _ -> _ => destruct o as [nx|]; cbn [obind]; [|discriminate]
  end.
  destruct (field_shrink f (fst nx)) as [f1|] eqn:E; cbn [obind];
    [|discriminate].
  intros [= <- _]. cbn. exact (field_shrink_width _ _ E).
Qed.

Lemma field_term_mv_left_width (f f' : Field) :
  field_term_mv_left f = Some f' -> width f' = width f.
Proof.
  unfold field_term_mv_left. destruct (0 <? pos f); [|now intros [= <-]].
  cbv zeta. destruct (buf f (pos f - 1) =? CHAR_LP); [|now intros [= <-]].
  destruct (scan_down _ _ _); cbn [obind]; [|discriminate].
  now intros [= <-].
Qed.

Lemma field_term_mv_right_width (f f' : Field) :
  field_term_mv_right f = Some f' -> width f' = width f.
Proof.
  unfold field_term_mv_right. destruct (pos f <? len f); [|now intros [= <-]].
  match goal with
  | |- obind ?o _ = _ -> _ => destruct o; cbn [obind]; [|discriminate]
  end.
  now intros [= <-].
Qed.

Lemma number_char_nonzero (minus : bool) (c : Z) :
  number_char minus c = true -> c <> 0.
Proof. intros H ->. now destruct minus. Qed.

Lemma forallb_split {A : Type} (p : A -> bool) (n : nat) (l : list A) :
  forallb p l = forallb p (firstn n l) && forallb p (skipn n l).
Proof. now rewrite <- forallb_app, firstn_skipn. Qed.

Lemma field_ins_chr_number (minus : bool) (w : Z) (f : Field) (c : Z) :
  number_char minus c = true ->
  number_field minus w f -> number_field minus w (field_ins_chr f c).
Proof.
  intros Hc (Ht & Hm & Hw & Hall).
  destruct (Z.ltb_spec (len f + 1) (max f)) as [Hroom|Hfull].
  - destruct (field_ins_chr_text Ht (@number_char_nonzero minus c Hc) Hroom)
      as (Ht' & Hcont).
    destruct (field_ins_chr_buf c Ht Hroom) as (_ & _ & Hmax & _).
    split; [exact Ht'|]. split; [lia|].
    split; [now rewrite field_ins_chr_width|].
    rewrite Hcont, forallb_app. cbn [forallb]. rewrite Hc.
    rewrite (forallb_split _ (Z.to_nat (pos f))) in Hall.
    apply andb_true_iff in Hall as (-> & ->). reflexivity.
  - unfold field_ins_chr.
    destruct (Z.ltb_spec (len f + 1) (max f)); [lia|].
    repeat split; trivial; apply Ht.
Qed.

Lemma field_delete_number (minus : bool) (w : Z) (f : Field) :
  number_field minus w f ->
  exists f', field_delete f = Some f' /\ number_field minus w f'.
Proof.
  intros (Ht & Hm & Hw & Hall).
  destruct (Z.ltb_spec 0 (pos f)) as [Hpos|Hpos].
  - destruct (field_delete_text Ht Hpos)
      as (f' & Hd & Ht' & _ & _ & Hmax & Hcont).
    exists f'. split; [exact Hd|].
    split; [exact Ht'|]. split; [lia|].
    split; [now rewrite (field_delete_width _ Hd)|].
    rewrite Hcont, forallb_app.
    pose proof Hall as Hall2.
    rewrite (forallb_split _ (Z.to_nat (pos f))) in Hall.
    apply andb_true_iff in Hall as (_ & ->).
    rewrite (forallb_split _ (Z.to_nat (pos f - 1))) in Hall2.
    apply andb_true_iff in Hall2 as (-> & _). reflexivity.
  - exists f. unfold field_delete.
    destruct (Z.ltb_spec 0 (pos f)); [lia|].
    split; [reflexivity|]. repeat split; trivial; apply Ht.
Qed.

Lemma field_clear_number (minus : bool) (w : Z) (f : Field) :
  number_field minus w f -> number_field minus w (field_clear f).
Proof.
  intros (((Hp & Hl) & Hi & _) & Hm & Hw & _).
  unfold number_field, text_wf, field_inv, content, field_clear.
  cbn [pos len max buf width set_buf set_pos set_len Z.to_nat bytes_at forallb].
  rewrite upd_same. repeat split; trivial; lia.
Qed.

Lemma set_pos_number (minus : bool) (w : Z) (f : Field) (p : Z) :
  0 <= p <= len f ->
  number_field minus w f -> number_field minus w (set_pos f p).
Proof.
  intros Hp (((_ & Hl) & Hi & Hz & Hnz) & Hm & Hw & Hall).
  unfold number_field, text_wf, field_inv, content in *.
  cbn [pos len max buf width set_pos]. repeat split; trivial; lia.
Qed.

Lemma field_mv_left_number (minus : bool) (w : Z) (f : Field) :
  number_field minus w f -> number_field minus w (field_mv_left f).
Proof.
  intros H. pose proof H as (((Hp & Hl) & _) & _).
  unfold field_mv_left. destruct (Z.ltb_spec 0 (pos f));
    apply set_pos_number; trivial; lia.
Qed.

Lemma field_mv_right_number (minus : bool) (w : Z) (f : Field) :
  number_field minus w f -> number_field minus w (field_mv_right f).
Proof.
  intros H. pose proof H as (((Hp & Hl) & _) & _).
  unfold field_mv_right. destruct (Z.ltb_spec (pos f) (len f));
    apply set_pos_number; trivial; lia.
Qed.

Lemma field_number_event_number (minus : bool) (w : Z) (f : Field)
      (key : KEY) :
  number_field minus w f ->
  exists f', field_number_event f key = Some f' /\ number_field minus w f'.
Proof.
  intros H.
  destruct key; cbn [field_number_event];
    try (eexists; split; [reflexivity|];
         first [ exact H
               | apply field_ins_chr_number;
                 [now destruct minus|exact H]
               | now apply field_clear_number
               | now apply field_mv_left_number
               | now apply field_mv_right_number ]).
  now apply field_delete_number.
Qed.

Section DrawnFields.

Context {P : Platform}.

Lemma same_fields_drawn (a a' : App) :
  same_fields a a' -> drawn a -> drawn a'.
Proof. intros (Ht & Hs & Hp). unfold drawn. now rewrite Ht, Hs, Hp. Qed.

Lemma mode_input_event_width (key : KEY) (a a' : App) :
  mode_input_event key a = Some a' ->
  width (fld_term a') = width (fld_term a).
Proof.
  intros H.
  destruct key; cbn [mode_input_event] in H;
    try (injection H as <-; cbn [fld_term set_fld_term set_x_cnt];
         first [ apply field_ins_chr_width | apply field_ins_str_P_width
               | reflexivity ]).
  - destruct (mode_input_enter_fields _ H) as (-> & _). reflexivity.
  - destruct (field_term_delete (fld_term a) (x_cnt a)) as [(f', x')|] eqn:E;
      cbn [obind] in H; [|discriminate].
    injection H as <-. cbn. exact (field_term_delete_width _ _ E).
  - destruct (field_term_mv_right (fld_term a)) as [f'|] eqn:E;
      cbn [obind] in H; [|discriminate].
    injection H as <-. cbn. exact (field_term_mv_right_width _ E).
  - destruct (field_term_mv_left (fld_term a)) as [f'|] eqn:E;
      cbn [obind] in H; [|discriminate].
    injection H as <-. cbn. exact (field_term_mv_left_width _ E).
Qed.

Lemma mode_input_event_drawn (key : KEY) (a a' : App) :
  drawn a -> mode_input_event key a = Some a' -> drawn a'.
Proof.
  intros (Hs & Hp & Hw) H.
  assert (fld_start a' = fld_start a /\ fld_step a' = fld_step a)
    as (Es & Ep).
  { assert (key = KEY_3_3 \/ key <> KEY_3_3) as [->|Hk]
        by (destruct key; first [left; reflexivity|right; discriminate]).
    - destruct (mode_input_enter_fields _ H) as (_ & ? & ?). auto.
    - destruct (@mode_input_event_edits _ key a a' Hk H)
        as (_ & _ & _ & ? & ? & _). auto. }
  unfold drawn. rewrite Es, Ep, (mode_input_event_width _ _ H). auto.
Qed.

Lemma mode_settings_event_drawn (key : KEY) (a a' : App) :
  drawn a -> mode_settings_event key a = Some a' -> drawn a'.
Proof.
  intros Hd H. pose proof Hd as (Hs & Hp & Hw).
  unfold mode_settings_event in H.
  assert (exists f,
            field_number_event (cur_fld a) key = Some f /\
            drawn (set_cur_fld a f)) as (f & Hf & Hd1).
  { unfold cur_fld, set_cur_fld.
    destruct (tbl_cur_fld a).
    - destruct (field_number_event_number key Hs) as (f & Hf & Hn).
      exists f. split; [exact Hf|]. unfold drawn. cbn. auto.
    - destruct (field_number_event_number key Hp) as (f & Hf & Hn).
      exists f. split; [exact Hf|]. unfold drawn. cbn. auto. }
  rewrite Hf in H. cbn [obind] in H. cbv zeta in H.
  set (a1 := set_cur_fld a f) in *.
  destruct key;
    try (injection H as <-; exact Hd1);
    try (injection H as <-;
         eapply same_fields_drawn; [|exact Hd1]; unfold same_fields;
         now auto).
  - eapply same_fields_drawn; [|exact Hd1].
    now apply mode_settings_enter_fields.
  - destruct (tbl_cur_fld a1) eqn:E1; injection H as <-; [|exact Hd1].
    destruct Hd1 as (Hs1 & Hp1 & Hw1).
    unfold set_cur_fld, cur_fld. rewrite E1. unfold drawn.
    cbn [fld_start fld_step fld_term set_fld_start].
    split; [|auto]. apply field_ins_chr_number; [reflexivity|exact Hs1].
Qed.

Lemma dispatch_drawn (key : KEY) (a a' : App) :
  drawn a -> dispatch key a = Some a' -> drawn a'.
Proof.
  intros Hd H. unfold dispatch in H. destruct (_event a).
  - exact (mode_input_event_drawn key Hd H).
  - unfold mode_result_event in H.
    apply (mode_input_event_drawn key (a := mode_input a)); [|exact H].
    exact (same_fields_drawn (mode_input_fields a) Hd).
  - injection H as <-.
    exact (same_fields_drawn (mode_table_event_fields key a) Hd).
  - exact (mode_settings_event_drawn key Hd H).
  - unfold mode_error_event in H. destruct (_mode a).
    + injection H as <-. exact (same_fields_drawn (mode_input_fields a) Hd).
    + exact (same_fields_drawn (mode_settings_fields a H) Hd).
Qed.

Lemma run_drawn (keys : list KEY) :
  forall a a', drawn a -> run keys a = Some a' -> drawn a'.
Proof.
  induction keys as [|k keys IH]; intros a a' Hd H; cbn [run] in H.
  - now injection H as <-.
  - destruct (dispatch k a) as [a1|] eqn:E; [|discriminate].
    cbn [obind] in H. apply (IH a1); trivial. exact (dispatch_drawn k Hd E).
Qed.

Lemma main_drawn (m_term m_start m_step : mem) :
  drawn (main m_term m_start m_step).
Proof.
  apply (same_fields_drawn (mode_input_fields _)).
  unfold drawn, number_field, text_wf, field_inv, content.
  cbn. unfold static_array. cbn.
  repeat split; trivial; try lia; try discriminate; intros; lia.
Qed.

End DrawnFields.

Section DrawnTheorems.

Context {P : Platform}.

(** X2. With the cursor after the start, the copy loop of [field_delete]
    exits, the character before the cursor is removed, the cursor moves
    one to the left and the text stays NUL-terminated; the redraw the
    function ends with returns when the text had at most 128 characters
    in a Field 1 to 127 columns wide.  With the cursor at the start the
    function does nothing. *)
Theorem field_delete_removes_before_the_cursor (f : Field) :
  text_wf f ->
  exists f',
    field_delete f = Some f' /\ text_wf f' /\
    (0 < pos f ->
       content f' =
         firstn (Z.to_nat (pos f - 1)) (content f) ++
         skipn (Z.to_nat (pos f)) (content f) /\
       pos f' = pos f - 1 /\ len f' = len f - 1 /\
       (len f <= 128 -> 1 <= width f <= 127 ->
        exists ops, field_update f' = Some ops)) /\
    (pos f = 0 -> f' = f).
Proof.
  intros Hwf. destruct (Z.ltb_spec 0 (pos f)) as [Hpos|Hpos].
  - destruct (field_delete_text Hwf Hpos)
      as (f' & Hd & Hw & Hp & Hl & _ & Hc).
    exists f'. split; [exact Hd|]. split; [exact Hw|]. split; [|lia].
    intros _. split; [exact Hc|]. split; [exact Hp|]. split; [exact Hl|].
    intros Hlen Hwidth. eexists. apply field_update_spec; trivial; [lia|].
    now rewrite (field_delete_width _ Hd).
  - exists f. unfold field_delete.
    destruct (Z.ltb_spec 0 (pos f)); [lia|].
    split; [reflexivity|]. split; [exact Hwf|]. split; [lia|trivial].
Qed.

(** X23. In every state the keys reach, on a display of 7 to 127 columns,
    [field_update] returns on the start field and on the step field.  On
    the term field it returns as long as the term has at most 127
    characters, provided the byte in front of the term buffer is not a
    lower-case letter. *)
Theorem the_number_fields_are_always_drawn (m_term m_start m_step : mem)
        (keys : list KEY) (a : App) :
  MSG_START_LEN + 1 <= LCD_WIDTH <= 127 ->
  run keys (main m_term m_start m_step) = Some a ->
  (exists ops, field_update (fld_start a) = Some ops) /\
  (exists ops, field_update (fld_step a) = Some ops) /\
  (islower (m_term (-1)) = false -> len (fld_term a) <= 127 ->
   exists ops, field_update (fld_term a) = Some ops).
Proof.
  intros Hlcd Hrun.
  destruct (run_drawn keys (main_drawn m_term m_start m_step) Hrun)
    as ((Ht1 & Hm1 & Hw1 & _) & (Ht2 & Hm2 & Hw2 & _) & Hw).
  unfold MSG_START_LEN in Hlcd.
  split; [|split].
  - eexists. apply field_update_spec; trivial.
    + destruct Ht1 as ((_ & ?) & _). lia.
    + rewrite Hw1. unfold MSG_START_LEN. lia.
  - eexists. apply field_update_spec; trivial.
    + destruct Ht2 as ((_ & ?) & _). lia.
    + rewrite Hw2. unfold MSG_STEP_LEN. lia.
  - intros Hg Hl.
    pose proof (run_wf keys (main_wf m_term m_start m_step Hg) Hrun)
      as ((Hraw & Hlen & Hmax) & _).
    eexists. apply field_update_spec; trivial.
    + destruct Hraw as [Hp Hz Hnz _ _ _ _].
      split; [split; [exact Hp|exact Hlen]|].
      split; [unfold INT16_LIMIT; lia|]. split; [exact Hz|exact Hnz].
    + rewrite Hw. lia.
Qed.

(** X24. In every state the keys can reach, the start field holds only
    digits, decimal points and minus signs and the step field only digits
    and decimal points, at most 15 characters each: no key puts a minus
    sign into the step field. *)
Theorem the_step_field_holds_no_minus_sign (m_term m_start m_step : mem)
        (keys : list KEY) (a : App) :
  run keys (main m_term m_start m_step) = Some a ->
  Forall (fun c => isdigit c = true \/ c = CHAR_DP \/ c = 45)
    (content (fld_start a)) /\
  Forall (fun c => isdigit c = true \/ c = CHAR_DP) (content (fld_step a)) /\
  len (fld_start a) <= 15 /\ len (fld_step a) <= 15.
Proof.
  intros Hrun.
  destruct (run_drawn keys (main_drawn m_term m_start m_step) Hrun)
    as ((Ht1 & Hm1 & _ & Hc1) & (Ht2 & Hm2 & _ & Hc2) & _).
  split; [|split; [|split]].
  - apply Forall_forall. intros c Hin.
    pose proof (proj1 (forallb_forall _ _) Hc1 c Hin) as Hc.
    unfold number_char in Hc. cbn [andb] in Hc.
    destruct (isdigit c); [now left|].
    destruct (Z.eqb_spec c CHAR_DP); [now auto|].
    destruct (Z.eqb_spec c 45); [now auto|discriminate].
  - apply Forall_forall. intros c Hin.
    pose proof (proj1 (forallb_forall _ _) Hc2 c Hin) as Hc.
    unfold number_char in Hc. cbn [andb] in Hc.
    destruct (isdigit c); [now left|].
    destruct (Z.eqb_spec c CHAR_DP); [now auto|discriminate].
  - destruct Ht1 as ((_ & ?) & _). lia.
  - destruct Ht2 as ((_ & ?) & _). lia.
Qed.

End DrawnTheorems.


(** * The theorems on concrete inputs *)

Import Ideal.

#[local] Existing Instance platform.

Lemma Req_bool_true (a b : R) : a = b -> Req_bool a b = true.
Proof. unfold Req_bool. intros ->. destruct (Req_dec_T b b); congruence. Qed.

Lemma Req_bool_false (a b : R) : a <> b -> Req_bool a b = false.
Proof. unfold Req_bool. intros H. destruct (Req_dec_T a b); congruence. Qed.

Lemma ideal_literal_2 : parse_float (P := platform) [50] = 2%R.
Proof. unfold parse_float. cbn -[IZR]. lra. Qed.

Lemma ideal_literal_3 : parse_float (P := platform) [51] = 3%R.
Proof. unfold parse_float. cbn -[IZR]. lra. Qed.

Lemma ideal_pow (a : Z) (n : nat) :
  0 < a -> Rpower (IZR a) (IZR (Z.of_nat n)) = IZR (a ^ Z.of_nat n).
Proof.
  intros Ha. rewrite <- INR_IZR_INZ, Rpower_pow, pow_IZR; trivial.
  now apply IZR_lt.
Qed.

Lemma power_is_left_associative_witness :
  parse_float (P := platform) [50] = 2%R /\
  fpow (Platform := platform) 2%R 3%R = 8%R /\
  exists t,
    calc_prepare (term_of_string "2^3^2") no_tokens = Some (0, t) /\
    calc_solve t 0%R 0%R = (0, 64%R).
Proof.
  pose proof ideal_literal_2 as H2. pose proof ideal_literal_3 as H3.
  pose proof (ideal_pow (a := 2) 3 eq_refl) as Hp1.
  pose proof (ideal_pow (a := 8) 2 eq_refl) as Hp2.
  assert (IZR 64 <> IZR 512) as Hne
      by (intros H; apply eq_IZR in H; discriminate).
  destruct (power_is_left_associative (P := platform) no_tokens 0%R 0%R
              H2 H3 Hp1 Hp2 Hne) as (_ & _ & t & Hc & _ & Hv & _).
  split; [exact H2|]. split; [exact Hp1|]. exists t. split; assumption.
Defined.

Lemma nomem_at_capacity_witness :
  exists t,
    calc_prepare (P := platform) sum_of_16 no_tokens = Some (0, t) /\
    tok_cnt t <= TOKEN_LIST_SIZE - 1.
Proof.
  assert (exists t, calc_prepare (P := platform) sum_of_16 no_tokens
                    = Some (0, t)) as (t & E)
      by (eexists; vm_compute; reflexivity).
  exists t. split; [exact E|].
  destruct (nomem_at_capacity (P := platform) no_tokens)
    as (_ & _ & _ & _ & H & _).
  exact (H sum_of_16 0 t E).
Defined.

Lemma solve_independent_of_x_witness :
  exists t,
    calc_prepare (P := platform) (term_of_string "2+3") no_tokens =
      Some (0, t) /\
    ~ In TT_X (tok_type_list t) /\
    calc_solve t 1%R 0%R = calc_solve t 2%R 0%R.
Proof.
  eexists. split; [reflexivity|].
  assert (~ In TT_X [TT_NUMBER; TT_NUMBER; TT_ADD]) as Hx
      by (cbn; intuition discriminate).
  split; [exact Hx|].
  exact (@solve_independent_of_x platform (term_of_string "2+3") no_tokens _
           eq_refl Hx 1%R 2%R 0%R).
Defined.

(** C6 (the code at the failing input). With "x(" typed and the cursor
    at 2, and with "xsin(" typed and the cursor at 5, move_left walks back
    over the free variable to position 0 and move_right then stops after
    it, at position 1: the cursor does not return to where it was. *)
Theorem move_left_right_loses_the_cursor :
  let f := fld_term (after [KEY_SHIFT_0_2; KEY_0_3]) in
  let g := fld_term (after [KEY_SHIFT_0_2; KEY_SHIFT_0_0]) in
  (pos f = 2 /\ len f = 2 /\
   option_map pos (field_term_mv_left f) = Some 0 /\
   option_map pos (obind (field_term_mv_left f) field_term_mv_right)
     = Some 1) /\
  (pos g = 5 /\ len g = 5 /\
   option_map pos (field_term_mv_left g) = Some 0 /\
   option_map pos (obind (field_term_mv_left g) field_term_mv_right)
     = Some 1).
Proof. repeat split; vm_compute; reflexivity. Qed.

(** C10 (the code at the failing inputs). After the keys x, sin, delete
    the buffer is empty and the counter is still 1; after 255 digits the
    buffer is full, and the key x adds no character but counts one. *)
Theorem x_cnt_differs_from_the_buffer :
  (let a := after [KEY_SHIFT_0_2; KEY_SHIFT_0_0; KEY_3_1] in
   len (fld_term a) = 0 /\ count_x (fld_term a) = 0 /\ x_cnt a = 1) /\
  (let a := after (repeat KEY_0_0 255 ++ [KEY_SHIFT_0_2]) in
   len (fld_term a) = 255 /\ count_x (fld_term a) = 0 /\ x_cnt a = 1).
Proof. repeat split; vm_compute; reflexivity. Qed.

Lemma entry_commit_witness :
  _event typed_sum = on_mode_input_event /\
  x_cnt typed_sum = 0 /\
  exists a', dispatch KEY_3_3 typed_sum = Some a' /\ mode_of a' = Result.
Proof.
  assert (_event typed_sum = on_mode_input_event) as Hev
      by (vm_compute; reflexivity).
  assert (x_cnt typed_sum = 0) as Hx by (vm_compute; reflexivity).
  assert (cstring (Z.to_nat TERM_MAX_LEN) (buf (fld_term typed_sum)) 0
          = Some [50; 43; 51]) as Hterm by (vm_compute; reflexivity).
  assert (cstring (Z.to_nat FIELD_START_WIDTH) (buf (fld_start typed_sum)) 0
          = Some []) as Hs1 by (vm_compute; reflexivity).
  assert (cstring (Z.to_nat FIELD_STEP_WIDTH) (buf (fld_step typed_sum)) 0
          = Some []) as Hs2 by (vm_compute; reflexivity).
  set (t := match calc_prepare [50; 43; 51] (compiled typed_sum) with
            | Some (_, t) => t
            | None => no_tokens
            end).
  assert (calc_prepare [50; 43; 51] (compiled typed_sum) = Some (0, t)) as E
      by (vm_compute; reflexivity).
  assert (fst (calc_solve t 0%R 0%R) = 0) as Hs by (vm_compute; reflexivity).
  split; [exact Hev|]. split; [exact Hx|].
  destruct (entry_commit (P := platform) typed_sum Hev Hterm Hs1 Hs2 E)
    as (a' & Hd & _ & _ & Hres & _).
  exists a'. split; [exact Hd|].
  exact (proj2 (Hres eq_refl Hx Hs)).
Defined.

Lemma table_survives_evaluation_errors_witness :
  _event table_of_inverse = on_mode_table_event /\
  nav_position KEY_1_2 (tbl_pos table_of_inverse) = Some (0 + 1)%R /\
  (exists a', dispatch KEY_1_2 table_of_inverse = Some a' /\
              mode_of a' = Table /\ tbl_pos a' = (0 + 1)%R) /\
  fst (calc_solve (compiled table_of_inverse) (0 + 0 * 1)%R 0%R)
    = ERROR_MATH /\
  exists a', dispatch KEY_1_1 table_of_inverse = Some a' /\
             mode_of a' = Table /\
             lcd a' = lcd table_of_inverse ++
               [lcd_cursor 2 0; lcd_number (0 + 0 * 1)%R 14; lcd_cursor 2 1]
               ++ repeat (lcd_data 32) 9 ++ [lcd_string_P _str_error].
Proof.
  assert (fst (calc_solve (compiled table_of_inverse) (0 + 0 * 1)%R 0%R)
          = ERROR_MATH) as Hmath.
  { unfold calc_solve. cbn -[IZR Req_bool].
    rewrite Req_bool_true by lra. reflexivity. }
  destruct (table_survives_evaluation_errors (P := platform)
              table_of_inverse eq_refl) as (Hnav & _ & _ & Hrows).
  split; [reflexivity|]. split; [reflexivity|]. split; [|split].
  - destruct (Hnav KEY_1_2 (0 + 1)%R eq_refl) as (a' & Hd & Hm & Hp & _).
    exists a'. auto.
  - exact Hmath.
  - destruct (Hnav KEY_1_1 0%R eq_refl) as (a' & Hd & Hm & _ & _ & Hl).
    exists a'. split; [exact Hd|]. split; [exact Hm|].
    rewrite Hl. f_equal. apply Hrows. intros Hz.
    pose proof (eq_trans (eq_sym Hz) Hmath) as H. discriminate H.
Defined.

Lemma settings_commit_witness :
  _event typed_settings = on_mode_settings_event /\
  cstring (Z.to_nat FIELD_START_WIDTH) (buf (fld_start typed_settings)) 0
    = Some [45; 53] /\
  cstring (Z.to_nat FIELD_STEP_WIDTH) (buf (fld_step typed_settings)) 0
    = Some [49] /\
  exists a', dispatch KEY_3_3 typed_settings = Some a' /\
             mode_of a' = Table /\ tbl_start a' = (- (5 / 1))%R /\
             tbl_step a' = (1 / 1)%R /\ tbl_pos a' = 0%R.
Proof.
  split; [reflexivity|]. split; [reflexivity|]. split; [reflexivity|].
  destruct (settings_commit (P := platform) typed_settings
              (s1 := [45; 53]) (s2 := [49]) eq_refl eq_refl eq_refl)
    as (a' & Hd & Hst & Hsp & _ & Htab).
  exists a'. split; [exact Hd|].
  destruct Htab as (Hm & Hp & _).
  { apply Req_bool_false. cbn -[IZR]. lra. }
  repeat split; trivial.
Defined.

(** ** The properties beyond the data model on concrete inputs *)

Lemma sum_field_text : text_wf sum_field.
Proof.
  split; [vm_compute; intuition discriminate|].
  split; [reflexivity|]. split; [reflexivity|].
  intros i Hi. change (len sum_field) with 3 in Hi.
  assert (i = 0 \/ i = 1 \/ i = 2) as [ -> | [ -> | -> ] ] by lia;
    vm_compute; discriminate.
Qed.

Lemma long_field_text : text_wf long_field.
Proof.
  split; [vm_compute; intuition discriminate|].
  split; [reflexivity|]. split; [reflexivity|].
  intros i Hi. cbn [buf len long_field] in *.
  destruct (Z.ltb_spec i 128); [discriminate|lia].
Qed.

Lemma field_ins_chr_inserts_at_the_cursor_witness :
  text_wf sum_field /\ 52 <> 0 /\
  content (field_ins_chr sum_field 52) = [50; 43; 51; 52] /\
  pos (field_ins_chr sum_field 52) = 4.
Proof.
  split; [exact sum_field_text|]. split; [discriminate|].
  destruct (@field_ins_chr_inserts_at_the_cursor sum_field 52 sum_field_text
              ltac:(discriminate)) as (H & _).
  destruct (H eq_refl) as (Hc & Hp & _).
  split; [exact Hc|exact Hp].
Defined.

Lemma field_delete_removes_before_the_cursor_witness :
  text_wf sum_field /\
  exists f', field_delete sum_field = Some f' /\
             content f' = [50; 43] /\ pos f' = 2 /\
             exists ops, field_update f' = Some ops.
Proof.
  split; [exact sum_field_text|].
  destruct (@field_delete_removes_before_the_cursor platform sum_field
              sum_field_text)
    as (f' & Hd & _ & H & _).
  destruct (H eq_refl) as (Hc & Hp & _ & Hu).
  exists f'. split; [exact Hd|]. split; [exact Hc|]. split; [exact Hp|].
  apply Hu; vm_compute; intuition discriminate.
Defined.

Lemma insert_then_delete_restores_the_text_witness :
  text_wf sum_field /\ 52 <> 0 /\ len sum_field + 1 < max sum_field /\
  exists f', field_delete (field_ins_chr sum_field 52) = Some f' /\
             content f' = [50; 43; 51] /\ pos f' = 3.
Proof.
  split; [exact sum_field_text|]. split; [discriminate|].
  split; [reflexivity|].
  destruct (@insert_then_delete_restores_the_text sum_field 52 sum_field_text
              ltac:(discriminate) eq_refl) as (f' & Hd & Hc & Hp & _).
  exists f'. split; [exact Hd|]. split; [exact Hc|exact Hp].
Defined.

Lemma field_mv_left_and_right_are_inverse_witness :
  field_inv sum_field /\
  pos sum_field = 3 /\ len sum_field = 3 /\
  pos (field_mv_right sum_field) = 0 /\
  pos (field_mv_left (field_mv_right sum_field)) = 3 /\
  field_mv_left (field_mv_right sum_field) = sum_field.
Proof.
  assert (field_inv sum_field) as H by (vm_compute; intuition discriminate).
  split; [exact H|]. split; [reflexivity|]. split; [reflexivity|].
  destruct (@field_mv_left_and_right_are_inverse sum_field H)
    as (_ & Hr & _ & _ & _ & Hlr).
  split; [rewrite Hr; reflexivity|].
  split; [rewrite Hlr; reflexivity|exact Hlr].
Defined.

Lemma field_ins_str_P_inserts_name_and_parenthesis_witness :
  text_wf sum_field /\ Forall (fun c => c <> 0) _str_sin /\
  Z.of_nat (length _str_sin) < 255 /\
  content (field_ins_str_P sum_field _str_sin 3) =
    [50; 43; 51; 115; 105; 110; 40] /\
  pos (field_ins_str_P sum_field _str_sin 3) = 7.
Proof.
  assert (Forall (fun c => c <> 0) _str_sin) as Hs
      by (repeat constructor; discriminate).
  split; [exact sum_field_text|]. split; [exact Hs|]. split; [reflexivity|].
  destruct (@field_ins_str_P_inserts_name_and_parenthesis sum_field _str_sin
              sum_field_text Hs eq_refl) as (H & _).
  destruct (H eq_refl) as (Hc & Hp & _).
  split; [exact Hc|exact Hp].
Defined.

Lemma function_name_is_deleted_as_a_unit_witness :
  text_wf sum_field /\ In _str_sin fn_names /\
  islower (buf sum_field (pos sum_field - 1)) = false /\
  exists f',
    field_term_delete (field_ins_str_P sum_field _str_sin 3) 0
      = Some (f', 0) /\
    content f' = [50; 43; 51] /\ pos f' = 3.
Proof.
  assert (In _str_sin fn_names) as Hin by (left; reflexivity).
  split; [exact sum_field_text|]. split; [exact Hin|]. split; [reflexivity|].
  destruct (@function_name_is_deleted_as_a_unit sum_field _str_sin 0
              sum_field_text Hin eq_refl eq_refl) as (f' & Hd & Hc & Hp & _).
  exists f'. split; [exact Hd|]. split; [exact Hc|exact Hp].
Defined.

Lemma field_update_draws_the_text_witness :
  text_wf sum_field /\ len sum_field <= 127 /\
  1 <= width sum_field <= 127 /\
  field_update sum_field =
    Some (lcd_cursor 0 0
          :: map lcd_data [50; 43; 51]
             ++ repeat (lcd_data 32) 13 ++ [lcd_cursor 3 0]).
Proof.
  assert (len sum_field <= 127) as Hl by (vm_compute; discriminate).
  assert (1 <= width sum_field <= 127) as Hw
      by (vm_compute; intuition discriminate).
  split; [exact sum_field_text|]. split; [exact Hl|]. split; [exact Hw|].
  exact (@field_update_draws_the_text platform sum_field sum_field_text Hl Hw).
Defined.

Lemma field_update_reads_below_a_long_text_witness :
  text_wf long_field /\ 128 <= len long_field /\
  1 <= width long_field <= 127 /\
  (pos long_field < width long_field - 1 \/ 127 <= pos long_field) /\
  (forall j, -128 <= j < 0 -> buf long_field j <> 0) /\
  field_update long_field = None.
Proof.
  assert (128 <= len long_field) as Hl by (vm_compute; discriminate).
  assert (1 <= width long_field <= 127) as Hw
      by (vm_compute; intuition discriminate).
  assert (pos long_field < width long_field - 1 \/ 127 <= pos long_field)
    as Hp by (left; reflexivity).
  assert (forall j, -128 <= j < 0 -> buf long_field j <> 0) as Hb.
  { intros j Hj. cbn [buf long_field].
    destruct (Z.ltb_spec j 128); [discriminate|lia]. }
  split; [exact long_field_text|]. split; [exact Hl|]. split; [exact Hw|].
  split; [exact Hp|]. split; [exact Hb|].
  exact (proj1 (@field_update_reads_below_a_long_text platform long_field
                  long_field_text Hl Hw Hp) Hb).
Defined.

Lemma a_pass_reports_the_lowest_key_witness :
  KeyScan.at_rest (KeyScan.init 0 16) /\
  exists s',
    KeyScan.scan (KeyScan.readings key_2_pass) (KeyScan.init 0 16)
      = ([14], s') /\
    KeyScan.last_key s' = 14 /\ KeyScan.found key_2_pass 14.
Proof.
  assert (KeyScan.at_rest (KeyScan.init 0 16)) as H
      by (repeat split; reflexivity).
  split; [exact H|].
  destruct (@KeyScanTheorems.a_pass_reports_the_lowest_key
              (KeyScan.init 0 16) key_2_pass H)
    as (key & s' & Hs & _ & Hk & Hf).
  assert (key = 14) as ->.
  { rewrite <- Hk. apply (f_equal snd) in Hs. cbn [snd] in Hs.
    rewrite <- Hs. reflexivity. }
  exists s'. split; [exact Hs|]. split; [exact Hk|exact Hf].
Defined.

Lemma a_key_press_is_reported_once_witness :
  KeyScan.at_rest (KeyScan.init 0 16) /\
  KeyScan.last_key (KeyScan.init 0 16) = KeyScan.KEY_NULL /\
  exists key,
    0 <= key < 32 /\ KeyScan.found key_2_pass key /\
    fst (KeyScan.scan
           (concat (map KeyScan.readings [key_2_pass; key_2_pass; key_2_pass]))
           (KeyScan.init 0 16)) = [key].
Proof.
  assert (KeyScan.at_rest (KeyScan.init 0 16)) as H
      by (repeat split; reflexivity).
  split; [exact H|]. split; [reflexivity|].
  apply (@KeyScanTheorems.a_key_press_is_reported_once
           key_2_pass [key_2_pass; key_2_pass] (KeyScan.init 0 16) H eq_refl).
  repeat constructor; exists 14; (split; [lia|reflexivity]).
Defined.

Lemma one_column_is_driven_witness :
  KeyScan.readings key_2_pass <> [] /\
  0 <= 0 < 256 /\ Z.land 0 15 = 0 /\ 0 <= 16 < 256 /\ Z.land 16 15 = 0 /\
  let s := snd (KeyScan.scan (KeyScan.readings key_2_pass)
                  (KeyScan.init 0 16)) in
  KeyScan.DDRB s = 8 /\ KeyScan.PORTB s = 24.
Proof.
  assert (KeyScan.readings key_2_pass <> []) as H by discriminate.
  assert (0 <= 0 < 256) as H0 by lia.
  assert (0 <= 16 < 256) as H1 by lia.
  split; [exact H|]. split; [exact H0|]. split; [reflexivity|].
  split; [exact H1|]. split; [reflexivity|].
  pose proof (@KeyScanTheorems.one_column_is_driven
                (KeyScan.readings key_2_pass) 0 16 H H0 eq_refl H1 eq_refl)
    as (_ & _ & Hd & Hp).
  split; [exact Hd|exact Hp].
Defined.

Lemma calc_prepare_error_codes_witness :
  exists t,
    calc_prepare (term_of_string "2)") no_tokens = Some (ERROR_SYNTAX, t) /\
    (ERROR_SYNTAX = 0 \/ ERROR_SYNTAX = ERROR_SYNTAX \/
     ERROR_SYNTAX = ERROR_NOMEM).
Proof.
  eexists. split; [reflexivity|].
  exact (@calc_prepare_error_codes platform (term_of_string "2)") no_tokens
           ERROR_SYNTAX _ eq_refl).
Defined.

Lemma an_expression_evaluates_to_its_value_witness :
  grammar 3 neg_power = true /\
  Z.of_nat (length (rpn neg_power)) <= TOKEN_LIST_SIZE - 1 /\
  depth neg_power <= OPERATOR_STACK_SIZE - 1 /\
  show_expr neg_power = term_of_string "-2^2" /\
  exists t,
    calc_prepare (term_of_string "-2^2") no_tokens = Some (0, t) /\
    tok_type_list t = [TT_NUMBER; TT_UNARY_MINUS; TT_NUMBER; TT_POW] /\
    calc_solve t 0%R 0%R =
      (0, fpow (fneg (parse_float [50])) (parse_float [50])).
Proof.
  assert (Z.of_nat (length (rpn neg_power)) <= TOKEN_LIST_SIZE - 1) as Ht
      by (vm_compute; discriminate).
  assert (depth neg_power <= OPERATOR_STACK_SIZE - 1) as Hd
      by (vm_compute; discriminate).
  split; [reflexivity|]. split; [exact Ht|]. split; [exact Hd|].
  split; [reflexivity|].
  exact (@an_expression_evaluates_to_its_value platform neg_power no_tokens
           0%R 0%R eq_refl Ht Hd).
Defined.

Lemma an_unclosed_parenthesis_is_left_to_the_evaluator_witness :
  grammar 3 sum_expr = true /\
  Z.of_nat (length (rpn sum_expr)) + 1 <= TOKEN_LIST_SIZE - 1 /\
  1 + depth sum_expr <= OPERATOR_STACK_SIZE - 1 /\
  exists t,
    calc_prepare (term_of_string "(2+3*x") no_tokens = Some (0, t) /\
    tok_type_list t = [TT_NUMBER; TT_NUMBER; TT_X; TT_MUL; TT_ADD; TT_LP] /\
    calc_solve t 4%R 0%R = (ERROR_SYNTAX, 0%R).
Proof.
  assert (Z.of_nat (length (rpn sum_expr)) + 1 <= TOKEN_LIST_SIZE - 1) as Ht
      by (vm_compute; discriminate).
  assert (1 + depth sum_expr <= OPERATOR_STACK_SIZE - 1) as Hd
      by (vm_compute; discriminate).
  split; [reflexivity|]. split; [exact Ht|]. split; [exact Hd|].
  exact (@an_unclosed_parenthesis_is_left_to_the_evaluator platform sum_expr
           no_tokens 4%R 0%R eq_refl Ht Hd).
Defined.

Lemma a_stray_character_reads_a_stale_number_witness :
  CHAR_DP <> 0 /\ isdigit CHAR_DP = false /\
  exists t,
    calc_prepare [CHAR_PI; CHAR_DP; CHAR_ADD] no_tokens = Some (0, t) /\
    tok_type_list t = [TT_NUMBER; TT_NUMBER; TT_ADD] /\
    calc_solve t 0%R 0%R = (0, (PI + 0)%R).
Proof.
  split; [discriminate|]. split; [reflexivity|].
  apply (@a_stray_character_reads_a_stale_number platform CHAR_DP no_tokens
           0%R 0%R); [discriminate|reflexivity|].
  cbn. intuition discriminate.
Defined.

Lemma a_second_decimal_point_is_a_syntax_error_witness :
  isdigit 49 = true /\
  exists t,
    calc_prepare (term_of_string "1.2.3+4") no_tokens
      = Some (ERROR_SYNTAX, t) /\
    tok_type_list t = [].
Proof.
  split; [reflexivity|].
  apply (@a_second_decimal_point_is_a_syntax_error platform 49 [] [50]
           (term_of_string "3+4") no_tokens eq_refl);
    repeat constructor.
Defined.

Lemma after_run (keys : list KEY) :
  match run keys start with Some _ => True | None => False end ->
  run keys start = Some (after keys).
Proof.
  unfold after. destruct (run keys start); [reflexivity|contradiction].
Qed.

Lemma the_table_is_the_table_of_the_term_witness :
  run [KEY_SHIFT_0_2; KEY_3_3] (main zero_mem zero_mem zero_mem)
    = Some (after [KEY_SHIFT_0_2; KEY_3_3]) /\
  mode_of (after [KEY_SHIFT_0_2; KEY_3_3]) = Settings /\
  x_cnt (after [KEY_SHIFT_0_2; KEY_3_3]) <> 0.
Proof.
  assert (run [KEY_SHIFT_0_2; KEY_3_3] (main zero_mem zero_mem zero_mem)
          = Some (after [KEY_SHIFT_0_2; KEY_3_3])) as H
      by (apply after_run; exact I).
  split; [exact H|]. split; [reflexivity|].
  exact (proj1 (@the_table_is_the_table_of_the_term platform zero_mem zero_mem
                  zero_mem _ _ H (or_introl eq_refl))).
Defined.

Lemma an_error_screen_returns_to_its_mode_witness :
  mode_of (after [KEY_3_3]) = Error /\
  dispatch KEY_1_0 (after [KEY_3_3]) = Some (mode_input (after [KEY_3_3])) /\
  mode_of (mode_input (after [KEY_3_3])) = Entry.
Proof.
  split; [reflexivity|]. split; [reflexivity|].
  destruct (@an_error_screen_returns_to_its_mode platform zero_mem zero_mem
              zero_mem [] KEY_3_3 KEY_1_0 start (after [KEY_3_3])
              (mode_input (after [KEY_3_3]))
              eq_refl eq_refl eq_refl eq_refl)
    as (_ & [(Hs & _)|(_ & He)]).
  - discriminate Hs.
  - exact He.
Defined.

Lemma the_error_screen_shows_a_message_witness :
  dispatch KEY_3_3 start = Some (after [KEY_3_3]) /\
  mode_of (after [KEY_3_3]) = Error /\
  exists err a0 msg,
    nth_error _err_msg (Z.to_nat (err - 1)) = Some msg /\
    lcd (after [KEY_3_3]) = lcd a0 ++ error_screen msg /\
    err <> ERROR_RANGE.
Proof.
  split; [reflexivity|]. split; [reflexivity|].
  destruct (@the_error_screen_shows_a_message platform KEY_3_3 start
              (after [KEY_3_3]) eq_refl eq_refl)
    as (err & a0 & msg & _ & _ & Hm & Hl & Hr).
  exists err, a0, msg. split; [exact Hm|]. split; [exact Hl|].
  intros E. apply Hr in E. discriminate E.
Defined.

Lemma the_number_fields_are_always_drawn_witness :
  MSG_START_LEN + 1 <= LCD_WIDTH <= 127 /\
  run [KEY_SHIFT_0_2; KEY_3_3; KEY_SHIFT_3_1; KEY_1_1]
    (main zero_mem zero_mem zero_mem)
    = Some (after [KEY_SHIFT_0_2; KEY_3_3; KEY_SHIFT_3_1; KEY_1_1]) /\
  content (fld_start (after [KEY_SHIFT_0_2; KEY_3_3; KEY_SHIFT_3_1; KEY_1_1]))
    = [45; 53] /\
  exists ops,
    field_update
      (fld_start (after [KEY_SHIFT_0_2; KEY_3_3; KEY_SHIFT_3_1; KEY_1_1]))
      = Some ops.
Proof.
  assert (MSG_START_LEN + 1 <= LCD_WIDTH <= 127) as Hlcd
      by (vm_compute; intuition discriminate).
  assert (run [KEY_SHIFT_0_2; KEY_3_3; KEY_SHIFT_3_1; KEY_1_1]
            (main zero_mem zero_mem zero_mem)
          = Some (after [KEY_SHIFT_0_2; KEY_3_3; KEY_SHIFT_3_1; KEY_1_1]))
    as Hrun by (apply after_run; exact I).
  split; [exact Hlcd|]. split; [exact Hrun|].
  split; [reflexivity|].
  exact (proj1 (@the_number_fields_are_always_drawn platform zero_mem
                  zero_mem zero_mem _ _ Hlcd Hrun)).
Defined.

Lemma the_step_field_holds_no_minus_sign_witness :
  run [KEY_SHIFT_0_2; KEY_3_3; KEY_SHIFT_1_2; KEY_SHIFT_3_1; KEY_1_1]
    (main zero_mem zero_mem zero_mem)
    = Some (after [KEY_SHIFT_0_2; KEY_3_3; KEY_SHIFT_1_2; KEY_SHIFT_3_1;
                   KEY_1_1]) /\
  content (fld_step (after [KEY_SHIFT_0_2; KEY_3_3; KEY_SHIFT_1_2;
                            KEY_SHIFT_3_1; KEY_1_1])) = [53] /\
  Forall (fun c => isdigit c = true \/ c = CHAR_DP)
    (content (fld_step (after [KEY_SHIFT_0_2; KEY_3_3; KEY_SHIFT_1_2;
                               KEY_SHIFT_3_1; KEY_1_1]))).
Proof.
  assert (run [KEY_SHIFT_0_2; KEY_3_3; KEY_SHIFT_1_2; KEY_SHIFT_3_1; KEY_1_1]
            (main zero_mem zero_mem zero_mem)
          = Some (after [KEY_SHIFT_0_2; KEY_3_3; KEY_SHIFT_1_2;
                         KEY_SHIFT_3_1; KEY_1_1]))
    as Hrun by (apply after_run; exact I).
  split; [exact Hrun|]. split; [reflexivity|].
  exact (proj1 (proj2 (@the_step_field_holds_no_minus_sign platform zero_mem
                         zero_mem zero_mem _ _ Hrun))).
Defined.

Lemma the_invariant_holds_behind_a_guard_byte_witness :
  islower (zero_mem (-1)) = false /\
  run some_keys (main zero_mem zero_mem zero_mem) = Some (after some_keys) /\
  field_inv (fld_term (after some_keys)) /\
  pos (fld_term (after some_keys)) = 7 /\
  len (fld_term (after some_keys)) = 8.
Proof.
  assert (run some_keys (main zero_mem zero_mem zero_mem)
          = Some (after some_keys)) as Hrun by (apply after_run; exact I).
  split; [reflexivity|]. split; [exact Hrun|].
  split; [|split; reflexivity].
  exact (proj1 (proj1 (@the_invariant_holds_behind_a_guard_byte platform
                         zero_mem zero_mem zero_mem _ _ eq_refl Hrun))).
Defined.
